(** * ORBIT: array cable installation, action logging and phase scheduling

    A shallow embedding of [ORBIT/phases/install/cable_install/array.py]
    (the [ArrayCableInstallation] phase and the generator processes
    [install_array_cables], [bury_array_cables], [dig_array_cables_trench]),
    together with models of the scheduler's action log and of the project
    manager's phase resolution and calendar offsets.

    Generators are modelled as state passing computations that emit the
    list of their suspension points ([yield]) in order.  Python lists that
    are shared by reference (the [cable_sections] lists) live in an explicit
    heap, so that a [pop(0)] through one reference is seen through every
    other reference to the same list. *)

From stdpp Require Import gmap strings list.
From Stdlib Require Import ZArith Lia Ascii.

Local Open Scope Z_scope.

(** ** Data *)

(** Lengths, distances, speeds and the values of keyword arguments are
    Python numbers.  The processes only pass them on, and only the cable
    storage compares them, so they are modelled as integers. *)

(** Keyword arguments ([**kwargs]): a dictionary from names to numbers. *)
Abbreviation kwargs := (gmap string Z).

(** References to Python list objects. *)
Abbreviation loc := positive.

(** [SimpleCable(linear_density)]. *)
Record Cable := { linear_density : Z }.

(** One entry of [cable_sections]:
    [(length, km; int; speed, km/h (optional))].  The starred target
    [*extra] of the unpacking receives whatever follows the first two
    components. *)
Record cable_section := {
  cs_length : Z;
  cs_count : Z;
  cs_extra : list Z
}.

(** The cable storage of a vessel ([vessel.cable_storage]) is defined in
    [ORBIT.core], whose source is not embedded here; the processes only
    use the three operations below.  [get_cable] returns [None] when the
    storage raises [InsufficientCable], and the cut section and the new
    storage otherwise; [load_cable] is the effect of
    [load_cable_on_vessel]. *)
Class CableStorage (S : Type) := {
  reset : S → S;
  load_cable : Cable → S → S;
  get_cable : Z → S → option (Z * S)
}.

(** Modelled from the spec: the [ResourcePool] of section 3 and 4.3 that
    stands for [ORBIT.core]'s cable carousel, [{capacity, level}] with
    [get(amount)] failing when [amount > level] and decrementing the level
    otherwise, [reset] restocking, and a reload at port filling the pool
    to full capacity. *)
Record ResourcePool := { capacity : Z; level : Z }.

(** Modelled from the spec: [get(amount)] of section 4.3. *)
Definition pool_get (amount : Z) (p : ResourcePool)
    : option (Z * ResourcePool) :=
  if decide (amount > level p) then None
  else Some (amount, {| capacity := capacity p; level := level p - amount |}).

(** Modelled from the spec: [reset()] of section 4.3, restocking to
    full capacity. *)
Definition pool_reset (p : ResourcePool) : ResourcePool :=
  {| capacity := capacity p; level := capacity p |}.

(** Modelled from the spec: the cable storage of a vessel as a resource
    pool; the reload at port fills it to full capacity (section 4.4). *)
#[global] Instance pool_storage : CableStorage ResourcePool := {
  reset := pool_reset;
  load_cable := λ _ p, pool_reset p;
  get_cable := pool_get
}.

(** A vessel as far as the processes look at it. *)
Record Vessel (S : Type) := {
  at_port : bool;
  at_site : bool;
  cable_storage : S
}.
Arguments at_port {S} _.
Arguments at_site {S} _.
Arguments cable_storage {S} _.
Arguments Build_Vessel {S} _ _ _.

Definition set_at_port {S} (b : bool) (v : Vessel S) : Vessel S :=
  {| at_port := b; at_site := at_site v; cable_storage := cable_storage v |}.
Definition set_at_site {S} (b : bool) (v : Vessel S) : Vessel S :=
  {| at_port := at_port v; at_site := b; cable_storage := cable_storage v |}.
Definition set_cable_storage {S} (f : S → S) (v : Vessel S) : Vessel S :=
  {| at_port := at_port v; at_site := at_site v;
     cable_storage := f (cable_storage v) |}.

(** ** Events *)

Inductive agent := install_vessel | burial_vessel_agent | trench_vessel_agent.

(** The timed steps a process can suspend on. *)
Inductive step :=
| transit (distance : Z)
| load_cable_on_vessel (cable : Cable)
| position_onsite
| prep_cable
| pull_in_cable
| terminate_cable
| lower_cable
| lay_bury_cable (section : Z)
| lay_cable (section : Z)
| bury_cable (section : Z)
| dig_trench (section : Z).

#[global] Instance Cable_eq_dec : EqDecision Cable.
Proof. solve_decision. Defined.
#[global] Instance step_eq_dec : EqDecision step.
Proof. solve_decision. Defined.
#[global] Instance agent_eq_dec : EqDecision agent.
Proof. solve_decision. Defined.

Definition is_transit (s : step) : bool :=
  match s with transit _ => true | _ => false end.

(** The location flags [(at_port, at_site)] of the three vessels, as they
    stand when a process suspends; [None] for a vessel that is not
    configured. *)
Definition flags : Type := bool * bool.
Record snapshot := {
  snap_install : flags;
  snap_burial : option flags;
  snap_trench : option flags
}.

#[global] Instance snapshot_eq_dec : EqDecision snapshot.
Proof. solve_decision. Defined.

(** Processes that are started without being waited for. *)
Inductive spawned :=
| bury_array_cables_call (sections : list Z) (kw : kwargs)
| dig_array_cables_trench_call (sections : Z) (kw : kwargs).

Inductive event :=
| Yield (a : agent) (s : step) (kw : kwargs) (at_suspension : snapshot)
| Spawn (p : spawned)
| DebugLog (a : agent) (message : string).

(** ** The state a process runs in *)

Record world (S : Type) := {
  vessel : Vessel S;
  burial_vessel : option (Vessel S);
  trench_vessel : option (Vessel S);
  heap : gmap loc (list cable_section);
  to_bury : list Z
}.
Arguments vessel {S} _.
Arguments burial_vessel {S} _.
Arguments trench_vessel {S} _.
Arguments heap {S} _.
Arguments to_bury {S} _.
Arguments Build_world {S} _ _ _ _ _.

Definition with_vessel {S} (f : Vessel S → Vessel S) (w : world S) : world S :=
  {| vessel := f (vessel w); burial_vessel := burial_vessel w;
     trench_vessel := trench_vessel w; heap := heap w; to_bury := to_bury w |}.
Definition with_trench_vessel {S} (f : Vessel S → Vessel S) (w : world S)
    : world S :=
  {| vessel := vessel w; burial_vessel := burial_vessel w;
     trench_vessel := f <$> trench_vessel w; heap := heap w;
     to_bury := to_bury w |}.
Definition with_heap {S} (h : gmap loc (list cable_section)) (w : world S)
    : world S :=
  {| vessel := vessel w; burial_vessel := burial_vessel w;
     trench_vessel := trench_vessel w; heap := h; to_bury := to_bury w |}.
Definition with_to_bury {S} (f : list Z → list Z) (w : world S) : world S :=
  {| vessel := vessel w; burial_vessel := burial_vessel w;
     trench_vessel := trench_vessel w; heap := heap w;
     to_bury := f (to_bury w) |}.

Definition vessel_flags {S} (v : Vessel S) : flags := (at_port v, at_site v).

Definition snap {S} (w : world S) : snapshot :=
  {| snap_install := vessel_flags (vessel w);
     snap_burial := vessel_flags <$> burial_vessel w;
     snap_trench := vessel_flags <$> trench_vessel w |}.

Inductive exn := InsufficientCable | IndexError | AttributeError | TypeError.

#[global] Instance exn_eq_dec : EqDecision exn.
Proof. solve_decision. Defined.

(** How a computation ends: it returns, it raises, or it is still inside a
    [while True] loop when the fuel runs out. *)
Inductive outcome (A : Type) :=
| Returned (a : A)
| Raised (e : exn)
| Spinning.
Arguments Returned {A} _.
Arguments Raised {A} _.
Arguments Spinning {A}.

(** ** A state, trace and exception monad *)

Section Process.
Context {S : Type}.

Definition proc (A : Type) : Type :=
  world S → list event * world S * outcome A.

Definition ret {A} (a : A) : proc A := λ w, ([], w, Returned a).

Definition bind {A B} (m : proc A) (k : A → proc B) : proc B := λ w,
  match m w with
  | (t1, w1, Returned a) =>
      match k a w1 with (t2, w2, r) => (t1 ++ t2, w2, r) end
  | (t1, w1, Raised e) => (t1, w1, Raised e)
  | (t1, w1, Spinning) => (t1, w1, Spinning)
  end.

Definition raise {A} (e : exn) : proc A := λ w, ([], w, Raised e).

(** The fuel of a [while True] loop is used up. *)
Definition spin {A} : proc A := λ w, ([], w, Spinning).

(** [try: m except e: h] *)
Definition catch {A} (e : exn) (m h : proc A) : proc A := λ w,
  match m w with
  | (t1, w1, Raised e') =>
      if decide (e' = e)
      then match h w1 with (t2, w2, r) => (t1 ++ t2, w2, r) end
      else (t1, w1, Raised e')
  | r => r
  end.

Definition get : proc (world S) := λ w, ([], w, Returned w).
Definition modify (f : world S → world S) : proc unit :=
  λ w, ([], f w, Returned tt).
Definition emit (e : event) : proc unit := λ w, ([e], w, Returned tt).

(** [for _ in range(n): body] *)
Fixpoint for_repeat (n : nat) (body : proc unit) : proc unit :=
  match n with
  | O => ret tt
  | Datatypes.S n => bind body (λ _, for_repeat n body)
  end.
Definition for_range (n : Z) (body : proc unit) : proc unit :=
  for_repeat (Z.to_nat n) body.

(** [for x in l: body x] *)
Fixpoint for_each {A} (l : list A) (body : A → proc unit) : proc unit :=
  match l with
  | [] => ret tt
  | x :: l => bind (body x) (λ _, for_each l body)
  end.

End Process.
Arguments proc : clear implicits.

Declare Scope proc_scope.
Delimit Scope proc_scope with proc.
Bind Scope proc_scope with proc.
Notation "'let*' x ':=' m 'in' k" := (bind m (λ x, k))
  (at level 10, x pattern, m at level 100, k at level 200) : proc_scope.
Notation "m >> k" := (bind m (λ _, k))
  (at level 90, right associativity) : proc_scope.

(** ** The processes of [array.py] *)

Section ArrayCable.
Context {S : Type} `{CableStorage S}.
Local Open Scope proc_scope.

Definition set_vessel (f : Vessel S → Vessel S) : proc S unit :=
  modify (with_vessel f).
Definition set_trench_vessel (f : Vessel S → Vessel S) : proc S unit :=
  modify (with_trench_vessel f).
Definition set_heap (h : gmap loc (list cable_section)) : proc S unit :=
  modify (with_heap h).
Definition set_to_bury (f : list Z → list Z) : proc S unit :=
  modify (with_to_bury f).

(** Reading an attribute of [trench_vessel]; on [None] Python raises
    [AttributeError]. *)
Definition get_trench_vessel : proc S (Vessel S) := λ w,
  match trench_vessel w with
  | Some v => ([], w, Returned v)
  | None => ([], w, Raised AttributeError)
  end.

(** [yield <step>]: the process suspends; the event records the step, its
    keyword arguments and the location flags at the suspension. *)
Definition yield (a : agent) (s : step) (kw : kwargs) : proc S unit :=
  let* w := get in emit (Yield a s kw (snap w)).

(** [yield load_cable_on_vessel(vessel, cable, **kwargs)]: the sub-process
    is waited for, and loads the cable onto the vessel's storage. *)
Definition yield_load (cable : Cable) (kw : kwargs) : proc S unit :=
  yield install_vessel (load_cable_on_vessel cable) kw >>
  set_vessel (set_cable_storage (load_cable cable)).

(** [sections.pop(0)] on the list object at [l]. *)
Definition pop0 (l : loc) : proc S cable_section :=
  let* w := get in
  match default [] (heap w !! l) with
  | [] => raise IndexError
  | s :: rest => set_heap (<[l := rest]> (heap w)) >> ret s
  end.

(** [vessel.cable_storage.get_cable(length)] *)
Definition vessel_get_cable (length : Z) : proc S Z :=
  let* w := get in
  match get_cable length (cable_storage (vessel w)) with
  | None => raise InsufficientCable
  | Some (section, st) => set_vessel (set_cable_storage (λ _, st)) >> ret section
  end.

(** Lines 226-230: load the cable at port and sail to the site. *)
Definition load_and_transit_to_site (distance : Z) (kw : kwargs)
    (cable : Cable) : proc S unit :=
  yield_load cable kw >>
  set_vessel (set_at_port false) >>
  yield install_vessel (transit distance) kw >>
  set_vessel (set_at_site true).

(** Lines 249-251 and 287-289: transit back to port. *)
Definition transit_to_port (distance : Z) (kw : kwargs) : proc S unit :=
  set_vessel (set_at_site false) >>
  yield install_vessel (transit distance) kw >>
  set_vessel (set_at_port true).

(** Lines 196-198: the trenching vessel sails to the site. *)
Definition trench_transit_to_site (distance : Z) (kw : kwargs) : proc S unit :=
  set_trench_vessel (set_at_port false) >>
  yield trench_vessel_agent (transit distance) kw >>
  set_trench_vessel (set_at_site true).

(** Lines 210-212 and 215-217: the trenching vessel sails back to port. *)
Definition trench_transit_to_port (distance : Z) (kw : kwargs) : proc S unit :=
  set_trench_vessel (set_at_site false) >>
  yield trench_vessel_agent (transit distance) kw >>
  set_trench_vessel (set_at_port true).

(** Lines 236-246: the keyword arguments of the laying step. *)
Definition section_specs (bv : option (Vessel S)) (kw : kwargs)
    (extra : list Z) : kwargs :=
  match extra with
  | speed :: _ =>
      match bv with
      | None => <["cable_lay_bury_speed" := speed]> kw
      | Some _ => <["cable_lay_speed" := speed]> kw
      end
  | [] => kw
  end.

(** Lines 254-284: the body of [for _ in range(num_sections)]. *)
Definition lay_section (distance : Z) (kw : kwargs) (cable : Cable)
    (length : Z) (specs : kwargs) : proc S unit :=
  let* section :=
    catch InsufficientCable
      (vessel_get_cable length)
      (yield install_vessel (transit distance) kw >>
       yield_load cable kw >>
       yield install_vessel (transit distance) kw >>
       vessel_get_cable length) in
  yield install_vessel position_onsite kw >>
  yield install_vessel prep_cable kw >>
  yield install_vessel pull_in_cable kw >>
  yield install_vessel terminate_cable kw >>
  yield install_vessel lower_cable kw >>
  (let* w := get in
   match burial_vessel w with
   | None => yield install_vessel (lay_bury_cable section) specs
   | Some _ =>
       yield install_vessel (lay_cable section) specs >>
       set_to_bury (λ l, l ++ [section])
   end) >>
  yield install_vessel prep_cable kw >>
  yield install_vessel pull_in_cable kw >>
  yield install_vessel terminate_cable kw.

(** Lines 224-284: the [while True] loop of the installation vessel over
    the sections of one cable.  [None] from the [try] block stands for the
    [break] of the [except IndexError] handler. *)
Fixpoint lay_sections (fuel : nat) (distance : Z) (kw : kwargs)
    (cable : Cable) (sections : loc) : proc S unit :=
  match fuel with
  | O => spin
  | Datatypes.S fuel =>
      let* w := get in
      if at_port (vessel w) then
        load_and_transit_to_site distance kw cable >>
        lay_sections fuel distance kw cable sections
      else if at_site (vessel w) then
        let* r :=
          catch IndexError
            (let* s := pop0 sections in
             ret (Some (cs_length s, cs_count s,
                        section_specs (burial_vessel w) kw (cs_extra s))))
            (transit_to_port distance kw >> ret None) in
        match r with
        | None => ret tt
        | Some (length, num_sections, specs) =>
            for_range num_sections
              (lay_section distance kw cable length specs) >>
            lay_sections fuel distance kw cable sections
        end
      else lay_sections fuel distance kw cable sections
  end.

(** Lines 194-213: the [while True] loop of the trenching vessel.  The
    [print] calls of the source write to standard output only and are left
    out.  [dig_array_cables_trench] is called without [yield]: the process
    is started and not waited for. *)
Fixpoint trench_sections (fuel : nat) (distance : Z) (kw : kwargs)
    (sections : loc) : proc S unit :=
  match fuel with
  | O => spin
  | Datatypes.S fuel =>
      let* tv := get_trench_vessel in
      if at_port tv then
        trench_transit_to_site distance kw >>
        trench_sections fuel distance kw sections
      else if at_site tv then
        let* stop :=
          catch IndexError
            (let* s := pop0 sections in
             for_range (cs_count s)
               (emit (Spawn (dig_array_cables_trench_call (cs_length s) kw))) >>
             ret false)
            (trench_transit_to_port distance kw >> ret true) in
        if stop : bool then ret tt
        else trench_sections fuel distance kw sections
      else trench_sections fuel distance kw sections
  end.

(** Lines 192-217: the body of the trenching [for cable, sections in
    cable_data] loop.  It resets the storage of the installation vessel
    ([vessel], not [trench_vessel]), as the source does. *)
Definition trench_one_cable (fuel : nat) (distance : Z) (kw : kwargs)
    (sections : loc) : proc S unit :=
  set_vessel (set_cable_storage reset) >>
  trench_sections fuel distance kw sections >>
  trench_transit_to_port distance kw.

(** Lines 222-289: the body of the laying [for cable, sections in
    cable_data] loop. *)
Definition install_one_cable (fuel : nat) (distance : Z) (kw : kwargs)
    (cable : Cable) (sections : loc) : proc S unit :=
  set_vessel (set_cable_storage reset) >>
  lay_sections fuel distance kw cable sections >>
  transit_to_port distance kw.

(** [install_array_cables(vessel, distance, cable_data, burial_vessel,
    trench_vessel, **kwargs)].  The vessels are the ones of the world the
    process runs in; [cable_data] pairs each cable with a reference to its
    list of sections.  [bury_array_cables] is called without [yield]: the
    process is started and not waited for. *)
Definition install_array_cables (fuel : nat) (distance : Z)
    (cable_data : list (Cable * loc)) (kw : kwargs) : proc S unit :=
  (let* w := get in
   match trench_vessel w with
   | None => ret tt
   | Some _ =>
       for_each cable_data (λ '(cable, sections),
         trench_one_cable fuel distance kw sections)
   end) >>
  set_to_bury (λ _, []) >>
  for_each cable_data (λ '(cable, sections),
    install_one_cable fuel distance kw cable sections) >>
  let* w := get in
  match burial_vessel w with
  | None =>
      emit (DebugLog install_vessel "Array cable lay/burial process completed!")
  | Some _ =>
      emit (DebugLog install_vessel "Array cable lay process completed!") >>
      emit (Spawn (bury_array_cables_call (to_bury w) kw))
  end.

(** [bury_array_cables(vessel, sections, **kwargs)] *)
Definition bury_array_cables (sections : list Z) (kw : kwargs) : proc S unit :=
  for_each sections (λ length,
    yield burial_vessel_agent position_onsite {["site_position_time" := 2]} >>
    yield burial_vessel_agent (bury_cable length) kw) >>
  emit (DebugLog burial_vessel_agent "Array cable burial process completed!").

(** [dig_array_cables_trench(vessel, sections, **kwargs)] iterates over
    [sections]; the call in [install_array_cables] passes the number
    [length] there, and iterating over a number raises [TypeError]. *)
Inductive pyvalue := PyNumber (x : Z) | PyList (l : list Z).

Definition dig_array_cables_trench (sections : pyvalue) (kw : kwargs)
    : proc S unit :=
  match sections with
  | PyNumber _ => raise TypeError
  | PyList sections =>
      for_each sections (λ length,
        yield trench_vessel_agent position_onsite
              {["site_position_time" := 2]} >>
        yield trench_vessel_agent (dig_trench length) kw) >>
      emit (DebugLog trench_vessel_agent
              "Array cable trench digging process completed!")
  end.

(** ** The phase class *)

(** One entry of [config["array_system"]["cables"]]; [cable_sections] is a
    reference to the list held by the configuration. *)
Record cable_config := {
  cfg_linear_density : Z;
  cfg_cable_sections : loc
}.

(** The configuration of the phase.  A vessel's specification is
    represented by the cable storage that [vessel.initialize()] builds
    from it; an optional vessel that is not configured is [None]. *)
Record config := {
  array_cable_install_vessel : S;
  array_cable_bury_vessel : option S;
  array_cable_trench_vessel : option S;
  site_distance : Z;
  array_system_cables : list (string * cable_config)
}.

(** Lines 109-115, 127-133 and 145-151: every vessel starts at port. *)
Definition initialize_vessel (specs : S) : Vessel S :=
  {| at_port := true; at_site := false; cable_storage := specs |}.

(** [deepcopy] of a list of tuples: a new list object with the same
    entries. *)
Definition deepcopy (l : loc) : proc S loc :=
  let* w := get in
  let l' := fresh (dom (heap w)) in
  set_heap (<[l' := default [] (heap w !! l)]> (heap w)) >> ret l'.

(** Lines 87-90: the list comprehension building [self.cable_data]. *)
Fixpoint build_cable_data (cables : list (string * cable_config))
    : proc S (list (Cable * loc)) :=
  match cables with
  | [] => ret []
  | (_, data) :: cables =>
      let* sections := deepcopy (cfg_cable_sections data) in
      let* rest := build_cable_data cables in
      ret (({| linear_density := cfg_linear_density data |}, sections) :: rest)
  end.

(** The world [setup_simulation] starts from (lines 83-85). *)
Definition initial_world (cfg : config) (h : gmap loc (list cable_section))
    : world S :=
  {| vessel := initialize_vessel (array_cable_install_vessel cfg);
     burial_vessel := initialize_vessel <$> array_cable_bury_vessel cfg;
     trench_vessel := initialize_vessel <$> array_cable_trench_vessel cfg;
     heap := h;
     to_bury := [] |}.

(** [ArrayCableInstallation.setup_simulation] followed by the run of the
    process it starts, on the heap [h] that holds the lists of the
    configuration. *)
Definition setup_simulation (fuel : nat) (cfg : config) (kw : kwargs)
    (h : gmap loc (list cable_section))
    : list event * world S * outcome unit :=
  (let* cable_data := build_cable_data (array_system_cables cfg) in
   install_array_cables fuel (site_distance cfg) cable_data kw)
  (initial_world cfg h).

End ArrayCable.
Arguments config : clear implicits.

(** ** Projections of a trace *)

Definition steps_of (t : list event) : list (agent * step) :=
  omap (λ e, match e with Yield a s _ _ => Some (a, s) | _ => None end) t.

Definition trace_of {S A} (r : list event * world S * outcome A) : list event :=
  r.1.1.
Definition world_of {S A} (r : list event * world S * outcome A) : world S :=
  r.1.2.
Definition outcome_of {S A} (r : list event * world S * outcome A) : outcome A :=
  r.2.


(** A relation between the state before a run, its trace and the state
    after it holds of a computation. *)
Definition sat {S A} (R : world S → list event → world S → Prop)
    (m : proc S A) : Prop :=
  ∀ w, R w (trace_of (m w)) (world_of (m w)).

(** The suspension points of a trace: the step waited for and the
    location flags at that moment. *)
Definition suspensions (t : list event) : list (step * snapshot) :=
  omap (λ e, match e with Yield _ s _ sn => Some (s, sn) | _ => None end) t.

(** Exactly one of [at_port] and [at_site] is true. *)
Definition flags_ok (f : flags) : bool := xorb f.1 f.2.

Definition snapshot_ok (sn : snapshot) : bool :=
  flags_ok (snap_install sn)
  && from_option flags_ok true (snap_burial sn)
  && from_option flags_ok true (snap_trench sn).

(** A monitor for the location flags along a trace.  [prev] is the
    previous suspension point: whether it was a transit, and the flags
    then.  Outside a transit every vessel has exactly one flag set, and
    flags that differ from the previous suspension point are next to a
    transit. *)
Fixpoint location_ok (prev : bool * snapshot) (t : list event) : Prop :=
  match t with
  | [] => True
  | Yield _ s _ sn :: t =>
      (is_transit s = false → snapshot_ok sn = true)
      ∧ (sn = prev.2 ∨ prev.1 = true ∨ is_transit s = true)
      ∧ location_ok (is_transit s, sn) t
  | _ :: t => location_ok prev t
  end.

Fixpoint last_suspension (prev : bool * snapshot) (t : list event)
    : bool * snapshot :=
  match t with
  | [] => prev
  | Yield _ s _ sn :: t => last_suspension (is_transit s, sn) t
  | _ :: t => last_suspension prev t
  end.

(** Between two blocks the flags are in order, and they are the ones of
    the previous suspension point unless that was a transit. *)
Definition location_pre {S} (w : world S) (prev : bool * snapshot) : Prop :=
  snapshot_ok (snap w) = true ∧ (prev.2 = snap w ∨ prev.1 = true).

Definition location_rel {S} (w : world S) (t : list event) (w' : world S)
    : Prop :=
  ∀ prev, location_pre w prev →
    location_ok prev t ∧ location_pre w' (last_suspension prev t).

(** The flags every vessel starts with (lines 113-114, 131-132, 149-150). *)
Definition initial_snapshot {S} (cfg : config S) : snapshot :=
  {| snap_install := (true, false);
     snap_burial := (λ _, (true, false)) <$> array_cable_bury_vessel cfg;
     snap_trench := (λ _, (true, false)) <$> array_cable_trench_vessel cfg |}.

(** A block leaves the heap and the location flags alone. *)
Definition frame_rel {S} (w : world S) (t : list event) (w' : world S)
    : Prop :=
  heap w' = heap w ∧ snap w' = snap w.

(** No list of the heap grows. *)
Definition shrink_rel {S} (w : world S) (t : list event) (w' : world S)
    : Prop :=
  ∀ l, (length (default [] (heap w' !! l))
        ≤ length (default [] (heap w !! l)))%nat.

(** What the [while True] loops need of the fuel: the flags of the
    vessels are in order, and [fuel] exceeds the length of every list of
    the heap by two. *)
Definition fuel_inv {S} (fuel : nat) (w : world S) : Prop :=
  snapshot_ok (snap w) = true
  ∧ ∀ l, (length (default [] (heap w !! l)) + 2 ≤ fuel)%nat.

(** The lists at the locations [D] are the same before and after. *)
Definition keep_rel {S} (D : gset loc) (w : world S) (t : list event)
    (w' : world S) : Prop :=
  ∀ l, l ∈ D → heap w' !! l = heap w !! l.

(** The sections laid by [lay_cable], those laid and buried in one step by
    [lay_bury_cable], and those buried by [bury_cable], in order. *)
Definition laid (t : list event) : list Z :=
  omap (λ e, match e with
             | Yield _ (lay_cable x) _ _ => Some x | _ => None end) t.
Definition laid_and_buried (t : list event) : list Z :=
  omap (λ e, match e with
             | Yield _ (lay_bury_cable x) _ _ => Some x | _ => None end) t.
Definition buried (t : list event) : list Z :=
  omap (λ e, match e with
             | Yield _ (bury_cable x) _ _ => Some x | _ => None end) t.

(** The calls of [bury_array_cables] in a trace. *)
Definition bury_calls (t : list event) : list (list Z * kwargs) :=
  omap (λ e, match e with
             | Spawn (bury_array_cables_call l kw) => Some (l, kw)
             | _ => None end) t.

(** With a burial vessel, a block lays with [lay_cable] only, appends
    what it lays to [to_bury], and does not start the burial. *)
Definition burial_rel {S} (w : world S) (t : list event) (w' : world S)
    : Prop :=
  burial_vessel w' = burial_vessel w
  ∧ (is_Some (burial_vessel w) → laid_and_buried t = [])
  ∧ to_bury w' = to_bury w ++ laid t
  ∧ bury_calls t = [].

(** A block that lays nothing. *)
Definition idle_rel {S} (w : world S) (t : list event) (w' : world S)
    : Prop :=
  burial_vessel w' = burial_vessel w
  ∧ laid_and_buried t = [] ∧ laid t = [] ∧ bury_calls t = [].

(** What the burial vessel does for a list of sections (lines 314-316). *)
Definition burial_steps (sections : list Z) : list (agent * step) :=
  flat_map (λ x, [(burial_vessel_agent, position_onsite);
                  (burial_vessel_agent, bury_cable x)]) sections.

(** The steps of a trace with the keyword arguments they were called
    with. *)
Definition calls_of (t : list event) : list (step * kwargs) :=
  omap (λ e, match e with Yield _ s kw _ => Some (s, kw) | _ => None end) t.

(** The laying step of a section gets [specs], every other step [kw]. *)
Definition call_kwargs_ok (kw specs : kwargs) (c : step * kwargs) : Prop :=
  match c.1 with
  | lay_bury_cable _ | lay_cable _ => c.2 = specs
  | _ => c.2 = kw
  end.

(** A block leaves the flags of the installation vessel alone. *)
Definition moored_rel {S} (w : world S) (t : list event) (w' : world S)
    : Prop :=
  vessel_flags (vessel w') = vessel_flags (vessel w).

(** The reload round trip of lines 261-263. *)
Definition reload_steps (distance : Z) (cable : Cable) : list (agent * step) :=
  [(install_vessel, transit distance);
   (install_vessel, load_cable_on_vessel cable);
   (install_vessel, transit distance)].

(** The laying procedure of lines 267-284 for one section; [lay] is the
    laying step, [lay_bury_cable] or [lay_cable]. *)
Definition laying_steps (lay : Z → step) (section : Z) : list (agent * step) :=
  [(install_vessel, position_onsite);
   (install_vessel, prep_cable);
   (install_vessel, pull_in_cable);
   (install_vessel, terminate_cable);
   (install_vessel, lower_cable);
   (install_vessel, lay section);
   (install_vessel, prep_cable);
   (install_vessel, pull_in_cable);
   (install_vessel, terminate_cable)].

Definition lay_step_of {S} (bv : option (Vessel S)) : Z → step :=
  match bv with None => lay_bury_cable | Some _ => lay_cable end.

(** ** The scheduler and its action log *)

(** Modelled from the spec: the VirtualClock, ProcessScheduler and
    ActionLog of sections 2, 3 and 4.1 (the environment of [marmot] and the
    [task] method of the agents of [ORBIT.core]), whose source is not
    embedded here.  A process is the ordered work plan of one agent; each
    step elapses its duration (a weather delay is such a step too, section
    4.2); the scheduler advances the clock to the minimum next completion
    among the pending waits and appends an Action to the log on
    completion of a step.  Times are exact numbers. *)
Record Action := {
  time_end : Z;
  duration : Z;
  action_agent : string;
  action_name : string
}.

(** Modelled from the spec: one timed step of a work plan (section 4.4). *)
Record task := { task_name : string; task_duration : Z }.

(** Modelled from the spec: the process of one agent, the wait it is
    suspended on with its completion time, and the rest of its plan. *)
Record process := {
  agent_id : string;
  waiting : option (task * Z);
  plan : list task
}.

(** Modelled from the spec: the clock, the processes and the append-only
    log of one run. *)
Record scheduler := {
  now : Z;
  processes : list process;
  actions : list Action
}.

(** Modelled from the spec: a process takes up its next step at time [t]
    and waits for its completion at [t + duration]. *)
Definition start_next (t : Z) (a : string) (pl : list task) : process :=
  match pl with
  | [] => {| agent_id := a; waiting := None; plan := [] |}
  | tk :: rest =>
      {| agent_id := a; waiting := Some (tk, t + task_duration tk);
         plan := rest |}
  end.

(** Modelled from the spec: the pending wait with the minimum completion
    time, the first one among equals. *)
Fixpoint earliest (ps : list process) : option (nat * task * Z) :=
  match ps with
  | [] => None
  | p :: ps =>
      match waiting p, earliest ps with
      | Some (tk, c), Some (j, tk', c') =>
          if c <=? c' then Some (O, tk, c) else Some (Datatypes.S j, tk', c')
      | Some (tk, c), None => Some (O, tk, c)
      | None, Some (j, tk', c') => Some (Datatypes.S j, tk', c')
      | None, None => None
      end
  end.

(** Modelled from the spec: one turn of the scheduler; [None] when no
    process has further work. *)
Definition sched_step (s : scheduler) : option scheduler :=
  match earliest (processes s) with
  | None => None
  | Some (i, tk, c) =>
      match processes s !! i with
      | None => None
      | Some p =>
          Some {| now := c;
                  processes :=
                    <[i := start_next c (agent_id p) (plan p)]> (processes s);
                  actions :=
                    actions s ++
                    [{| time_end := c; duration := task_duration tk;
                        action_agent := agent_id p;
                        action_name := task_name tk |}] |}
      end
  end.

(** Modelled from the spec: the scheduler loop, until no process has
    further work. *)
Fixpoint sched_run (fuel : nat) (s : scheduler) : scheduler :=
  match fuel with
  | O => s
  | Datatypes.S fuel =>
      match sched_step s with
      | None => s
      | Some s' => sched_run fuel s'
      end
  end.

(** Modelled from the spec: a run; every agent starts its plan at time 0
    and the scheduler takes as many turns as there are steps. *)
Definition sched_start (plans : list (string * list task)) : scheduler :=
  {| now := 0;
     processes := map (λ pl, start_next 0 pl.1 pl.2) plans;
     actions := [] |}.

(** The number of steps of all plans. *)
Definition total_steps (plans : list (string * list task)) : nat :=
  sum_list (map (λ pl, length pl.2) plans).

(** Modelled from the spec: a completed run of the plans. *)
Definition simulate (plans : list (string * list task)) : scheduler :=
  sched_run (total_steps plans) (sched_start plans).

(** The actions of one agent, in the order of the log. *)
Definition agent_actions (a : string) (l : list Action) : list Action :=
  filter (λ x, action_agent x = a) l.

(** Each end time is the previous one plus the duration of the action. *)
Fixpoint contiguous (prev : Z) (l : list Action) : Prop :=
  match l with
  | [] => True
  | x :: l => time_end x = prev + duration x ∧ contiguous (time_end x) l
  end.

Definition last_end (start : Z) (l : list Action) : Z :=
  from_option time_end start (last l).

(** The steps still to be completed. *)
Definition remaining (ps : list process) : nat :=
  sum_list (map (λ p, (match waiting p with Some _ => 1 | None => 0 end)
                      + length (plan p))%nat ps).

(** One process per agent; the actions of every agent are contiguous from
    time 0 on, and a pending wait completes one duration after the last
    action of its agent; a process without a pending wait has no plan
    left. *)
Definition sched_inv (s : scheduler) : Prop :=
  NoDup (map agent_id (processes s))
  ∧ Forall (λ p, waiting p = None → plan p = []) (processes s)
  ∧ ∀ a, contiguous 0 (agent_actions a (actions s))
         ∧ ∀ p tk c, p ∈ processes s → agent_id p = a →
             waiting p = Some (tk, c) →
             c = last_end 0 (agent_actions a (actions s)) + task_duration tk.

(** No step has a negative duration. *)
Definition nonneg_inv (s : scheduler) : Prop :=
  Forall (λ x, 0 ≤ duration x) (actions s)
  ∧ Forall (λ p, (∀ tk c, waiting p = Some (tk, c) → 0 ≤ task_duration tk)
                 ∧ Forall (λ tk, 0 ≤ task_duration tk) (plan p))
      (processes s).

(** ** The project manager *)

(** Modelled from the spec: phase-name resolution of section 4.5 and 9
    ([ProjectManager.find_key_match] of [ORBIT/manager.py], whose source
    is not embedded here): a deterministic normalisation strips the
    suffix that starts at the first separator, underscore or space, and
    the result is looked up in the registry of phase classes; no match is
    a phase-not-found error. *)
Definition is_separator (c : ascii) : bool :=
  bool_decide (c = "_"%char) || bool_decide (c = " "%char).

(** Modelled from the spec: the normalisation of a phase name, everything
    before the first separator. *)
Fixpoint strip_suffix (target : string) : string :=
  match target with
  | EmptyString => EmptyString
  | String c rest =>
      if is_separator c then EmptyString else String c (strip_suffix rest)
  end.

(** A name without separator, as the names of the phase classes are. *)
Fixpoint no_separator (name : string) : bool :=
  match name with
  | EmptyString => true
  | String c rest => negb (is_separator c) && no_separator rest
  end.

(** Modelled from the spec: the phase-not-found error of section 4.5. *)
Inductive manager_error := PhaseNotFound (name : string).

(** Modelled from the spec: [find_key_match], the class registered under
    the normalised name, if any. *)
Definition find_key_match {P} (phase_dict : gmap string P) (target : string)
    : option P :=
  phase_dict !! strip_suffix target.

(** Modelled from the spec: resolution of a phase name; no match raises
    the phase-not-found error. *)
Definition get_phase_class {P} (phase_dict : gmap string P) (target : string)
    : manager_error + P :=
  match find_key_match phase_dict target with
  | Some p => inr p
  | None => inl (PhaseNotFound target)
  end.

(** Modelled from the spec: the date-keyed schedule of section 4.5 (the
    overlapping run of [ORBIT/manager.py], whose source is not embedded
    here): each phase is pinned to an absolute start date, simulated on its own
    from its own time 0, and its actions enter the project log offset by
    the hours between the origin of the project timeline and its start
    date. *)
Record date := { year : Z; month : Z; day : Z }.

(** Modelled from the spec: the calendar day of a date, counted in the
    proleptic Gregorian calendar as [date.toordinal] counts it, so that
    the difference of two is the [days] of the difference of the dates. *)
Definition toordinal (d : date) : Z :=
  let y := if month d <=? 2 then year d - 1 else year d in
  let era := y / 400 in
  let yoe := y - era * 400 in
  let mp := if month d <=? 2 then month d + 9 else month d - 3 in
  let doy := (153 * mp + 2) / 5 + day d - 1 in
  let doe := yoe * 365 + yoe / 4 - yoe / 100 + doy in
  era * 146097 + doe - 305.

(** Modelled from the spec: the offset of a phase on the project
    timeline, in hours. *)
Definition start_offset (origin start : date) : Z :=
  (toordinal start - toordinal origin) * 24.

(** Modelled from the spec: an action of a phase as it enters the
    project log. *)
Definition shift_action (offset : Z) (x : Action) : Action :=
  {| time_end := time_end x + offset; duration := duration x;
     action_agent := action_agent x; action_name := action_name x |}.

(** Modelled from the spec: the log of a phase pinned to [start]. *)
Definition run_phase_at (origin start : date)
    (plans : list (string * list task)) : list Action :=
  map (shift_action (start_offset origin start)) (actions (simulate plans)).

(** The start of a phase on the project timeline, as the tests read it
    off the log: the end time of its first action minus its duration. *)
Definition logged_start (log : list Action) : option Z :=
  match log with
  | [] => None
  | x :: _ => Some (time_end x - duration x)
  end.

(** ** Example data *)

(** A vessel whose carousel holds 10 km of cable, and a cable with one
    section of 4 km, and two sections of 7 km laid at 5 km/h. *)
Definition example_pool : ResourcePool := {| capacity := 10; level := 0 |}.

Definition example_sections : list cable_section :=
  [{| cs_length := 4; cs_count := 1; cs_extra := [] |};
   {| cs_length := 7; cs_count := 2; cs_extra := [5] |}].

Definition example_heap : gmap loc (list cable_section) :=
  {[ 1%positive := example_sections ]}.

Definition example_config (bury trench : bool) : config ResourcePool :=
  {| array_cable_install_vessel := example_pool;
     array_cable_bury_vessel := if bury then Some example_pool else None;
     array_cable_trench_vessel := if trench then Some example_pool else None;
     site_distance := 50;
     array_system_cables :=
       [("XLPE_630mm_33kV",
         {| cfg_linear_density := 42; cfg_cable_sections := 1%positive |})] |}.

Definition example_cable : Cable := {| linear_density := 42 |}.

(** Scenario A: a single section of count 1. *)
Definition scenario_A_heap : gmap loc (list cable_section) :=
  {[ 1%positive := [{| cs_length := 4; cs_count := 1; cs_extra := [] |}] ]}.

(** A section longer than what the carousel holds. *)
Definition oversize_heap : gmap loc (list cable_section) :=
  {[ 1%positive := [{| cs_length := 12; cs_count := 1; cs_extra := [] |}] ]}.

(** A world with the installation vessel at site, its carousel down to
    3 km. *)
Definition example_world_at_site (bury : bool)
    (h : gmap loc (list cable_section)) : world ResourcePool :=
  {| vessel := {| at_port := false; at_site := true;
                  cable_storage := {| capacity := 10; level := 3 |} |};
     burial_vessel :=
       if bury then Some (initialize_vessel example_pool) else None;
     trench_vessel := None;
     heap := h;
     to_bury := [] |}.

(** Work plans of two agents. *)
Definition example_plans : list (string * list task) :=
  [("WTIV", [{| task_name := "Transit"; task_duration := 5 |};
             {| task_name := "Attach Tower"; task_duration := 3 |};
             {| task_name := "Attach Nacelle"; task_duration := 0 |}]);
   ("Feeder", [{| task_name := "Load"; task_duration := 2 |};
               {| task_name := "Transit"; task_duration := 5 |}])].

(** The phase classes of the tests of [find_key_match]. *)
Definition example_phase_dict : gmap string nat :=
  {[ "MonopileInstallation" := 1%nat;
     "TurbineInstallation" := 2%nat;
     "SpecificTurbineInstallation" := 3%nat ]}.

(** ** Further observations of a run *)

(** The sections laid, by [lay_cable] or by [lay_bury_cable], in order. *)
Definition lay_steps (t : list event) : list Z :=
  omap (λ e, match e with
             | Yield _ (lay_cable x) _ _ => Some x
             | Yield _ (lay_bury_cable x) _ _ => Some x
             | _ => None end) t.

(** The calls of [dig_array_cables_trench] in a trace, with their second
    argument and keyword arguments. *)
Definition dig_calls (t : list event) : list (Z * kwargs) :=
  omap (λ e, match e with
             | Spawn (dig_array_cables_trench_call x kw) => Some (x, kw)
             | _ => None end) t.

(** The units of work of a list of sections: [(length, n, ...)] stands
    for [n] sections of that length. *)
Definition section_units (ls : list cable_section) : list Z :=
  flat_map (λ s, replicate (Z.to_nat (cs_count s)) (cs_length s)) ls.

(** The units of work of a configuration, cable after cable. *)
Definition config_units {S} (cfg : config S)
    (h : gmap loc (list cable_section)) : list Z :=
  flat_map (λ nd : string * cable_config,
              section_units (default [] (h !! cfg_cable_sections nd.2)))
    (array_system_cables cfg).

(** Every [cable_sections] reference of the configuration points to a
    list. *)
Definition config_lists_exist {S} (cfg : config S)
    (h : gmap loc (list cable_section)) : Prop :=
  Forall (λ nd : string * cable_config, cfg_cable_sections nd.2 ∈ dom h)
    (array_system_cables cfg).

(** A storage that hands out the length it was asked for. *)
Definition exact_cut (S : Type) `{CableStorage S} : Prop :=
  ∀ len (st : S) x st', get_cable len st = Some (x, st') → x = len.

(** What the trenching vessel does for a list of sections (lines
    333-335). *)
Definition trench_steps (sections : list Z) : list (agent * step) :=
  flat_map (λ x, [(trench_vessel_agent, position_onsite);
                  (trench_vessel_agent, dig_trench x)]) sections.

(** [m2] runs as [m1] does wherever [m1] does not run out of fuel. *)
Definition fuel_mono {S A} (m1 m2 : proc S A) : Prop :=
  ∀ w, outcome_of (m1 w) ≠ Spinning → m2 w = m1 w.

(** Who acts in [install_array_cables]: the installation vessel, and the
    trenching vessel for its transits. *)
Definition acting_ok (e : event) : Prop :=
  match e with
  | Yield a s _ _ =>
      (a = install_vessel ∧ ∀ x, s ≠ bury_cable x ∧ s ≠ dig_trench x)
      ∨ (a = trench_vessel_agent ∧ is_transit s = true)
  | _ => True
  end.

(** Every event of a block is an action of the right vessel. *)
Definition acting_rel {S} (w : world S) (t : list event) (w' : world S)
    : Prop :=
  Forall acting_ok t.

(** A block leaves the burial vessel alone, and the storage of the
    trenching vessel. *)
Definition bystander_rel {S} (w : world S) (t : list event) (w' : world S)
    : Prop :=
  burial_vessel w' = burial_vessel w
  ∧ cable_storage <$> trench_vessel w' = cable_storage <$> trench_vessel w.

(** A block leaves the trenching vessel alone. *)
Definition trench_kept_rel {S} (w : world S) (t : list event) (w' : world S)
    : Prop :=
  trench_vessel w' = trench_vessel w.

(** The trenching vessel, if there is one, is at port. *)
Definition trench_at_port {S} (w : world S) : Prop :=
  from_option (λ tv, vessel_flags tv = (true, false)) True (trench_vessel w).

(** A configuration with two cables, and the lists it refers to. *)
Definition two_cable_heap : gmap loc (list cable_section) :=
  {[ 1%positive := example_sections;
     2%positive := [{| cs_length := 3; cs_count := 2; cs_extra := [] |}] ]}.

Definition two_cable_config (bury trench : bool) : config ResourcePool :=
  {| array_cable_install_vessel := example_pool;
     array_cable_bury_vessel := if bury then Some example_pool else None;
     array_cable_trench_vessel := if trench then Some example_pool else None;
     site_distance := 50;
     array_system_cables :=
       [("XLPE_630mm_33kV",
         {| cfg_linear_density := 42; cfg_cable_sections := 1%positive |});
        ("XLPE_400mm_33kV",
         {| cfg_linear_density := 35; cfg_cable_sections := 2%positive |})] |}.

(** A block starts no trench digging. *)
Definition undug_rel {S} (w : world S) (t : list event) (w' : world S)
    : Prop :=
  dig_calls t = [].

(** The three parts of [install_array_cables]: the trenching loop (lines
    188-217), the laying loop (lines 221-289) and what the process logs
    and starts at its end (lines 291-298). *)
Definition trenching {S} `{CableStorage S} (fuel : nat) (distance : Z)
    (kw : kwargs) (cable_data : list (Cable * loc)) : proc S unit :=
  (let* w := get in
   match trench_vessel w with
   | None => ret tt
   | Some _ =>
       for_each cable_data (λ '(cable, sections),
         trench_one_cable fuel distance kw sections)
   end)%proc.

Definition laying {S} `{CableStorage S} (fuel : nat) (distance : Z)
    (kw : kwargs) (cable_data : list (Cable * loc)) : proc S unit :=
  for_each cable_data (λ '(cable, sections),
    install_one_cable fuel distance kw cable sections).

Definition completion {S} (kw : kwargs) (w : world S) : list event :=
  match burial_vessel w with
  | None =>
      [DebugLog install_vessel "Array cable lay/burial process completed!"]
  | Some _ =>
      [DebugLog install_vessel "Array cable lay process completed!";
       Spawn (bury_array_cables_call (to_bury w) kw)]
  end.

(** A block does not start the burial and, without a burial vessel,
    lays nothing with [lay_cable] and keeps [to_bury] as it is. *)
Definition unburied_rel {S} (w : world S) (t : list event) (w' : world S)
    : Prop :=
  burial_vessel w' = burial_vessel w
  ∧ bury_calls t = []
  ∧ (burial_vessel w = None → laid t = [] ∧ to_bury w' = to_bury w).

(** The storage never fails after a reload: [Inv] holds of the storage
    whatever is done with it, and under [Inv] a freshly loaded storage
    hands out every length that is [ok]. *)
Definition reload_suffices {S} `{CableStorage S} (Inv : S → Prop)
    (ok : Z → Prop) : Prop :=
  (∀ st, Inv st → Inv (reset st))
  ∧ (∀ c st, Inv st → Inv (load_cable c st))
  ∧ (∀ len st x st', Inv st → get_cable len st = Some (x, st') → Inv st')
  ∧ (∀ c st len, Inv st → ok len → is_Some (get_cable len (load_cable c st))).

(** The storage of the installation vessel is in order, and so is the
    length of every section that is still to be laid. *)
Definition stocked {S} (Inv : S → Prop) (ok : Z → Prop) (w : world S)
    : Prop :=
  Inv (cable_storage (vessel w))
  ∧ ∀ l, Forall (λ s, ok (cs_length s)) (default [] (heap w !! l)).

Definition stocked_rel {S} (Inv : S → Prop) (ok : Z → Prop) (w : world S)
    (t : list event) (w' : world S) : Prop :=
  stocked Inv ok w → stocked Inv ok w'.

(** The storage of the examples holds 10 km. *)
Definition pool_inv (p : ResourcePool) : Prop := capacity p = 10.
Definition pool_ok (len : Z) : Prop := len ≤ 10.

(** How often a vessel sails, and how often a cable is loaded. *)
Definition transits (a : agent) (t : list event) : nat :=
  length (omap (λ e, match e with
                     | Yield a' (transit d) _ _ =>
                         if decide (a' = a) then Some d else None
                     | _ => None end) t).

Definition loads (t : list event) : nat :=
  length (omap (λ e, match e with
                     | Yield _ (load_cable_on_vessel c) _ _ => Some c
                     | _ => None end) t).

(** A block in which the installation vessel sails twice for every load
    of cable: the round trip of a reload. *)
Definition round_trip_rel {S} (w : world S) (t : list event) (w' : world S)
    : Prop :=
  transits install_vessel t = (2 * loads t)%nat.

(** A block in which the trenching vessel does not sail. *)
Definition trench_moored_rel {S} (w : world S) (t : list event)
    (w' : world S) : Prop :=
  transits trench_vessel_agent t = 0%nat.

(** What an event of the phase is called with: a transit with the
    distance [d]; a laying step with [kw], or with [kw] and the speed of
    its section under the key of that step; every other step and both
    started processes with [kw].  [bv] is the burial vessel. *)
Definition called_with {S} (bv : option (Vessel S)) (d : Z) (kw : kwargs)
    (e : event) : Prop :=
  match e with
  | Yield _ s kw' _ =>
      match s with
      | transit d' => d' = d ∧ kw' = kw
      | lay_bury_cable _ =>
          bv = None
          ∧ (kw' = kw ∨ ∃ v, kw' = <["cable_lay_bury_speed" := v]> kw)
      | lay_cable _ =>
          is_Some bv
          ∧ (kw' = kw ∨ ∃ v, kw' = <["cable_lay_speed" := v]> kw)
      | _ => kw' = kw
      end
  | Spawn (bury_array_cables_call _ kw') => kw' = kw
  | Spawn (dig_array_cables_trench_call _ kw') => kw' = kw
  | DebugLog _ _ => True
  end.

Definition called_rel {S} (bv : option (Vessel S)) (d : Z) (kw : kwargs)
    (w : world S) (t : list event) (w' : world S) : Prop :=
  burial_vessel w = bv →
  burial_vessel w' = bv ∧ Forall (called_with bv d kw) t.

(** The events of the trenching loop: steps of the trenching vessel and
    calls of [dig_array_cables_trench]. *)
Definition trench_event (e : event) : Prop :=
  match e with
  | Yield a _ _ _ => a = trench_vessel_agent
  | Spawn (dig_array_cables_trench_call _ _) => True
  | _ => False
  end.

(** The events after the trenching loop: steps of the installation
    vessel, its debug log and the call of [bury_array_cables]. *)
Definition install_event (e : event) : Prop :=
  match e with
  | Yield a _ _ _ => a = install_vessel
  | Spawn (bury_array_cables_call _ _) => True
  | DebugLog a _ => a = install_vessel
  | _ => False
  end.

Definition trench_only_rel {S} (w : world S) (t : list event) (w' : world S)
    : Prop :=
  Forall trench_event t.

Definition install_only_rel {S} (w : world S) (t : list event)
    (w' : world S) : Prop :=
  Forall install_event t.

(** A world with neither location flag set. *)
Definition adrift_world (h : gmap loc (list cable_section))
    : world ResourcePool :=
  {| vessel := {| at_port := false; at_site := false;
                  cable_storage := example_pool |};
     burial_vessel := None;
     trench_vessel := Some {| at_port := false; at_site := false;
                              cable_storage := example_pool |};
     heap := h;
     to_bury := [] |}.

(** * Reasoning about traces *)

(** ** Monad laws used below *)

Section ProcessFacts.
Context {S : Type}.
Implicit Types w : world S.

Lemma bind_run {A B} (m : proc S A) (k : A → proc S B) w :
  bind m k w =
  match outcome_of (m w) with
  | Returned a =>
      (trace_of (m w) ++ trace_of (k a (world_of (m w))),
       world_of (k a (world_of (m w))), outcome_of (k a (world_of (m w))))
  | Raised e => (trace_of (m w), world_of (m w), Raised e)
  | Spinning => (trace_of (m w), world_of (m w), Spinning)
  end.
Proof.
  unfold bind, trace_of, world_of, outcome_of.
  destruct (m w) as [[t1 w1] [a|e|]]; simpl; try reflexivity.
  destruct (k a w1) as [[t2 w2] r]; reflexivity.
Qed.

Lemma catch_run {A} e (m h : proc S A) w :
  catch e m h w =
  match outcome_of (m w) with
  | Raised e' =>
      if decide (e' = e)
      then (trace_of (m w) ++ trace_of (h (world_of (m w))),
            world_of (h (world_of (m w))), outcome_of (h (world_of (m w))))
      else m w
  | _ => m w
  end.
Proof.
  unfold catch, trace_of, world_of, outcome_of.
  destruct (m w) as [[t1 w1] [a|e'|]]; simpl; try reflexivity.
  destruct (decide (e' = e)); [|reflexivity].
  destruct (h w1) as [[t2 w2] r]; reflexivity.
Qed.

Lemma trace_of_mk {A} t w (r : outcome A) : trace_of (t, w, r) = t.
Proof. reflexivity. Qed.

Lemma world_of_mk {A} t w (r : outcome A) : world_of (t, w, r) = w.
Proof. reflexivity. Qed.

Lemma outcome_of_mk {A} t w (r : outcome A) : outcome_of (t, w, r) = r.
Proof. reflexivity. Qed.

Lemma bind_run_returned {A B} (m : proc S A) (k : A → proc S B) w t1 w1 a :
  m w = (t1, w1, Returned a) →
  bind m k w = (t1 ++ trace_of (k a w1), world_of (k a w1),
                outcome_of (k a w1)).
Proof.
  intros Hm. unfold bind. rewrite Hm. by destruct (k a w1) as [[t2 w2] r].
Qed.

Lemma trace_of_bind {A B} (m : proc S A) (k : A → proc S B) w :
  trace_of (bind m k w) =
  match outcome_of (m w) with
  | Returned a => trace_of (m w) ++ trace_of (k a (world_of (m w)))
  | _ => trace_of (m w)
  end.
Proof. rewrite bind_run. by destruct (outcome_of (m w)). Qed.

Lemma outcome_of_bind {A B} (m : proc S A) (k : A → proc S B) w :
  outcome_of (bind m k w) =
  match outcome_of (m w) with
  | Returned a => outcome_of (k a (world_of (m w)))
  | Raised e => Raised e
  | Spinning => Spinning
  end.
Proof. rewrite bind_run. by destruct (outcome_of (m w)). Qed.

Lemma world_of_bind {A B} (m : proc S A) (k : A → proc S B) w :
  world_of (bind m k w) =
  match outcome_of (m w) with
  | Returned a => world_of (k a (world_of (m w)))
  | _ => world_of (m w)
  end.
Proof. rewrite bind_run. by destruct (outcome_of (m w)). Qed.

End ProcessFacts.

(** ** Relations between the state before, the trace and the state after

    A relation that holds of the empty run and composes along sequencing
    holds of a loop as soon as it holds of the straight-line blocks of the
    loop. *)

Section TraceLogic.
Context {S : Type} `{CableStorage S}.
Variable R : world S → list event → world S → Prop.
Hypothesis R_refl : ∀ w, R w [] w.
Hypothesis R_trans : ∀ w1 t1 w2 t2 w3,
  R w1 t1 w2 → R w2 t2 w3 → R w1 (t1 ++ t2) w3.

Lemma sat_ret {A} (a : A) : sat R (ret a).
Proof. intros w. apply R_refl. Qed.

Lemma sat_raise {A} e : sat R (@raise S A e).
Proof. intros w. apply R_refl. Qed.

Lemma sat_spin {A} : sat R (@spin S A).
Proof. intros w. apply R_refl. Qed.

Lemma sat_get : sat R (@get S).
Proof. intros w. apply R_refl. Qed.

Lemma sat_bind {A B} (m : proc S A) (k : A → proc S B) :
  sat R m → (∀ a, sat R (k a)) → sat R (bind m k).
Proof.
  intros Hm Hk w. rewrite bind_run. specialize (Hm w).
  destruct (outcome_of (m w)) as [a| |]; simpl; try exact Hm.
  unfold trace_of, world_of in *; simpl. eapply R_trans; [exact Hm|]. apply Hk.
Qed.

Lemma sat_bind_get {B} (k : world S → proc S B) :
  (∀ w, R w (trace_of (k w w)) (world_of (k w w))) → sat R (bind get k).
Proof.
  intros Hk w. rewrite bind_run. simpl.
  unfold trace_of, world_of in *; simpl. apply Hk.
Qed.

Lemma sat_catch {A} e (m h : proc S A) : sat R m → sat R h → sat R (catch e m h).
Proof.
  intros Hm Hh w. rewrite catch_run. specialize (Hm w).
  destruct (outcome_of (m w)) as [a|e'|]; try exact Hm.
  destruct (decide (e' = e)); [|exact Hm].
  unfold trace_of, world_of in *; simpl. eapply R_trans; [exact Hm|]. apply Hh.
Qed.

Lemma sat_for_repeat n (body : proc S unit) : sat R body → sat R (for_repeat n body).
Proof.
  intros Hb. induction n as [|n IH]; simpl.
  - apply sat_ret.
  - apply sat_bind; [exact Hb|]. intros _. exact IH.
Qed.

Lemma sat_for_range n (body : proc S unit) : sat R body → sat R (for_range n body).
Proof. apply sat_for_repeat. Qed.

Lemma sat_for_each {A} (P : A → Prop) (l : list A) (body : A → proc S unit) :
  (∀ x, P x → sat R (body x)) → Forall P l → sat R (for_each l body).
Proof.
  intros Hb Hl. induction Hl as [|x l Hx Hl IH]; simpl.
  - apply sat_ret.
  - apply sat_bind; [by apply Hb|]. intros _. exact IH.
Qed.

(** The locations whose lists the loops may pop. *)
Variable L : loc → Prop.
Hypothesis R_pop0 : ∀ l, L l → sat R (pop0 l).

(** The trenching loop. *)
Hypothesis R_get_trench_vessel : sat R get_trench_vessel.
Hypothesis R_trench_transit_to_site : ∀ d kw, sat R (trench_transit_to_site d kw).
Hypothesis R_trench_transit_to_port : ∀ d kw, sat R (trench_transit_to_port d kw).
Hypothesis R_spawn_dig : ∀ x kw,
  sat R (emit (Spawn (dig_array_cables_trench_call x kw))).

Lemma sat_trench_sections fuel d kw l :
  L l → sat R (trench_sections fuel d kw l).
Proof.
  intros Hl. induction fuel as [|fuel IH]; simpl; [apply sat_spin|].
  apply sat_bind; [apply R_get_trench_vessel|]. intros tv.
  destruct (at_port tv).
  { apply sat_bind; [apply R_trench_transit_to_site|]. intros _. exact IH. }
  destruct (at_site tv); [|exact IH].
  apply sat_bind.
  - apply sat_catch.
    + apply sat_bind; [by apply R_pop0|]. intros s.
      apply sat_bind; [|intros _; apply sat_ret].
      apply sat_for_range, R_spawn_dig.
    + apply sat_bind; [apply R_trench_transit_to_port|]. intros _. apply sat_ret.
  - intros [|]; [apply sat_ret|exact IH].
Qed.

(** The laying loop. *)
Hypothesis R_load_and_transit_to_site : ∀ d kw c,
  sat R (load_and_transit_to_site d kw c).
Hypothesis R_transit_to_port : ∀ d kw, sat R (transit_to_port d kw).
Hypothesis R_lay_section : ∀ d kw c len specs,
  sat R (lay_section d kw c len specs).

Lemma sat_lay_sections fuel d kw c l :
  L l → sat R (lay_sections fuel d kw c l).
Proof.
  intros Hl. induction fuel as [|fuel IH]; simpl; [apply sat_spin|].
  apply sat_bind; [apply sat_get|]. intros w.
  destruct (at_port (vessel w)).
  { apply sat_bind; [apply R_load_and_transit_to_site|]. intros _. exact IH. }
  destruct (at_site (vessel w)); [|exact IH].
  apply sat_bind.
  - apply sat_catch.
    + apply sat_bind; [by apply R_pop0|]. intros s. apply sat_ret.
    + apply sat_bind; [apply R_transit_to_port|]. intros _. apply sat_ret.
  - intros [[[len n] specs]|]; [|apply sat_ret].
    apply sat_bind; [|intros _; exact IH].
    apply sat_for_range, R_lay_section.
Qed.

(** The two [for cable, sections in cable_data] loops. *)
Hypothesis R_reset : sat R (set_vessel (set_cable_storage reset)).

Lemma sat_trench_one_cable fuel d kw l :
  L l → sat R (trench_one_cable fuel d kw l).
Proof.
  intros Hl. apply sat_bind; [apply R_reset|]. intros _.
  apply sat_bind; [by apply sat_trench_sections|]. intros _.
  apply R_trench_transit_to_port.
Qed.

Lemma sat_install_one_cable fuel d kw c l :
  L l → sat R (install_one_cable fuel d kw c l).
Proof.
  intros Hl. apply sat_bind; [apply R_reset|]. intros _.
  apply sat_bind; [by apply sat_lay_sections|]. intros _.
  apply R_transit_to_port.
Qed.

Lemma sat_trench_all fuel d kw (cable_data : list (Cable * loc)) :
  Forall (λ cs, L cs.2) cable_data →
  sat R (for_each cable_data (λ '(cable, sections),
           trench_one_cable fuel d kw sections)).
Proof.
  apply sat_for_each. intros [c l] Hl. by apply sat_trench_one_cable.
Qed.

Lemma sat_lay_all fuel d kw (cable_data : list (Cable * loc)) :
  Forall (λ cs, L cs.2) cable_data →
  sat R (for_each cable_data (λ '(cable, sections),
           install_one_cable fuel d kw cable sections)).
Proof.
  apply sat_for_each. intros [c l] Hl. by apply sat_install_one_cable.
Qed.

(** The whole process. *)
Hypothesis R_new_to_bury : sat R (set_to_bury (λ _, [])).
Hypothesis R_debug_log : ∀ a msg, sat R (emit (DebugLog a msg)).
Hypothesis R_spawn_bury : ∀ l kw,
  sat R (emit (Spawn (bury_array_cables_call l kw))).

Lemma sat_install_array_cables fuel d kw (cable_data : list (Cable * loc)) :
  Forall (λ cs, L cs.2) cable_data →
  sat R (install_array_cables fuel d cable_data kw).
Proof.
  intros Hl. unfold install_array_cables.
  apply sat_bind.
  { apply sat_bind; [apply sat_get|]. intros w.
    destruct (trench_vessel w); [by apply sat_trench_all|apply sat_ret]. }
  intros _. apply sat_bind; [apply R_new_to_bury|]. intros _.
  apply sat_bind; [by apply sat_lay_all|]. intros _.
  apply sat_bind; [apply sat_get|]. intros w.
  destruct (burial_vessel w); [|apply R_debug_log].
  apply sat_bind; [apply R_debug_log|]. intros _. apply R_spawn_bury.
Qed.

End TraceLogic.

(** * The retry after a cable shortfall, and the laying procedure *)

(** Run the monadic plumbing of a goal. *)
Ltac proc_simpl :=
  repeat (progress (unfold bind, catch, get, modify, emit, ret, raise; simpl)).

(** Run the straight-line blocks as well. *)
Ltac proc_run :=
  repeat (progress
    (unfold load_and_transit_to_site, transit_to_port, trench_transit_to_site,
       trench_transit_to_port, yield_load, yield, set_vessel,
       set_trench_vessel, set_to_bury, set_heap, pop0, vessel_get_cable,
       get_trench_vessel, lay_section, for_range, trench_one_cable,
       install_one_cable,
       bind, catch, get, modify, emit, ret, raise, spin;
     simpl)).

Section LaySection.
Context {S : Type} `{CableStorage S}.
Implicit Types w : world S.

Lemma steps_of_app t1 t2 : steps_of (t1 ++ t2) = steps_of t1 ++ steps_of t2.
Proof. unfold steps_of. apply omap_app. Qed.

(** The run of [lay_section] when the storage holds the section. *)
Lemma lay_section_on_board d kw c len specs w section st :
  get_cable len (cable_storage (vessel w)) = Some (section, st) →
  let r := lay_section d kw c len specs w in
  steps_of (trace_of r) = laying_steps (lay_step_of (burial_vessel w)) section
  ∧ outcome_of r = Returned tt
  ∧ vessel (world_of r) = set_cable_storage (λ _, st) (vessel w).
Proof.
  intros Hg. destruct w as [v bv tv hp tb]; simpl in *.
  unfold lay_section, catch, vessel_get_cable, bind, get at 1; simpl.
  rewrite Hg; simpl.
  destruct bv; simpl; done.
Qed.

(** The run of [lay_section] when the storage is short of the section:
    one round trip to port, then the second [get_cable]. *)
Lemma lay_section_short d kw c len specs w :
  get_cable len (cable_storage (vessel w)) = None →
  let st1 := load_cable c (cable_storage (vessel w)) in
  let r := lay_section d kw c len specs w in
  match get_cable len st1 with
  | None =>
      steps_of (trace_of r) = reload_steps d c
      ∧ outcome_of r = Raised InsufficientCable
      ∧ world_of r = with_vessel (set_cable_storage (λ _, st1)) w
  | Some (section, st2) =>
      steps_of (trace_of r) =
        reload_steps d c ++ laying_steps (lay_step_of (burial_vessel w)) section
      ∧ outcome_of r = Returned tt
      ∧ vessel (world_of r) = set_cable_storage (λ _, st2) (vessel w)
  end.
Proof.
  intros Hg. destruct w as [[p s st] bv tv hp tb]; simpl in *.
  unfold lay_section, catch, vessel_get_cable, bind, get at 1; simpl.
  rewrite Hg; simpl.
  destruct (get_cable len (load_cable c st)) as [[section st2]|]; simpl.
  - destruct bv; simpl; done.
  - done.
Qed.

(** Unfolding the [while True] loop of the installation vessel. *)
Lemma lay_sections_at_port fuel d kw c l w :
  at_port (vessel w) = true →
  lay_sections (Datatypes.S fuel) d kw c l w =
  (load_and_transit_to_site d kw c >> lay_sections fuel d kw c l)%proc w.
Proof.
  intros Hp. simpl. unfold bind at 1, get at 1. simpl. rewrite Hp.
  by destruct (bind _ _ w) as [[t1 w1] r].
Qed.

Lemma lay_sections_next_section fuel d kw c l w s rest :
  at_port (vessel w) = false → at_site (vessel w) = true →
  heap w !! l = Some (s :: rest) →
  lay_sections (Datatypes.S fuel) d kw c l w =
  (for_range (cs_count s)
     (lay_section d kw c (cs_length s)
        (section_specs (burial_vessel w) kw (cs_extra s))) >>
   lay_sections fuel d kw c l)%proc (with_heap (<[l := rest]> (heap w)) w).
Proof.
  intros Hp Hs Hl. simpl. unfold pop0. proc_simpl. rewrite Hp, Hs, Hl. simpl.
  destruct (for_range _ _ _) as [[t1 w1] [[]| |]]; try done.
  by destruct (lay_sections _ _ _ _ _ _) as [[t2 w2] r].
Qed.

Lemma lay_sections_no_section fuel d kw c l w :
  at_port (vessel w) = false → at_site (vessel w) = true →
  default [] (heap w !! l) = [] →
  lay_sections (Datatypes.S fuel) d kw c l w = transit_to_port d kw w.
Proof.
  intros Hp Hs Hl. simpl. unfold pop0. proc_simpl. rewrite Hp, Hs, Hl. simpl.
  reflexivity.
Qed.

(** The shortfall at the first section of the first cable ends the whole
    process: nothing between [lay_section] and the top of
    [install_array_cables] catches [InsufficientCable]. *)
Lemma install_array_cables_short fuel d kw c l rest_data w s more :
  trench_vessel w = None →
  at_port (vessel w) = true →
  heap w !! l = Some (s :: more) →
  0 < cs_count s →
  let st1 := load_cable c (reset (cable_storage (vessel w))) in
  get_cable (cs_length s) st1 = None →
  get_cable (cs_length s) (load_cable c st1) = None →
  let r := install_array_cables (Datatypes.S (Datatypes.S fuel)) d
             ((c, l) :: rest_data) kw w in
  steps_of (trace_of r) =
    [(install_vessel, load_cable_on_vessel c); (install_vessel, transit d)]
    ++ reload_steps d c
  ∧ outcome_of r = Raised InsufficientCable.
Proof.
  intros Ht Hp Hl Hn st1 Hg1 Hg2. subst st1.
  destruct w as [[p q st] bv tv hp tb]; simpl in *; subst.
  destruct (Z.to_nat (cs_count s)) as [|n] eqn:En; [lia|].
  unfold install_array_cables. proc_run. rewrite Hl. proc_run.
  rewrite En. proc_run. rewrite Hg1. proc_run. rewrite Hg2. proc_run.
  done.
Qed.


(** The laying procedure of one section, whether or not a reload was
    needed first. *)
Lemma lay_section_returned d kw c len specs w :
  let r := for_range 1 (lay_section d kw c len specs) w in
  outcome_of r = Returned tt →
  ∃ section,
    (match get_cable len (cable_storage (vessel w)) with
     | Some (x, _) =>
         x = section ∧
         steps_of (trace_of r) =
           laying_steps (lay_step_of (burial_vessel w)) section
     | None =>
         steps_of (trace_of r) =
           reload_steps d c
           ++ laying_steps (lay_step_of (burial_vessel w)) section
     end).
Proof.
  intros r. subst r. unfold for_range. simpl. rewrite bind_run.
  destruct (get_cable len (cable_storage (vessel w))) as [[x st]|] eqn:Hg.
  - destruct (lay_section_on_board d kw c len specs w x st Hg) as (Hs & Ho & _).
    rewrite Ho. simpl. unfold trace_of at 1. simpl. rewrite app_nil_r.
    intros _. by exists x.
  - pose proof (lay_section_short d kw c len specs w Hg) as Hs. simpl in Hs.
    destruct (get_cable len (load_cable c _)) as [[x st2]|].
    + destruct Hs as (Hs & Ho & _). rewrite Ho. simpl.
      unfold trace_of at 1. simpl. rewrite app_nil_r. intros _. by exists x.
    + destruct Hs as (_ & Ho & _). rewrite Ho. simpl. unfold outcome_of. done.
Qed.

(** Scenario A: one cable with one section of count 1, no burial and no
    trenching vessel. *)
Lemma scenario_A fuel (cfg : config S) kw h name data len extra section st2 :
  array_cable_bury_vessel cfg = None →
  array_cable_trench_vessel cfg = None →
  array_system_cables cfg = [(name, data)] →
  h !! cfg_cable_sections data =
    Some [{| cs_length := len; cs_count := 1; cs_extra := extra |}] →
  let c := {| linear_density := cfg_linear_density data |} in
  get_cable len (load_cable c (reset (array_cable_install_vessel cfg)))
    = Some (section, st2) →
  let r := setup_simulation (3 + fuel) cfg kw h in
  steps_of (trace_of r) =
    [(install_vessel, load_cable_on_vessel c);
     (install_vessel, transit (site_distance cfg))]
    ++ laying_steps lay_bury_cable section
    ++ [(install_vessel, transit (site_distance cfg));
        (install_vessel, transit (site_distance cfg))]
  ∧ outcome_of r = Returned tt
  ∧ vessel_flags (vessel (world_of r)) = (true, false).
Proof.
  intros Hb Ht Hc Hh c Hg. subst c.
  destruct cfg as [st0 bv tv d cables]; simpl in *; subst.
  unfold setup_simulation, install_array_cables, deepcopy. simpl.
  proc_run. rewrite Hh. proc_run. rewrite lookup_insert_eq. proc_run.
  rewrite Hg. proc_run. rewrite lookup_insert_eq. proc_run.
  done.
Qed.

End LaySection.

(** * The location flags of the vessels *)

Section Location.
Context {S : Type} `{CableStorage S}.
Implicit Types w : world S.

Lemma location_ok_app prev t1 t2 :
  location_ok prev (t1 ++ t2) ↔
  location_ok prev t1 ∧ location_ok (last_suspension prev t1) t2.
Proof.
  revert prev. induction t1 as [|e t1 IH]; intros prev; simpl; [tauto|].
  destruct e; rewrite ?IH; tauto.
Qed.

Lemma last_suspension_app prev t1 t2 :
  last_suspension prev (t1 ++ t2) =
  last_suspension (last_suspension prev t1) t2.
Proof.
  revert prev. induction t1 as [|e t1 IH]; intros prev; simpl; [done|].
  destruct e; by rewrite IH.
Qed.

Lemma location_rel_refl w : location_rel w [] w.
Proof. intros prev Hp. simpl. tauto. Qed.

Lemma location_rel_trans w1 t1 w2 t2 w3 :
  location_rel w1 t1 w2 → location_rel w2 t2 w3 →
  location_rel w1 (t1 ++ t2) w3.
Proof.
  intros H1 H2 prev Hp. destruct (H1 prev Hp) as [Ha Hb].
  destruct (H2 _ Hb) as [Hc Hd].
  rewrite location_ok_app, last_suspension_app. tauto.
Qed.

(** A block that neither suspends nor touches a flag. *)
Lemma location_rel_silent w w' t :
  suspensions t = [] → snap w' = snap w → location_rel w t w'.
Proof.
  intros Ht Hs prev [Hok Hprev].
  assert (∀ p, location_ok p t ∧ last_suspension p t = p) as Hq.
  { clear -Ht. induction t as [|e t IH]; intros p; simpl; [done|].
    destruct e; simpl in Ht; try discriminate; apply IH, Ht. }
  destruct (Hq prev) as [Ha Hb]. split; [done|].
  rewrite Hb. unfold location_pre. by rewrite Hs.
Qed.

Ltac location_block :=
  intros [[p q st] [[bp bq bst]|] [[tp tq tst]|] hp tb] [pt psn] [Hok Hprev];
  unfold location_pre, snapshot_ok, flags_ok, snap, vessel_flags in *;
  simpl in *;
  destruct p, q; simpl in *; try discriminate;
  try (destruct bp, bq; simpl in *; try discriminate);
  try (destruct tp, tq; simpl in *; try discriminate);
  proc_run; unfold trace_of, world_of; simpl;
  unfold snapshot_ok, flags_ok, snap, vessel_flags; simpl;
  intuition (subst; auto).

Lemma location_load_and_transit_to_site d kw c :
  sat (S:=S) location_rel (load_and_transit_to_site d kw c).
Proof. location_block. Qed.

Lemma location_transit_to_port d kw : sat (S:=S) location_rel (transit_to_port d kw).
Proof. location_block. Qed.

Lemma location_trench_transit_to_site d kw :
  sat (S:=S) location_rel (trench_transit_to_site d kw).
Proof. location_block. Qed.

Lemma location_trench_transit_to_port d kw :
  sat (S:=S) location_rel (trench_transit_to_port d kw).
Proof. location_block. Qed.

Lemma location_lay_section d kw c len specs :
  sat location_rel (lay_section d kw c len specs).
Proof.
  intros [[p q st] bv tv hp tb] [pt psn] [Hok Hprev].
  unfold location_pre in *. simpl in *.
  proc_run.
  destruct (get_cable len st) as [[x st1]|]; proc_run;
    [|destruct (get_cable len (load_cable c st)) as [[x st2]|]; proc_run];
    destruct bv; proc_run; unfold trace_of, world_of; simpl;
    unfold snap in *; simpl in *; intuition (subst; auto).
Qed.

Lemma location_pop0 l : sat (S:=S) location_rel (pop0 l).
Proof.
  intros w. apply location_rel_silent; unfold pop0; proc_run;
    by destruct (default [] (heap w !! l)).
Qed.

Lemma location_get_trench_vessel : sat (S:=S) location_rel get_trench_vessel.
Proof.
  intros w. apply location_rel_silent; unfold get_trench_vessel;
    by destruct (trench_vessel w).
Qed.

Lemma location_modify_silent (f : world S → world S) :
  (∀ w, snap (f w) = snap w) → sat location_rel (modify f).
Proof. intros Hf w. by apply location_rel_silent; [|apply Hf]. Qed.

Lemma location_emit_silent e :
  suspensions [e] = [] → sat (S:=S) location_rel (emit e).
Proof. intros He w. by apply location_rel_silent. Qed.

Lemma location_rel_ok w t w' :
  location_rel w t w' → snapshot_ok (snap w) = true →
  snapshot_ok (snap w') = true.
Proof.
  intros HR Hok. destruct (HR (true, snap w)) as [_ [Hok' _]]; [|done].
  split; [done|by left].
Qed.

Lemma location_trench_one_cable fuel d kw l :
  sat location_rel (trench_one_cable fuel d kw l).
Proof.
  apply sat_trench_one_cable with (L := λ _, True);
    first
      [ exact location_rel_refl | exact location_rel_trans
      | intros; apply location_pop0 | exact location_get_trench_vessel
      | exact location_trench_transit_to_site
      | exact location_trench_transit_to_port
      | intros; by apply location_emit_silent
      | by apply location_modify_silent
      | done ].
Qed.

Lemma location_install_one_cable fuel d kw c l :
  sat location_rel (install_one_cable fuel d kw c l).
Proof.
  apply sat_install_one_cable with (L := λ _, True);
    first
      [ exact location_rel_refl | exact location_rel_trans
      | intros; apply location_pop0
      | exact location_load_and_transit_to_site
      | exact location_transit_to_port | exact location_lay_section
      | by apply location_modify_silent
      | done ].
Qed.

Lemma location_install_array_cables fuel d kw cable_data :
  sat location_rel (install_array_cables fuel d cable_data kw).
Proof.
  apply sat_install_array_cables with (L := λ _, True);
    first
      [ exact location_rel_refl | exact location_rel_trans
      | intros; apply location_pop0 | exact location_get_trench_vessel
      | exact location_trench_transit_to_site
      | exact location_trench_transit_to_port
      | exact location_load_and_transit_to_site
      | exact location_transit_to_port | exact location_lay_section
      | intros; by apply location_emit_silent
      | by apply location_modify_silent
      | by apply Forall_forall ].
Qed.

Lemma location_build_cable_data cables :
  sat (S:=S) location_rel (build_cable_data cables).
Proof.
  induction cables as [|[name data] cables IH]; simpl.
  - apply sat_ret, location_rel_refl.
  - apply sat_bind;
      [exact location_rel_trans|intros w; by apply location_rel_silent|].
    intros l. apply sat_bind; [exact location_rel_trans|exact IH|].
    intros rest. apply sat_ret, location_rel_refl.
Qed.

(** What the monitor guarantees about the list of suspension points. *)
Lemma location_ok_suspensions prev t :
  location_ok prev t →
  let l := prev :: map (λ x, (is_transit x.1, x.2)) (suspensions t) in
  (∀ s sn, (s, sn) ∈ suspensions t →
     is_transit s = false → snapshot_ok sn = true)
  ∧ (∀ i b1 sn1 b2 sn2,
       l !! i = Some (b1, sn1) → l !! Datatypes.S i = Some (b2, sn2) →
       sn1 ≠ sn2 → b1 = true ∨ b2 = true).
Proof.
  revert prev. induction t as [|e t IH]; intros prev Hok; simpl.
  - split; [intros s sn Hin; by apply elem_of_nil in Hin|].
    intros i b1 sn1 b2 sn2 _ Hi. by destruct i.
  - destruct e as [a s kw sn| |]; simpl in *; try by apply IH.
    destruct Hok as (H1 & H2 & H3). destruct (IH _ H3) as [IH1 IH2]. split.
    + intros s' sn' [Heq|Hin]%elem_of_cons; [by inversion Heq; subst|eauto].
    + intros [|i] b1 sn1 b2 sn2 Hi Hj Hne; simpl in *.
      * inversion Hi; inversion Hj; subst. simpl in *.
        destruct H2 as [-> | [-> | ->]]; auto.
      * eapply IH2; eauto.
Qed.

(** During [lay_section], reload round trip included, no flag changes. *)
Lemma lay_section_flags_unchanged d kw c len specs w s sn :
  (s, sn) ∈ suspensions (trace_of (lay_section d kw c len specs w)) →
  sn = snap w.
Proof.
  destruct w as [[p q st] bv tv hp tb]. proc_run.
  destruct (get_cable len st) as [[x st1]|]; proc_run;
    [|destruct (get_cable len (load_cable c st)) as [[x st2]|]; proc_run];
    destruct bv; proc_run; unfold trace_of; simpl;
    rewrite ?elem_of_cons, elem_of_nil; intros Hin;
    repeat (destruct Hin as [Hin|Hin]; [by inversion Hin|]); done.
Qed.

(** The burial process does not touch a flag either. *)
Lemma bury_array_cables_flags_unchanged sections kw w s sn :
  (s, sn) ∈ suspensions (trace_of (bury_array_cables sections kw w)) →
  sn = snap w.
Proof.
  unfold bury_array_cables.
  set (body := λ length : Z,
    (yield burial_vessel_agent position_onsite {["site_position_time" := 2]} >>
     yield burial_vessel_agent (bury_cable length) kw)%proc).
  assert (∀ w, world_of (for_each sections body w) = w
             ∧ outcome_of (for_each sections body w) = Returned tt
             ∧ ∀ s sn, (s, sn) ∈ suspensions
                         (trace_of (for_each sections body w)) →
                       sn = snap w) as Hloop.
  { clear w. induction sections as [|x sections IH]; intros w; simpl.
    { split; [done|]. split; [done|]. intros s' sn' Hin.
      by apply elem_of_nil in Hin. }
    rewrite (bind_run_returned (body x) _ w
               [Yield burial_vessel_agent position_onsite
                  {["site_position_time" := 2]} (snap w);
                Yield burial_vessel_agent (bury_cable x) kw (snap w)]
               w tt eq_refl).
    rewrite trace_of_mk, world_of_mk, outcome_of_mk.
    destruct (IH w) as (IH1 & IH2 & IH3). split; [done|]. split; [done|].
    intros s' sn'. simpl. rewrite !elem_of_cons.
    intros [Heq|[Heq|Hin]]; [by inversion Heq|by inversion Heq|eauto]. }
  destruct (Hloop w) as (H1 & H2 & H3).
  rewrite trace_of_bind, H2, H1. unfold suspensions. rewrite omap_app.
  simpl. rewrite app_nil_r. apply H3.
Qed.

(** C3: at every suspension point of the phase that is not a transit,
    each configured vessel (installation, burial, trenching) has exactly
    one of [at_port] and [at_site] set; between two consecutive suspension
    points (the start of the run included) the flags differ only if one of
    the two is a transit; and during the reload round trip of
    [lay_section], as during the burial process, they do not change at
    all. *)
Theorem C3_exactly_one_location_flag fuel (cfg : config S) kw h :
  let t := suspensions (trace_of (setup_simulation fuel cfg kw h)) in
  let l := (false, initial_snapshot cfg)
             :: map (λ x, (is_transit x.1, x.2)) t in
  (∀ s sn, (s, sn) ∈ t → is_transit s = false →
     flags_ok (snap_install sn) = true
     ∧ (∀ f, snap_burial sn = Some f → flags_ok f = true)
     ∧ (∀ f, snap_trench sn = Some f → flags_ok f = true))
  ∧ (∀ i b1 sn1 b2 sn2,
       l !! i = Some (b1, sn1) → l !! Datatypes.S i = Some (b2, sn2) →
       sn1 ≠ sn2 → b1 = true ∨ b2 = true)
  ∧ (∀ d kw' c len specs (w : world S) s sn,
       (s, sn) ∈ suspensions (trace_of (lay_section d kw' c len specs w)) →
       sn = snap w)
  ∧ (∀ sections kw' (w : world S) s sn,
       (s, sn) ∈ suspensions (trace_of (bury_array_cables sections kw' w)) →
       sn = snap w).
Proof.
  intros t l.
  set (w0 := {| vessel := initialize_vessel (array_cable_install_vessel cfg);
                burial_vessel :=
                  initialize_vessel <$> array_cable_bury_vessel cfg;
                trench_vessel :=
                  initialize_vessel <$> array_cable_trench_vessel cfg;
                heap := h; to_bury := [] |}).
  assert (snap w0 = initial_snapshot cfg) as Hsnap.
  { unfold snap, initial_snapshot, w0; simpl.
    by destruct (array_cable_bury_vessel cfg),
                (array_cable_trench_vessel cfg). }
  assert (location_pre w0 (false, initial_snapshot cfg)) as Hpre.
  { split; [|by left]. rewrite Hsnap. unfold initial_snapshot, snapshot_ok.
    by destruct (array_cable_bury_vessel cfg),
                (array_cable_trench_vessel cfg). }
  assert (sat location_rel
            (let* cable_data := build_cable_data (array_system_cables cfg) in
             install_array_cables fuel (site_distance cfg) cable_data kw)%proc)
    as Hsat.
  { apply sat_bind; [exact location_rel_trans|apply location_build_cable_data|].
    intros cd. apply location_install_array_cables. }
  destruct (Hsat w0 _ Hpre) as [Hok _].
  apply location_ok_suspensions in Hok. destruct Hok as [H1 H2].
  split; [|split; [|split]].
  - intros s sn Hin Htr. specialize (H1 s sn Hin Htr).
    unfold snapshot_ok in H1.
    apply andb_prop in H1 as [H1 H1c]. apply andb_prop in H1 as [H1a H1b].
    split; [done|]. split.
    + intros f Hf. by rewrite Hf in H1b.
    + intros f Hf. by rewrite Hf in H1c.
  - exact H2.
  - intros. by eapply lay_section_flags_unchanged.
  - intros. by eapply bury_array_cables_flags_unchanged.
Qed.

End Location.

(** * Termination: enough fuel for the [while True] loops *)

Section Termination.
Context {S : Type} `{CableStorage S}.
Implicit Types w : world S.

Lemma frame_rel_refl w : frame_rel w [] w.
Proof. done. Qed.

Lemma frame_rel_trans w1 t1 w2 t2 w3 :
  frame_rel w1 t1 w2 → frame_rel w2 t2 w3 → frame_rel w1 (t1 ++ t2) w3.
Proof. intros [? ?] [? ?]. split; congruence. Qed.

Lemma frame_lay_section d kw c len specs :
  sat frame_rel (lay_section d kw c len specs).
Proof.
  intros [[p q st] bv tv hp tb]. proc_run.
  destruct (get_cable len st) as [[x st1]|]; proc_run;
    [|destruct (get_cable len (load_cable c st)) as [[x st2]|]; proc_run];
    destruct bv; done.
Qed.

Lemma lay_section_no_spin d kw c len specs w :
  outcome_of (lay_section d kw c len specs w) ≠ Spinning.
Proof.
  destruct w as [[p q st] bv tv hp tb]. proc_run.
  destruct (get_cable len st) as [[x st1]|]; proc_run;
    [|destruct (get_cable len (load_cable c st)) as [[x st2]|]; proc_run];
    destruct bv; done.
Qed.

Lemma for_repeat_no_spin n (body : proc S unit) w :
  (∀ w, outcome_of (body w) ≠ Spinning) →
  outcome_of (for_repeat n body w) ≠ Spinning.
Proof.
  intros Hb. revert w. induction n as [|n IH]; intros w; simpl.
  - done.
  - rewrite bind_run. specialize (Hb w).
    destruct (outcome_of (body w)); try done. apply IH.
Qed.

Lemma shrink_rel_refl w : shrink_rel w [] w.
Proof. intros l. done. Qed.

Lemma shrink_rel_trans w1 t1 w2 t2 w3 :
  shrink_rel w1 t1 w2 → shrink_rel w2 t2 w3 → shrink_rel w1 (t1 ++ t2) w3.
Proof. intros H1 H2 l. specialize (H1 l). specialize (H2 l). lia. Qed.

Lemma shrink_rel_same_heap w t w' : heap w' = heap w → shrink_rel w t w'.
Proof. intros Hh l. by rewrite Hh. Qed.

Lemma shrink_pop0 l : sat (S:=S) shrink_rel (pop0 l).
Proof.
  intros w l'. unfold pop0. proc_run.
  destruct (default [] (heap w !! l)) as [|s rest] eqn:Hl; proc_run; [done|].
  unfold world_of; simpl.
  destruct (decide (l = l')) as [->|Hne].
  - rewrite lookup_insert_eq, Hl. simpl. lia.
  - by rewrite lookup_insert_ne.
Qed.

Lemma shrink_of_frame {A} (m : proc S A) : sat frame_rel m → sat shrink_rel m.
Proof. intros Hm w. apply shrink_rel_same_heap, Hm. Qed.

Ltac same_heap_block :=
  intros w; apply shrink_rel_same_heap;
  destruct w as [[p q st] bv [tv|] hp tb]; proc_run; done.

Lemma shrink_install_array_cables fuel d kw cable_data :
  sat shrink_rel (install_array_cables fuel d cable_data kw).
Proof.
  apply sat_install_array_cables with (L := λ _, True);
    first
      [ exact shrink_rel_refl | exact shrink_rel_trans
      | intros; apply shrink_pop0
      | intros; apply shrink_of_frame, frame_lay_section
      | by apply Forall_forall
      | intros; same_heap_block ].
Qed.

Lemma shrink_lay_sections fuel d kw c l :
  sat shrink_rel (lay_sections fuel d kw c l).
Proof.
  apply sat_lay_sections with (L := λ _, True);
    first
      [ exact shrink_rel_refl | exact shrink_rel_trans
      | intros; apply shrink_pop0
      | intros; apply shrink_of_frame, frame_lay_section
      | done
      | intros; same_heap_block ].
Qed.

Lemma shrink_trench_sections fuel d kw l :
  sat (S:=S) shrink_rel (trench_sections fuel d kw l).
Proof.
  apply sat_trench_sections with (L := λ _, True);
    first
      [ exact shrink_rel_refl | exact shrink_rel_trans
      | intros; apply shrink_pop0
      | done
      | intros; same_heap_block ].
Qed.

(** The straight-line blocks, run. *)
Lemma load_and_transit_to_site_run d kw c w :
  load_and_transit_to_site d kw c w =
  ([Yield install_vessel (load_cable_on_vessel c) kw (snap w);
    Yield install_vessel (transit d) kw
      (snap (with_vessel (set_at_port false) w))],
   with_vessel (set_at_site true)
     (with_vessel (set_at_port false)
        (with_vessel (set_cable_storage (load_cable c)) w)),
   Returned tt).
Proof. reflexivity. Qed.

Lemma transit_to_port_run d kw w :
  transit_to_port d kw w =
  ([Yield install_vessel (transit d) kw
      (snap (with_vessel (set_at_site false) w))],
   with_vessel (set_at_port true) (with_vessel (set_at_site false) w),
   Returned tt).
Proof. reflexivity. Qed.

Lemma trench_transit_to_site_run d kw w :
  trench_transit_to_site d kw w =
  ([Yield trench_vessel_agent (transit d) kw
      (snap (with_trench_vessel (set_at_port false) w))],
   with_trench_vessel (set_at_site true)
     (with_trench_vessel (set_at_port false) w),
   Returned tt).
Proof. reflexivity. Qed.

Lemma trench_transit_to_port_run d kw w :
  trench_transit_to_port d kw w =
  ([Yield trench_vessel_agent (transit d) kw
      (snap (with_trench_vessel (set_at_site false) w))],
   with_trench_vessel (set_at_port true)
     (with_trench_vessel (set_at_site false) w),
   Returned tt).
Proof. reflexivity. Qed.

Lemma for_repeat_emit n e w :
  for_repeat n (emit e) w = (replicate n e, w, Returned tt).
Proof.
  induction n as [|n IH]; simpl; [done|].
  unfold bind at 1. simpl. by rewrite IH.
Qed.

(** The installation loop of one cable ends: it needs one iteration to
    leave port, one per section, and one to find the list empty. *)
Lemma lay_sections_terminates fuel d kw c l w :
  flags_ok (vessel_flags (vessel w)) = true →
  (length (default [] (heap w !! l))
   + (if at_port (vessel w) then 2 else 1) ≤ fuel)%nat →
  outcome_of (lay_sections fuel d kw c l w) ≠ Spinning.
Proof.
  revert w. induction fuel as [|fuel IH]; intros w Hf Hb.
  { destruct (at_port (vessel w)); lia. }
  unfold flags_ok, vessel_flags in Hf. simpl in Hf.
  destruct (at_port (vessel w)) eqn:Hp.
  - rewrite lay_sections_at_port by done.
    rewrite bind_run, load_and_transit_to_site_run. simpl.
    unfold outcome_of at 1. simpl. apply IH; simpl; [done|lia].
  - destruct (at_site (vessel w)) eqn:Hs; [|done].
    destruct (heap w !! l) as [[|s rest]|] eqn:Hl.
    + rewrite lay_sections_no_section by (by rewrite ?Hl).
      by rewrite transit_to_port_run.
    + rewrite (lay_sections_next_section _ _ _ _ _ _ s rest) by done.
      rewrite bind_run.
      pose proof (for_repeat_no_spin (Z.to_nat (cs_count s))
        (lay_section d kw c (cs_length s)
           (section_specs (burial_vessel w) kw (cs_extra s)))
        (with_heap (<[l:=rest]> (heap w)) w)
        (lay_section_no_spin _ _ _ _ _)) as Hns.
      pose proof (sat_for_range frame_rel frame_rel_refl frame_rel_trans
        (cs_count s) _ (frame_lay_section d kw c (cs_length s)
           (section_specs (burial_vessel w) kw (cs_extra s)))
        (with_heap (<[l:=rest]> (heap w)) w)) as [Hh Hsn].
      unfold for_range in *.
      destruct (outcome_of (for_repeat _ _ _)); try done.
      unfold outcome_of at 1. simpl. apply IH.
      * apply (f_equal snap_install) in Hsn. simpl in Hsn.
        unfold flags_ok. rewrite Hsn. simpl. by rewrite Hp, Hs.
      * apply (f_equal snap_install) in Hsn. simpl in Hsn.
        inversion Hsn as [[Hsp Hss]]. rewrite Hsp, Hp.
        rewrite Hh. simpl. rewrite lookup_insert_eq. simpl in *. lia.
    + rewrite lay_sections_no_section by (by rewrite ?Hl).
      by rewrite transit_to_port_run.
Qed.

Lemma pop0_cons l w s rest :
  heap w !! l = Some (s :: rest) →
  pop0 l w = ([], with_heap (<[l := rest]> (heap w)) w, Returned s).
Proof. intros Hl. unfold pop0. proc_simpl. by rewrite Hl. Qed.

Lemma pop0_nil l w :
  default [] (heap w !! l) = [] → pop0 l w = ([], w, Raised IndexError).
Proof. intros Hl. unfold pop0. proc_simpl. by rewrite Hl. Qed.

(** Unfolding the [while True] loop of the trenching vessel. *)
Lemma trench_sections_at_port fuel d kw l w tv :
  trench_vessel w = Some tv → at_port tv = true →
  trench_sections (Datatypes.S fuel) d kw l w =
  (trench_transit_to_site d kw >> trench_sections fuel d kw l)%proc w.
Proof.
  intros Ht Hp. simpl. unfold bind at 1, get_trench_vessel at 1.
  rewrite Ht, Hp. by destruct (bind _ _ w) as [[t1 w1] r].
Qed.

Lemma trench_sections_next_section fuel d kw l w tv s rest :
  trench_vessel w = Some tv → at_port tv = false → at_site tv = true →
  heap w !! l = Some (s :: rest) →
  trench_sections (Datatypes.S fuel) d kw l w =
  (for_range (cs_count s)
     (emit (Spawn (dig_array_cables_trench_call (cs_length s) kw))) >>
   trench_sections fuel d kw l)%proc (with_heap (<[l := rest]> (heap w)) w).
Proof.
  intros Ht Hp Hs Hl. simpl.
  unfold bind, catch, get_trench_vessel, for_range.
  rewrite Ht, Hp, Hs, (pop0_cons l w s rest Hl), !for_repeat_emit. simpl.
  rewrite app_nil_r. by destruct (trench_sections _ _ _ _ _) as [[t2 w2] r].
Qed.

Lemma trench_sections_no_section fuel d kw l w tv :
  trench_vessel w = Some tv → at_port tv = false → at_site tv = true →
  default [] (heap w !! l) = [] →
  trench_sections (Datatypes.S fuel) d kw l w = trench_transit_to_port d kw w.
Proof.
  intros Ht Hp Hs Hl. simpl. unfold bind at 1, get_trench_vessel at 1.
  rewrite Ht, Hp, Hs. unfold pop0. proc_simpl. rewrite Hl. reflexivity.
Qed.

Lemma trench_sections_terminates fuel d kw l w :
  from_option (λ tv, flags_ok (vessel_flags tv)) true (trench_vessel w)
    = true →
  (length (default [] (heap w !! l)) + 2 ≤ fuel)%nat →
  outcome_of (trench_sections fuel d kw l w) ≠ Spinning.
Proof.
  destruct (trench_vessel w) as [tv|] eqn:Ht; simpl.
  2:{ intros _ Hb. destruct fuel as [|fuel]; [lia|]. simpl.
      unfold bind, get_trench_vessel. by rewrite Ht. }
  intros Hf Hb.
  assert (length (default [] (heap w !! l))
          + (if at_port tv then 2 else 1) ≤ fuel)%nat as Hb'
    by (destruct (at_port tv); lia).
  clear Hb. revert w tv Ht Hf Hb'.
  induction fuel as [|fuel IH]; intros w tv Ht Hf Hb.
  { destruct (at_port tv); lia. }
  unfold flags_ok, vessel_flags in Hf. simpl in Hf.
  destruct (at_port tv) eqn:Hp.
  - rewrite (trench_sections_at_port _ _ _ _ _ tv) by done.
    rewrite bind_run, trench_transit_to_site_run. simpl.
    unfold outcome_of at 1. simpl.
    eapply IH; simpl; [by rewrite Ht| |].
    + simpl. unfold flags_ok. simpl. by destruct (at_site tv).
    + simpl. lia.
  - destruct (at_site tv) eqn:Hs; [|done].
    destruct (heap w !! l) as [[|s rest]|] eqn:Hl.
    + rewrite (trench_sections_no_section _ _ _ _ _ tv) by (by rewrite ?Hl).
      by rewrite trench_transit_to_port_run.
    + rewrite (trench_sections_next_section _ _ _ _ _ tv s rest) by done.
      unfold for_range. rewrite bind_run, for_repeat_emit. simpl.
      unfold outcome_of at 1. simpl.
      eapply IH; simpl; [exact Ht| |].
      * unfold flags_ok. simpl. by rewrite Hp, Hs.
      * rewrite Hp, lookup_insert_eq. simpl in *. lia.
    + rewrite (trench_sections_no_section _ _ _ _ _ tv) by (by rewrite ?Hl).
      by rewrite trench_transit_to_port_run.
Qed.

Lemma shrink_trench_one_cable fuel d kw l :
  sat shrink_rel (trench_one_cable fuel d kw l).
Proof.
  apply sat_trench_one_cable with (L := λ _, True);
    first
      [ exact shrink_rel_refl | exact shrink_rel_trans
      | intros; apply shrink_pop0
      | done
      | intros; same_heap_block ].
Qed.

Lemma shrink_install_one_cable fuel d kw c l :
  sat shrink_rel (install_one_cable fuel d kw c l).
Proof.
  apply sat_install_one_cable with (L := λ _, True);
    first
      [ exact shrink_rel_refl | exact shrink_rel_trans
      | intros; apply shrink_pop0
      | intros; apply shrink_of_frame, frame_lay_section
      | done
      | intros; same_heap_block ].
Qed.

Lemma fuel_inv_preserved {A} (m : proc S A) fuel w :
  sat location_rel m → sat shrink_rel m →
  fuel_inv fuel w → fuel_inv fuel (world_of (m w)).
Proof.
  intros Hl Hs [Hok Hb]. split.
  - eapply location_rel_ok; [apply Hl|done].
  - intros l. specialize (Hs w l). specialize (Hb l). lia.
Qed.

Lemma for_each_terminates {A} (l : list A) (body : A → proc S unit) fuel w :
  (∀ x, sat location_rel (body x)) → (∀ x, sat shrink_rel (body x)) →
  (∀ x w, fuel_inv fuel w → outcome_of (body x w) ≠ Spinning) →
  fuel_inv fuel w → outcome_of (for_each l body w) ≠ Spinning.
Proof.
  intros Hl Hs Hb. revert w. induction l as [|x l IH]; intros w Hw; simpl.
  - done.
  - rewrite bind_run. specialize (Hb x w Hw).
    destruct (outcome_of (body x w)) eqn:Ho; try done.
    unfold outcome_of at 1. simpl. apply IH. by apply fuel_inv_preserved.
Qed.

Lemma trench_one_cable_terminates fuel d kw l w :
  fuel_inv fuel w → outcome_of (trench_one_cable fuel d kw l w) ≠ Spinning.
Proof.
  intros [Hok Hb]. unfold trench_one_cable.
  rewrite bind_run. simpl. unfold outcome_of at 1. simpl.
  rewrite bind_run.
  set (w1 := world_of (set_vessel (set_cable_storage reset) w)).
  assert (outcome_of (trench_sections fuel d kw l w1) ≠ Spinning) as Hns.
  { apply trench_sections_terminates; [|apply Hb].
    unfold snapshot_ok in Hok. apply andb_prop in Hok as [_ Hok].
    simpl in *. by destruct (trench_vessel w). }
  destruct (outcome_of (trench_sections fuel d kw l w1)); try done.
Qed.

Lemma install_one_cable_terminates fuel d kw c l w :
  fuel_inv fuel w → outcome_of (install_one_cable fuel d kw c l w) ≠ Spinning.
Proof.
  intros [Hok Hb]. unfold install_one_cable.
  rewrite bind_run. simpl. unfold outcome_of at 1. simpl.
  rewrite bind_run.
  set (w1 := world_of (set_vessel (set_cable_storage reset) w)).
  assert (outcome_of (lay_sections fuel d kw c l w1) ≠ Spinning) as Hns.
  { apply lay_sections_terminates.
    - unfold snapshot_ok in Hok. apply andb_prop in Hok as [Hok _].
      by apply andb_prop in Hok as [Hok _].
    - specialize (Hb l). simpl. destruct (at_port (vessel w)); lia. }
  destruct (outcome_of (lay_sections fuel d kw c l w1)); try done.
Qed.

(** With enough fuel the process does not stay in a loop. *)
Lemma install_array_cables_terminates fuel d kw cable_data w :
  fuel_inv fuel w →
  outcome_of (install_array_cables fuel d cable_data kw w) ≠ Spinning.
Proof.
  intros Hw. unfold install_array_cables.
  set (trenching := (let* w := get in
                     match trench_vessel w with
                     | None => ret tt
                     | Some _ =>
                         for_each cable_data (λ '(cable, sections),
                           trench_one_cable fuel d kw sections)
                     end)%proc).
  assert (sat location_rel trenching ∧ sat shrink_rel trenching
          ∧ outcome_of (trenching w) ≠ Spinning) as (Hl1 & Hs1 & Hns1).
  { split; [|split].
    - apply sat_bind_get. intros w'. destruct (trench_vessel w').
      + apply sat_for_each with (P := λ _, True);
          [exact location_rel_refl|exact location_rel_trans| |
           by apply Forall_forall].
        intros [c l] _. apply location_trench_one_cable.
      + apply location_rel_refl.
    - apply sat_bind_get. intros w'. destruct (trench_vessel w').
      + apply sat_for_each with (P := λ _, True);
          [exact shrink_rel_refl|exact shrink_rel_trans| |
           by apply Forall_forall].
        intros [c l] _. apply shrink_trench_one_cable.
      + apply shrink_rel_refl.
    - unfold trenching. rewrite bind_run. simpl.
      change (world_of (get w)) with w.
      destruct (trench_vessel w); [|done].
      apply for_each_terminates with (fuel := fuel); try done.
      + intros [c l]. apply location_trench_one_cable.
      + intros [c l]. apply shrink_trench_one_cable.
      + intros [c l] w' Hw'. by apply trench_one_cable_terminates. }
  rewrite bind_run.
  pose proof (fuel_inv_preserved trenching fuel w Hl1 Hs1 Hw) as Hw1.
  destruct (outcome_of (trenching w)); try done.
  unfold outcome_of at 1. simpl. rewrite bind_run. simpl.
  unfold outcome_of at 1. simpl. rewrite bind_run.
  set (w2 := world_of (set_to_bury _ _)).
  assert (fuel_inv fuel w2) as Hw2 by apply Hw1.
  pose proof (for_each_terminates cable_data
    (λ '(cable, sections), install_one_cable fuel d kw cable sections)
    fuel w2) as Hns2.
  destruct (outcome_of (for_each cable_data _ w2)); try done.
  - unfold outcome_of at 1. simpl. rewrite bind_run. simpl.
    unfold outcome_of at 1. simpl. by destruct (burial_vessel _).
  - exfalso. apply Hns2; try done.
    + intros [c l]. apply location_install_one_cable.
    + intros [c l]. apply shrink_install_one_cable.
    + intros [c l] w' Hw'. by apply install_one_cable_terminates.
Qed.

(** The copies made by [build_cable_data]: the new lists are at
    locations that were not in use, the lists that were there are not
    touched, and no list is longer than the longest one before. *)
Lemma build_cable_data_spec cables w :
  ∃ cd hp,
    build_cable_data cables w = ([], with_heap hp w, Returned cd)
    ∧ Forall (λ cs : Cable * loc, cs.2 ∉ dom (heap w)) cd
    ∧ (∀ l, l ∈ dom (heap w) → hp !! l = heap w !! l)
    ∧ (∀ M : nat,
         (∀ l, length (default [] (heap w !! l)) ≤ M)%nat →
         ∀ l, (length (default [] (hp !! l)) ≤ M)%nat).
Proof.
  revert w. induction cables as [|[name data] cables IH]; intros w; simpl.
  - exists [], (heap w). destruct w; repeat split; simpl; auto.
  - set (l' := fresh (dom (heap w))).
    set (w1 := with_heap
                 (<[l' := default [] (heap w !! cfg_cable_sections data)]>
                    (heap w)) w).
    destruct (IH w1) as (cd & hp & Hrun & Hfresh & Hkeep & Hlen).
    assert (l' ∉ dom (heap w)) as Hl' by apply is_fresh.
    exists (({| linear_density := cfg_linear_density data |}, l') :: cd), hp.
    split; [|split; [|split]].
    + unfold deepcopy. proc_run. fold l' w1. rewrite Hrun. by destruct w.
    + constructor; [done|]. eapply Forall_impl; [exact Hfresh|].
      intros [c l] Hl; simpl in *. intros Hin. apply Hl.
      rewrite dom_insert. set_solver.
    + intros l Hl. rewrite Hkeep.
      * simpl. rewrite lookup_insert_ne; [done|]. intros ->. done.
      * simpl. rewrite dom_insert. set_solver.
    + intros M HM. apply Hlen. intros l. simpl.
      destruct (decide (l' = l)) as [->|Hne].
      * rewrite lookup_insert_eq. simpl. apply HM.
      * rewrite lookup_insert_ne by done. apply HM.
Qed.

Lemma setup_simulation_run fuel (cfg : config S) kw h :
  ∃ cd hp,
    setup_simulation fuel cfg kw h =
      install_array_cables fuel (site_distance cfg) cd kw
        (with_heap hp (initial_world cfg h))
    ∧ Forall (λ cs : Cable * loc, cs.2 ∉ dom h) cd
    ∧ (∀ l, l ∈ dom h → hp !! l = h !! l)
    ∧ (∀ M : nat,
         (∀ l, length (default [] (h !! l)) ≤ M)%nat →
         ∀ l, (length (default [] (hp !! l)) ≤ M)%nat).
Proof.
  destruct (build_cable_data_spec (array_system_cables cfg)
              (initial_world cfg h)) as (cd & hp & Hrun & H1 & H2 & H3).
  exists cd, hp. split; [|done].
  unfold setup_simulation. fold (initial_world cfg h).
  unfold bind at 1. rewrite Hrun. simpl.
  by destruct (install_array_cables _ _ _ _ _) as [[t w'] r].
Qed.

Lemma initial_world_ok (cfg : config S) h :
  snapshot_ok (snap (initial_world cfg h)) = true.
Proof.
  unfold snapshot_ok, snap, initial_world. simpl.
  by destruct (array_cable_bury_vessel cfg), (array_cable_trench_vessel cfg).
Qed.

(** Two more units of fuel than the longest list of sections are enough
    for the phase to come to an end. *)
Lemma setup_simulation_terminates fuel (cfg : config S) kw h :
  (2 ≤ fuel)%nat →
  map_Forall (λ _ l, (length l + 2 ≤ fuel)%nat) h →
  outcome_of (setup_simulation fuel cfg kw h) ≠ Spinning.
Proof.
  intros Hfuel Hh.
  destruct (setup_simulation_run fuel cfg kw h) as (cd & hp & -> & _ & _ & Hlen).
  apply install_array_cables_terminates. split.
  - apply initial_world_ok.
  - intros l. simpl.
    assert (∀ l, length (default [] (h !! l)) ≤ fuel - 2)%nat as HM.
    { intros l'. destruct (h !! l') as [x|] eqn:Hl'; simpl; [|lia].
      specialize (Hh l' x Hl'). simpl in Hh. lia. }
    specialize (Hlen _ HM l). lia.
Qed.

End Termination.

(** * The installation vessel ends at port *)

Section EndsAtPort.
Context {S : Type} `{CableStorage S}.
Implicit Types w : world S.

Lemma moored_rel_refl w : moored_rel w [] w.
Proof. done. Qed.

Lemma moored_rel_trans w1 t1 w2 t2 w3 :
  moored_rel w1 t1 w2 → moored_rel w2 t2 w3 → moored_rel w1 (t1 ++ t2) w3.
Proof. unfold moored_rel. congruence. Qed.

Lemma moored_trench_all fuel d kw (cable_data : list (Cable * loc)) :
  sat (S:=S) moored_rel
    (for_each cable_data (λ '(cable, sections),
       trench_one_cable fuel d kw sections)).
Proof.
  apply sat_trench_all with (L := λ _, True);
    first
      [ exact moored_rel_refl | exact moored_rel_trans
      | by apply Forall_forall
      | intros; intros w; unfold pop0; proc_run;
        by destruct (default [] (heap w !! _))
      | intros; intros w;
        destruct w as [[p q st] bv [tv|] hp tb]; proc_run; done ].
Qed.

Lemma install_one_cable_ends_at_port fuel d kw c l w :
  outcome_of (install_one_cable fuel d kw c l w) = Returned tt →
  vessel_flags (vessel (world_of (install_one_cable fuel d kw c l w)))
  = (true, false).
Proof.
  unfold install_one_cable.
  set (w1 := with_vessel (set_cable_storage reset) w).
  rewrite (bind_run_returned (set_vessel (set_cable_storage reset)) _
             w [] w1 tt eq_refl).
  rewrite outcome_of_mk, world_of_mk, outcome_of_bind, world_of_bind.
  destruct (outcome_of (lay_sections fuel d kw c l w1)) as [[]| |];
    [|done|done].
  by rewrite transit_to_port_run.
Qed.

Lemma install_all_ends_at_port fuel d kw (cable_data : list (Cable * loc)) w :
  let r := for_each cable_data (λ '(cable, sections),
             install_one_cable fuel d kw cable sections) w in
  vessel_flags (vessel w) = (true, false) →
  outcome_of r = Returned tt →
  vessel_flags (vessel (world_of r)) = (true, false).
Proof.
  revert w. induction cable_data as [|[c l] cd IH]; intros w; simpl.
  { done. }
  intros _. rewrite outcome_of_bind, world_of_bind.
  pose proof (install_one_cable_ends_at_port fuel d kw c l w) as Hb.
  destruct (outcome_of (install_one_cable fuel d kw c l w)) as [[]| |];
    [|done|done].
  apply IH. by apply Hb.
Qed.

(** Whenever the process returns, the installation vessel is at port. *)
Lemma install_array_cables_ends_at_port fuel d kw cable_data w :
  let r := install_array_cables fuel d cable_data kw w in
  vessel_flags (vessel w) = (true, false) →
  outcome_of r = Returned tt →
  vessel_flags (vessel (world_of r)) = (true, false).
Proof.
  simpl. intros Hw. unfold install_array_cables.
  set (trenching := (let* w := get in
                     match trench_vessel w with
                     | None => ret tt
                     | Some _ =>
                         for_each cable_data (λ '(cable, sections),
                           trench_one_cable fuel d kw sections)
                     end)%proc).
  assert (sat moored_rel trenching) as Hm.
  { apply sat_bind_get. intros w'. destruct (trench_vessel w').
    - apply moored_trench_all.
    - apply moored_rel_refl. }
  specialize (Hm w). unfold moored_rel in Hm. rewrite Hw in Hm.
  rewrite outcome_of_bind, world_of_bind.
  destruct (outcome_of (trenching w)) as [[]| |]; [|done|done].
  set (w1 := world_of (trenching w)) in *.
  set (w2 := with_to_bury (λ _, []) w1).
  rewrite (bind_run_returned (set_to_bury (λ _, [])) _ w1 [] w2 tt eq_refl).
  rewrite outcome_of_mk, world_of_mk, outcome_of_bind, world_of_bind.
  pose proof (install_all_ends_at_port fuel d kw cable_data w2 Hm) as Hl.
  simpl in Hl.
  destruct (outcome_of (for_each cable_data _ w2)) as [[]| |]; [|done|done].
  specialize (Hl eq_refl).
  set (w3 := world_of (for_each cable_data _ w2)) in *.
  rewrite world_of_bind.
  change (outcome_of (get w3)) with (Returned w3).
  change (world_of (get w3)) with w3. cbv iota beta.
  intros _. by destruct (burial_vessel w3).
Qed.

Lemma setup_simulation_ends_at_port fuel (cfg : config S) kw h :
  outcome_of (setup_simulation fuel cfg kw h) = Returned tt →
  vessel_flags (vessel (world_of (setup_simulation fuel cfg kw h)))
  = (true, false).
Proof.
  destruct (setup_simulation_run fuel cfg kw h) as (cd & hp & -> & _).
  by apply install_array_cables_ends_at_port.
Qed.

End EndsAtPort.

(** * The laying procedure *)

Section Procedure.
Context {S : Type} `{CableStorage S}.
Implicit Types w : world S.

(** C2: with no burial and no trenching vessel, the steps of a section of
    count 1 are, in order, position onsite, prep, pull-in, terminate,
    lower, lay-and-bury, prep, pull-in, terminate (after the reload round
    trip when the storage fell short); in scenario A these are the steps
    between the transit to the site and the transit back; and whenever
    the phase returns, the vessel ends with [at_port] true and [at_site]
    false. *)
Theorem C2_laying_procedure_and_scenario_A :
  (∀ d kw c len specs (w : world S),
     burial_vessel w = None →
     let r := for_range 1 (lay_section d kw c len specs) w in
     outcome_of r = Returned tt →
     ∃ section,
       (is_Some (get_cable len (cable_storage (vessel w))) ∧
        steps_of (trace_of r) = laying_steps lay_bury_cable section)
       ∨ (get_cable len (cable_storage (vessel w)) = None ∧
          steps_of (trace_of r) =
            reload_steps d c ++ laying_steps lay_bury_cable section))
  ∧ (∀ fuel (cfg : config S) kw h name data len extra section st2,
       array_cable_bury_vessel cfg = None →
       array_cable_trench_vessel cfg = None →
       array_system_cables cfg = [(name, data)] →
       h !! cfg_cable_sections data =
         Some [{| cs_length := len; cs_count := 1; cs_extra := extra |}] →
       let c := {| linear_density := cfg_linear_density data |} in
       get_cable len (load_cable c (reset (array_cable_install_vessel cfg)))
         = Some (section, st2) →
       let r := setup_simulation (3 + fuel) cfg kw h in
       steps_of (trace_of r) =
         [(install_vessel, load_cable_on_vessel c);
          (install_vessel, transit (site_distance cfg))]
         ++ laying_steps lay_bury_cable section
         ++ [(install_vessel, transit (site_distance cfg));
             (install_vessel, transit (site_distance cfg))]
       ∧ outcome_of r = Returned tt
       ∧ at_port (vessel (world_of r)) = true
       ∧ at_site (vessel (world_of r)) = false)
  ∧ (∀ fuel (cfg : config S) kw h,
       let r := setup_simulation fuel cfg kw h in
       outcome_of r = Returned tt →
       at_port (vessel (world_of r)) = true
       ∧ at_site (vessel (world_of r)) = false).
Proof.
  split; [|split].
  - intros d kw c len specs w Hb r Hr.
    destruct (lay_section_returned d kw c len specs w Hr) as [section Hs].
    fold r in Hs. rewrite Hb in Hs. simpl in Hs. exists section.
    destruct (get_cable len (cable_storage (vessel w))) as [[x st]|].
    + left. split; [by eexists|]. tauto.
    + right. done.
  - intros fuel cfg kw h name data len extra section st2 Hb Ht Hc Hh c Hg r.
    destruct (scenario_A fuel cfg kw h name data len extra section st2
                Hb Ht Hc Hh Hg) as (Hs & Ho & Hf).
    fold c r in Hs, Ho, Hf. repeat split; try done.
    + by inversion Hf.
    + by inversion Hf.
  - intros fuel cfg kw h r Hr.
    pose proof (setup_simulation_ends_at_port fuel cfg kw h Hr) as Hf.
    fold r in Hf. by inversion Hf.
Qed.

End Procedure.

(** * The configuration is not mutated *)

Section Configuration.
Context {S : Type} `{CableStorage S}.
Implicit Types w : world S.

Lemma keep_rel_refl D w : keep_rel D w [] w.
Proof. done. Qed.

Lemma keep_rel_trans D w1 t1 w2 t2 w3 :
  keep_rel D w1 t1 w2 → keep_rel D w2 t2 w3 → keep_rel D w1 (t1 ++ t2) w3.
Proof. intros H1 H2 l Hl. rewrite H2, H1; done. Qed.

Lemma keep_rel_same_heap D w t w' : heap w' = heap w → keep_rel D w t w'.
Proof. intros Hh l _. by rewrite Hh. Qed.

Lemma keep_pop0 D l : l ∉ D → sat (S:=S) (keep_rel D) (pop0 l).
Proof.
  intros Hl w l' Hl'. unfold pop0. proc_run.
  destruct (default [] (heap w !! l)) as [|s rest]; proc_run; [done|].
  unfold world_of; simpl. rewrite lookup_insert_ne; [done|]. by intros ->.
Qed.

Lemma keep_install_array_cables D fuel d kw cable_data :
  Forall (λ cs : Cable * loc, cs.2 ∉ D) cable_data →
  sat (keep_rel D) (install_array_cables fuel d cable_data kw).
Proof.
  intros Hcd.
  apply sat_install_array_cables with (L := λ l, l ∉ D);
    first
      [ exact (keep_rel_refl D) | exact (keep_rel_trans D)
      | intros; by apply keep_pop0
      | done
      | intros; intros w; apply keep_rel_same_heap;
        apply (frame_lay_section _ _ _ _ _ w)
      | intros; intros w; apply keep_rel_same_heap;
        destruct w as [[p q st] bv [tv|] hp tb]; proc_run; done ].
Qed.

(** C9: the lists of sections held by the configuration are the same
    after the run as before: [setup_simulation] hands copies to
    [install_array_cables], and the process pops from the copies only. *)
Theorem C9_configuration_not_mutated fuel (cfg : config S) kw h l :
  l ∈ dom h →
  heap (world_of (setup_simulation fuel cfg kw h)) !! l = h !! l.
Proof.
  intros Hl.
  destruct (setup_simulation_run fuel cfg kw h)
    as (cd & hp & -> & Hfresh & Hkeep & _).
  rewrite (keep_install_array_cables (dom h) fuel _ kw cd Hfresh _ l Hl).
  simpl. by apply Hkeep.
Qed.

End Configuration.

(** * Laying with a burial vessel *)

Section Burial.
Context {S : Type} `{CableStorage S}.
Implicit Types w : world S.

Lemma burial_rel_refl w : burial_rel w [] w.
Proof. unfold burial_rel. simpl. by rewrite app_nil_r. Qed.

Lemma burial_rel_trans w1 t1 w2 t2 w3 :
  burial_rel w1 t1 w2 → burial_rel w2 t2 w3 → burial_rel w1 (t1 ++ t2) w3.
Proof.
  intros (Ha & Hb & Hc & Hd) (Ha' & Hb' & Hc' & Hd').
  unfold burial_rel, laid_and_buried, laid, bury_calls in *.
  rewrite !omap_app. repeat split.
  - congruence.
  - intros Hs. rewrite Hb, Hb'; [done|by rewrite Ha|done].
  - rewrite Hc', Hc. by rewrite app_assoc.
  - by rewrite Hd, Hd'.
Qed.

Lemma idle_rel_refl w : idle_rel w [] w.
Proof. done. Qed.

Lemma idle_rel_trans w1 t1 w2 t2 w3 :
  idle_rel w1 t1 w2 → idle_rel w2 t2 w3 → idle_rel w1 (t1 ++ t2) w3.
Proof.
  intros (Ha & Hb & Hc & Hd) (Ha' & Hb' & Hc' & Hd').
  unfold idle_rel, laid_and_buried, laid, bury_calls in *.
  rewrite !omap_app, Hb, Hb', Hc, Hc', Hd, Hd'. split; [congruence|done].
Qed.

Lemma burial_of_idle w t w' :
  idle_rel w t w' → to_bury w' = to_bury w → burial_rel w t w'.
Proof.
  intros (Ha & Hb & Hc & Hd) Ht. unfold burial_rel.
  rewrite Hc, app_nil_r. auto.
Qed.

Ltac idle_block :=
  intros w; destruct w as [[p q st] bv [tv|] hp tb]; proc_run; done.

Lemma idle_pop0 l : sat (S:=S) idle_rel (pop0 l).
Proof.
  intros w. unfold pop0. proc_run.
  by destruct (default [] (heap w !! l)).
Qed.

Lemma burial_lay_section d kw c len specs :
  sat burial_rel (lay_section d kw c len specs).
Proof.
  intros [[p q st] bv tv hp tb]. proc_run.
  destruct (get_cable len st) as [[x st1]|]; proc_run;
    [|destruct (get_cable len (load_cable c st)) as [[x st2]|]; proc_run];
    destruct bv; unfold burial_rel, trace_of, world_of; simpl;
    rewrite ?app_nil_r; repeat split; try done;
    by intros [? ?].
Qed.

Lemma burial_install_all fuel d kw (cable_data : list (Cable * loc)) :
  sat burial_rel
    (for_each cable_data (λ '(cable, sections),
       install_one_cable fuel d kw cable sections)).
Proof.
  apply sat_lay_all with (L := λ _, True);
    first
      [ exact burial_rel_refl | exact burial_rel_trans
      | exact burial_lay_section
      | by apply Forall_forall
      | intros; intros w; apply burial_of_idle;
        [apply idle_pop0|unfold pop0; proc_run;
                         by destruct (default [] (heap w !! _))]
      | intros; intros w; apply burial_of_idle;
        destruct w as [[p q st] bv [tv|] hp tb]; proc_run; done ].
Qed.

Lemma idle_trench_all fuel d kw (cable_data : list (Cable * loc)) :
  sat (S:=S) idle_rel
    (for_each cable_data (λ '(cable, sections),
       trench_one_cable fuel d kw sections)).
Proof.
  apply sat_trench_all with (L := λ _, True);
    first
      [ exact idle_rel_refl | exact idle_rel_trans
      | intros; apply idle_pop0
      | by apply Forall_forall
      | intros; idle_block ].
Qed.

(** The run of [install_array_cables] with a burial vessel. *)
Lemma install_array_cables_burial fuel d kw cable_data w :
  is_Some (burial_vessel w) →
  let r := install_array_cables fuel d cable_data kw w in
  laid_and_buried (trace_of r) = []
  ∧ match outcome_of r with
    | Returned _ =>
        ∃ t, trace_of r =
               t ++ [DebugLog install_vessel
                       "Array cable lay process completed!";
                     Spawn (bury_array_cables_call (laid t) kw)]
             ∧ bury_calls t = []
    | _ => bury_calls (trace_of r) = []
    end.
Proof.
  intros Hbv r. subst r. unfold install_array_cables.
  set (trenching := (let* w := get in
                     match trench_vessel w with
                     | None => ret tt
                     | Some _ =>
                         for_each cable_data (λ '(cable, sections),
                           trench_one_cable fuel d kw sections)
                     end)%proc).
  assert (sat idle_rel trenching) as Hidle.
  { apply sat_bind_get. intros w'. destruct (trench_vessel w').
    - apply idle_trench_all.
    - apply idle_rel_refl. }
  destruct (Hidle w) as (Hb1 & Hlb1 & Hl1 & Hc1).
  rewrite trace_of_bind, outcome_of_bind.
  destruct (outcome_of (trenching w)); try done.
  rewrite trace_of_bind, outcome_of_bind.
  change (outcome_of (set_to_bury (λ _, []) (world_of (trenching w))))
    with (Returned (A:=unit) tt).
  change (trace_of (set_to_bury (λ _, []) (world_of (trenching w))))
    with (@nil event).
  cbv iota beta.
  set (w2 := world_of (set_to_bury (λ _, []) (world_of (trenching w)))).
  destruct (burial_install_all fuel d kw cable_data w2)
    as (Hb3 & Hlb3 & Ht3 & Hc3).
  assert (is_Some (burial_vessel w2)) as Hbv2 by (simpl; by rewrite Hb1).
  specialize (Hlb3 Hbv2).
  rewrite trace_of_bind, outcome_of_bind.
  set (r3 := for_each cable_data _ w2) in *.
  unfold laid_and_buried, laid, bury_calls in *.
  destruct (outcome_of r3).
  - rewrite trace_of_bind, outcome_of_bind.
    change (outcome_of (get (world_of r3))) with (Returned (world_of r3)).
    change (trace_of (get (world_of r3))) with (@nil event).
    change (world_of (get (world_of r3))) with (world_of r3).
    cbv iota beta.
    rewrite <- Hb3 in Hbv2. destruct Hbv2 as [b Hbv3]. rewrite Hbv3.
    rewrite Ht3. simpl. split.
    + rewrite !omap_app, Hlb1, Hlb3. done.
    + exists (trace_of (trenching w) ++ trace_of r3). split.
      * rewrite !omap_app, Hl1. simpl. by rewrite <- app_assoc.
      * by rewrite omap_app, Hc1, Hc3.
  - simpl. by rewrite !omap_app, Hlb1, Hlb3, Hc1, Hc3.
  - simpl. by rewrite !omap_app, Hlb1, Hlb3, Hc1, Hc3.
Qed.

(** The burial process: one [bury_cable] per section, in order. *)
Lemma bury_array_cables_run sections kw w :
  let r := bury_array_cables sections kw w in
  steps_of (trace_of r) = burial_steps sections
  ∧ buried (trace_of r) = sections
  ∧ outcome_of r = Returned tt.
Proof.
  unfold bury_array_cables. simpl.
  set (body := λ length : Z,
    (yield burial_vessel_agent position_onsite {["site_position_time" := 2]} >>
     yield burial_vessel_agent (bury_cable length) kw)%proc).
  assert (∀ w, steps_of (trace_of (for_each sections body w))
               = burial_steps sections
             ∧ buried (trace_of (for_each sections body w)) = sections
             ∧ outcome_of (for_each sections body w) = Returned tt) as Hloop.
  { clear w. induction sections as [|x sections IH]; intros w; simpl; [done|].
    rewrite trace_of_bind, outcome_of_bind.
    change (outcome_of (body x w)) with (Returned (A:=unit) tt).
    cbv iota beta. destruct (IH (world_of (body x w))) as (IH1 & IH2 & IH3).
    unfold steps_of, buried in *. rewrite !omap_app, IH1, IH2, IH3. done. }
  destruct (Hloop w) as (H1 & H2 & H3).
  rewrite trace_of_bind, outcome_of_bind, H3.
  unfold steps_of, buried in *. rewrite !omap_app, H1, H2. simpl.
  by rewrite !app_nil_r.
Qed.


End Burial.

(** * The optional speed of a section *)

Section Speed.
Context {S : Type} `{CableStorage S}.
Implicit Types w : world S.

Lemma lay_section_calls d kw c len specs w :
  Forall (call_kwargs_ok kw specs)
    (calls_of (trace_of (lay_section d kw c len specs w))).
Proof.
  destruct w as [[p q st] bv tv hp tb]. proc_run.
  destruct (get_cable len st) as [[x st1]|]; proc_run;
    [|destruct (get_cable len (load_cable c st)) as [[x st2]|]; proc_run];
    destruct bv; unfold trace_of; simpl; repeat constructor.
Qed.

(** One section of count 1 at the head of the list, cable on board. *)
Lemma lay_sections_one_section fuel d kw c l w s section st :
  at_port (vessel w) = false → at_site (vessel w) = true →
  heap w !! l = Some [s] → cs_count s = 1 →
  get_cable (cs_length s) (cable_storage (vessel w)) = Some (section, st) →
  let specs := section_specs (burial_vessel w) kw (cs_extra s) in
  calls_of (trace_of
    (lay_sections (Datatypes.S (Datatypes.S fuel)) d kw c l w)) =
  [(position_onsite, kw); (prep_cable, kw); (pull_in_cable, kw);
   (terminate_cable, kw); (lower_cable, kw);
   (lay_step_of (burial_vessel w) section, specs);
   (prep_cable, kw); (pull_in_cable, kw); (terminate_cable, kw);
   (transit d, kw)].
Proof.
  intros Hp Hs Hl Hn Hg.
  destruct w as [[p q st0] bv tv hp tb]. destruct s as [len n extra].
  simpl in *. subst.
  proc_run. rewrite Hl. proc_run. rewrite Hg. proc_run.
  destruct bv; proc_run; rewrite lookup_insert_eq; done.
Qed.


End Speed.

(** * The action log of the scheduler *)

Section Scheduler.

Lemma earliest_Some ps i tk c :
  earliest ps = Some (i, tk, c) →
  ∃ p, ps !! i = Some p ∧ waiting p = Some (tk, c).
Proof.
  revert i tk c. induction ps as [|p ps IH]; intros i tk c; simpl; [done|].
  destruct (waiting p) as [[tk0 c0]|] eqn:Hw;
    destruct (earliest ps) as [[[j tk1] c1]|] eqn:He.
  - destruct (c0 <=? c1); intros [= <- <- <-]; simpl; eauto.
  - intros [= <- <- <-]; simpl; eauto.
  - intros [= <- <- <-]; simpl; eauto.
  - done.
Qed.

Lemma earliest_None ps :
  earliest ps = None → Forall (λ p, waiting p = None) ps.
Proof.
  induction ps as [|p ps IH]; simpl; [constructor|].
  destruct (waiting p) as [[tk0 c0]|] eqn:Hw;
    destruct (earliest ps) as [[[j tk1] c1]|] eqn:He; try done.
  - by destruct (c0 <=? c1).
  - intros _. constructor; auto.
Qed.

Lemma last_end_cons prev y l :
  last_end prev (y :: l) = last_end (time_end y) l.
Proof.
  unfold last_end. revert prev y.
  induction l as [|z l IH]; intros prev y; [done|].
  change (last (y :: z :: l)) with (last (z :: l)).
  by rewrite (IH prev z), (IH (time_end y) z).
Qed.

Lemma contiguous_snoc prev l x :
  contiguous prev (l ++ [x]) ↔
  contiguous prev l ∧ time_end x = last_end prev l + duration x.
Proof.
  revert prev. induction l as [|y l IH]; intros prev; simpl.
  - unfold last_end. simpl. tauto.
  - rewrite IH.
    rewrite last_end_cons. tauto.
Qed.

Lemma last_end_snoc prev l x : last_end prev (l ++ [x]) = time_end x.
Proof. unfold last_end. by rewrite last_snoc. Qed.

Lemma agent_actions_snoc a l x :
  agent_actions a (l ++ [x]) =
  agent_actions a l ++ (if decide (action_agent x = a) then [x] else []).
Proof.
  unfold agent_actions. rewrite filter_app. f_equal.
Qed.

Lemma start_next_agent t a pl : agent_id (start_next t a pl) = a.
Proof. by destruct pl. Qed.

Lemma sched_step_inv s s' :
  sched_inv s → sched_step s = Some s' → sched_inv s'.
Proof.
  intros (Hnd & Hidle & Hc) Hstep. unfold sched_step in Hstep.
  destruct (earliest (processes s)) as [[[i tk] c]|] eqn:He; [|done].
  destruct (earliest_Some _ _ _ _ He) as (p & Hp & Hw).
  rewrite Hp in Hstep. injection Hstep as <-. unfold sched_inv. simpl.
  assert (map agent_id
            (<[i:=start_next c (agent_id p) (plan p)]> (processes s))
          = map agent_id (processes s)) as Hmap.
  { rewrite list_fmap_insert, start_next_agent.
    apply list_insert_id. by rewrite list_lookup_fmap, Hp. }
  split; [by rewrite Hmap|]. split.
  { apply Forall_insert; [done|]. by destruct (plan p). }
  intros a. rewrite agent_actions_snoc. simpl.
  destruct (Hc a) as [Hca Hwa]. split.
  - destruct (decide (agent_id p = a)) as [Ha|Ha]; [|by rewrite app_nil_r].
    apply contiguous_snoc. split; [done|]. simpl.
    eapply Hwa; eauto. by eapply list_elem_of_lookup_2.
  - intros q tk' c' Hq Hqa Hqw.
    apply list_elem_of_lookup in Hq as [j Hj].
    destruct (decide (i = j)) as [->|Hij].
    + rewrite list_lookup_insert_eq in Hj by (by eapply lookup_lt_Some).
      injection Hj as <-. rewrite start_next_agent in Hqa. subst a.
      rewrite decide_True by done. rewrite last_end_snoc. simpl.
      destruct (plan p) as [|tk0 rest]; simpl in Hqw; [done|].
      by injection Hqw as <- <-.
    + rewrite list_lookup_insert_ne in Hj by done.
      destruct (decide (agent_id p = a)) as [Ha|Ha].
      * exfalso. apply Hij. eapply NoDup_lookup; [exact Hnd| |].
        -- by rewrite list_lookup_fmap, Hp.
        -- rewrite list_lookup_fmap, Hj. simpl. congruence.
      * rewrite app_nil_r. eapply Hwa; eauto.
        by eapply list_elem_of_lookup_2.
Qed.

Lemma sched_run_inv fuel s : sched_inv s → sched_inv (sched_run fuel s).
Proof.
  revert s. induction fuel as [|fuel IH]; intros s Hs; simpl; [done|].
  destruct (sched_step s) as [s'|] eqn:Hstep; [|done].
  apply IH. by eapply sched_step_inv.
Qed.

Lemma sched_start_inv plans :
  NoDup plans.*1 → sched_inv (sched_start plans).
Proof.
  intros Hnd. unfold sched_inv, sched_start. simpl. split; [|split].
  - rewrite <- list_fmap_compose.
    erewrite list_fmap_ext; [exact Hnd|]. intros i [a pl] _. simpl.
    apply start_next_agent.
  - apply Forall_fmap, Forall_forall. intros [a pl] _. simpl. by destruct pl.
  - intros a. split; [done|]. intros p tk c Hp Ha Hw.
    apply list_elem_of_fmap in Hp as ([a' pl] & -> & _). simpl in *.
    destruct pl as [|tk0 rest]; simpl in Hw; [done|].
    injection Hw as <- <-. unfold last_end. simpl. lia.
Qed.

Lemma nonneg_step_inv s s' :
  nonneg_inv s → sched_step s = Some s' → nonneg_inv s'.
Proof.
  intros [Ha Hp] Hstep. unfold sched_step in Hstep.
  destruct (earliest (processes s)) as [[[i tk] c]|] eqn:He; [|done].
  destruct (earliest_Some _ _ _ _ He) as (p & Hpi & Hw).
  rewrite Hpi in Hstep. injection Hstep as <-. unfold nonneg_inv. simpl.
  pose proof (Forall_lookup_1 _ _ _ _ Hp Hpi) as [Hpw Hpp]. split.
  - apply Forall_app. split; [done|]. constructor; [|done]. simpl. eauto.
  - apply Forall_insert; [done|].
    destruct (plan p) as [|tk0 rest]; simpl; [done|].
    apply Forall_cons in Hpp as [H0 Hrest]. split; [|done].
    by intros tk' c' [= <- <-].
Qed.

Lemma nonneg_run_inv fuel s : nonneg_inv s → nonneg_inv (sched_run fuel s).
Proof.
  revert s. induction fuel as [|fuel IH]; intros s Hs; simpl; [done|].
  destruct (sched_step s) as [s'|] eqn:Hstep; [|done].
  apply IH. by eapply nonneg_step_inv.
Qed.

Lemma nonneg_start_inv plans :
  Forall (λ pl, Forall (λ tk, 0 ≤ task_duration tk) pl.2) plans →
  nonneg_inv (sched_start plans).
Proof.
  intros Hpl. split; simpl; [done|].
  apply Forall_fmap. eapply Forall_impl; [exact Hpl|].
  intros [a pl] Hd. simpl in *. destruct pl as [|tk rest]; simpl; [done|].
  apply Forall_cons in Hd as [H0 Hrest]. split; [|done].
  by intros tk' c' [= <- <-].
Qed.

(** Every turn of the scheduler completes exactly one step. *)
Lemma remaining_insert (ps : list process) i p q :
  ps !! i = Some p →
  (remaining (<[i:=q]> ps)
   + ((match waiting p with Some _ => 1 | None => 0 end) + length (plan p))
   = remaining ps
     + ((match waiting q with Some _ => 1 | None => 0 end) + length (plan q)))%nat.
Proof.
  revert i. unfold remaining.
  induction ps as [|p0 ps IH]; intros [|i] Hi; simpl in *; try done.
  - injection Hi as ->. lia.
  - specialize (IH i Hi). lia.
Qed.

Lemma remaining_step s s' :
  sched_step s = Some s' →
  (remaining (processes s') + 1 = remaining (processes s))%nat
  ∧ length (actions s') = Datatypes.S (length (actions s)).
Proof.
  intros Hstep. unfold sched_step in Hstep.
  destruct (earliest (processes s)) as [[[i tk] c]|] eqn:He; [|done].
  destruct (earliest_Some _ _ _ _ He) as (p & Hp & Hw).
  rewrite Hp in Hstep. injection Hstep as <-. simpl. split.
  - pose proof (remaining_insert _ _ _
                  (start_next c (agent_id p) (plan p)) Hp) as Hr.
    rewrite Hw in Hr. destruct (plan p); simpl in *; lia.
  - rewrite length_app. simpl. lia.
Qed.

Lemma remaining_lookup (ps : list process) i p :
  ps !! i = Some p →
  ((match waiting p with Some _ => 1 | None => 0 end) + length (plan p)
   ≤ remaining ps)%nat.
Proof.
  revert i. unfold remaining.
  induction ps as [|p0 ps IH]; intros [|i] Hi; simpl in *; try done.
  - injection Hi as ->. lia.
  - specialize (IH i Hi). lia.
Qed.

Lemma remaining_idle (ps : list process) :
  Forall (λ p, waiting p = None) ps →
  Forall (λ p, waiting p = None → plan p = []) ps →
  remaining ps = 0%nat.
Proof.
  unfold remaining. induction ps as [|p ps IH]; intros Hw Hi; [done|].
  apply Forall_cons in Hw as [Hw Hws]. apply Forall_cons in Hi as [Hi His].
  simpl. rewrite Hw, (Hi Hw), IH; done.
Qed.

Lemma sched_run_finished fuel s :
  sched_inv s →
  (remaining (processes s) ≤ fuel)%nat →
  sched_step (sched_run fuel s) = None
  ∧ (length (actions (sched_run fuel s))
     = length (actions s) + remaining (processes s))%nat.
Proof.
  revert s. induction fuel as [|fuel IH]; intros s Hs Hr; simpl.
  - assert (remaining (processes s) = 0%nat) as H0 by lia.
    split; [|lia]. unfold sched_step.
    destruct (earliest (processes s)) as [[[i tk] c]|] eqn:He; [|done].
    destruct (earliest_Some _ _ _ _ He) as (p & Hp & Hw). exfalso.
    pose proof (remaining_lookup _ _ _ Hp) as Hi. rewrite Hw in Hi. lia.
  - destruct (sched_step s) as [s'|] eqn:Hstep.
    + destruct (remaining_step _ _ Hstep) as [H1 H2].
      destruct (IH s') as [H3 H4]; [by eapply sched_step_inv|lia|].
      split; [done|lia].
    + split; [done|].
      unfold sched_step in Hstep.
      destruct (earliest (processes s)) as [[[i tk] c]|] eqn:He.
      * destruct (earliest_Some _ _ _ _ He) as (p & Hp & Hw).
        by rewrite Hp in Hstep.
      * apply earliest_None in He. destruct Hs as (_ & Hidle & _).
        rewrite (remaining_idle _ He Hidle). lia.
Qed.

Lemma remaining_start plans :
  remaining (processes (sched_start plans)) = total_steps plans.
Proof.
  unfold remaining, total_steps, sched_start. simpl.
  induction plans as [|[a pl] plans IH]; simpl; [done|].
  rewrite IH. by destruct pl.
Qed.

(** What contiguity says about neighbours in the list. *)
Lemma contiguous_lookup prev l :
  contiguous prev l → Forall (λ x, 0 ≤ duration x) l →
  (∀ x, l !! 0%nat = Some x → time_end x = prev + duration x)
  ∧ (∀ i x y, l !! i = Some x → l !! Datatypes.S i = Some y →
       time_end y = time_end x + duration y ∧ time_end x ≤ time_end y).
Proof.
  revert prev. induction l as [|z l IH]; intros prev Hc Hn; simpl in *.
  - split; intros; done.
  - destruct Hc as [Hz Hc]. apply Forall_cons in Hn as [Hnz Hn].
    destruct (IH _ Hc Hn) as [IH0 IHS]. split.
    + by intros x [= <-].
    + intros [|i] x y Hx Hy; simpl in *.
      * injection Hx as <-. rewrite (IH0 y Hy).
        pose proof (Forall_lookup_1 _ _ _ _ Hn Hy) as Hd. simpl in Hd.
        split; lia.
      * eauto.
Qed.

(** The log of the example plans, in order of completion. *)
Example simulate_example_plans :
  map (λ x, (time_end x, duration x, action_agent x, action_name x))
    (actions (simulate example_plans))
  = [(2, 2, "Feeder", "Load"); (5, 5, "WTIV", "Transit");
     (7, 5, "Feeder", "Transit"); (8, 3, "WTIV", "Attach Tower");
     (8, 0, "WTIV", "Attach Nacelle")].
Proof. by vm_compute. Qed.


End Scheduler.

(** * The project manager *)

Section Manager.

Lemma first_action_starts_at_zero plans x rest :
  NoDup plans.*1 →
  actions (simulate plans) = x :: rest →
  time_end x = duration x.
Proof.
  intros Hnd Hx.
  pose proof (sched_run_inv (total_steps plans) _ (sched_start_inv plans Hnd))
    as (_ & _ & Hc).
  fold (simulate plans) in Hc.
  destruct (Hc (action_agent x)) as [Hca _]. rewrite Hx in Hca.
  unfold agent_actions in Hca. rewrite filter_cons_True in Hca by done.
  destruct Hca as [Hca _]. lia.
Qed.

Lemma logged_start_run_phase_at origin start plans :
  NoDup plans.*1 → (0 < total_steps plans)%nat →
  logged_start (run_phase_at origin start plans)
  = Some (start_offset origin start).
Proof.
  intros Hnd Hpos.
  destruct (sched_run_finished (total_steps plans) (sched_start plans)
              (sched_start_inv plans Hnd)) as [_ Hlen];
    [by rewrite remaining_start|].
  fold (simulate plans) in Hlen. rewrite remaining_start in Hlen.
  simpl in Hlen. unfold run_phase_at.
  destruct (actions (simulate plans)) as [|x rest] eqn:Hx;
    [simpl in Hlen; lia|].
  simpl. rewrite (first_action_starts_at_zero plans x rest Hnd Hx).
  f_equal. lia.
Qed.

Example toordinal_2010_03_01 :
  toordinal {| year := 2010; month := 3; day := 1 |} = 733832
  ∧ toordinal {| year := 2010; month := 5; day := 1 |}
    - toordinal {| year := 2010; month := 3; day := 1 |} = 61.
Proof. by vm_compute. Qed.


Lemma strip_suffix_no_separator name :
  no_separator name = true → strip_suffix name = name.
Proof.
  induction name as [|c name IH]; simpl; [done|].
  intros [Hc Hn]%andb_prop. apply negb_true_iff in Hc. rewrite Hc.
  by rewrite IH.
Qed.

Lemma strip_suffix_app name sep suffix :
  no_separator name = true → is_separator sep = true →
  strip_suffix (name +:+ String sep suffix) = name.
Proof.
  intros Hn Hs. induction name as [|c name IH]; simpl in *.
  - by rewrite Hs.
  - apply andb_prop in Hn as [Hc Hn]. apply negb_true_iff in Hc.
    rewrite Hc. by rewrite IH.
Qed.

(** C7: a registered phase class name resolves to its class, and so does
    the name followed by a separator and a suffix; a name whose
    normalisation is not registered, such as a registered name with a
    word put before it, is a phase-not-found error. *)
Theorem C7_phase_name_resolution {P} (phase_dict : gmap string P) name p :
  phase_dict !! name = Some p → no_separator name = true →
  find_key_match phase_dict name = Some p
  ∧ (∀ sep suffix, is_separator sep = true →
       get_phase_class phase_dict (name +:+ String sep suffix) = inr p)
  ∧ (∀ target, phase_dict !! strip_suffix target = None →
       get_phase_class phase_dict target = inl (PhaseNotFound target))
  ∧ (∀ word sep, no_separator word = true → is_separator sep = true →
       phase_dict !! word = None →
       get_phase_class phase_dict (word +:+ String sep name)
       = inl (PhaseNotFound (word +:+ String sep name))).
Proof.
  intros Hp Hn. unfold get_phase_class, find_key_match.
  split; [|split; [|split]].
  - by rewrite strip_suffix_no_separator.
  - intros sep suffix Hs. by rewrite strip_suffix_app, Hp.
  - intros target Ht. by rewrite Ht.
  - intros word sep Hw Hs Hnone. by rewrite strip_suffix_app, Hnone.
Qed.

(** The names of [test_find_key_match]. *)
Example find_key_match_tests :
  map (find_key_match example_phase_dict)
    ["TurbineInstallation"; "TurbineInstallation_Test";
     "TurbineInstallation Test"; "TurbineInstallation Test_1";
     "SpecificTurbineInstallation"; "SpecificTurbineInstallation_Test";
     "SpecificTurbineInstallation Test";
     "SpecificTurbineInstallation Test_1";
     "DifferentTurbineInstallation"; "Other TurbineInstallation";
     "Extra Different TurbineInstallation_1"]
  = [Some 2; Some 2; Some 2; Some 2; Some 3; Some 3; Some 3; Some 3;
     None; None; None]%nat.
Proof. by vm_compute. Qed.

(** The start dates of [test_phase_start_dates]. *)
Example start_date_gaps :
  map (λ '(m, t),
         default 0 (logged_start
                      (run_phase_at {| year := 2010; month := 1; day := 1 |}
                         {| year := 2010; month := t; day := 1 |}
                         example_plans))
         - default 0 (logged_start
                        (run_phase_at {| year := 2010; month := 1; day := 1 |}
                           {| year := 2010; month := m; day := 1 |}
                           example_plans)))
    [(3, 3); (3, 4); (3, 5); (4, 6)]
  = [0; 31 * 24; 61 * 24; 61 * 24].
Proof. by vm_compute. Qed.

End Manager.

(** * The trenching vessel *)

Section Trenching.

Context {S : Type} `{CableStorage S}.
Implicit Types w : world S.

Lemma trench_sections_adrift fuel d kw l w tv :
  trench_vessel w = Some tv → at_port tv = false → at_site tv = false →
  trench_sections (Datatypes.S fuel) d kw l w = trench_sections fuel d kw l w.
Proof.
  intros Ht Hp Hs. simpl. unfold bind at 1, get_trench_vessel at 1.
  rewrite Ht, Hp, Hs. by destruct (trench_sections _ _ _ _ _) as [[t1 w1] r].
Qed.

Lemma lay_sections_adrift fuel d kw c l w :
  at_port (vessel w) = false → at_site (vessel w) = false →
  lay_sections (Datatypes.S fuel) d kw c l w = lay_sections fuel d kw c l w.
Proof.
  intros Hp Hs. simpl. unfold bind at 1, get at 1. simpl. rewrite Hp, Hs.
  by destruct (lay_sections _ _ _ _ _ _) as [[t1 w1] r].
Qed.

(** The trenching loop is left through its [except IndexError] handler
    only: when it returns, the list of sections is empty. *)
Lemma trench_sections_empties fuel d kw l w :
  outcome_of (trench_sections fuel d kw l w) = Returned tt →
  default [] (heap (world_of (trench_sections fuel d kw l w)) !! l) = [].
Proof.
  revert w. induction fuel as [|fuel IH]; intros w; [done|].
  destruct (trench_vessel w) as [tv|] eqn:Ht.
  2:{ simpl. unfold bind, get_trench_vessel. by rewrite Ht. }
  destruct (at_port tv) eqn:Hp.
  { rewrite (trench_sections_at_port _ _ _ _ _ tv) by done.
    rewrite outcome_of_bind, world_of_bind, trench_transit_to_site_run.
    apply IH. }
  destruct (at_site tv) eqn:Hs.
  2:{ rewrite (trench_sections_adrift _ _ _ _ _ tv) by done. apply IH. }
  destruct (heap w !! l) as [[|s rest]|] eqn:Hl.
  - rewrite (trench_sections_no_section _ _ _ _ _ tv) by (by rewrite ?Hl).
    rewrite trench_transit_to_port_run. intros _.
    unfold world_of. simpl. by rewrite Hl.
  - rewrite (trench_sections_next_section _ _ _ _ _ tv s rest) by done.
    unfold for_range.
    rewrite outcome_of_bind, world_of_bind, for_repeat_emit. apply IH.
  - rewrite (trench_sections_no_section _ _ _ _ _ tv) by (by rewrite ?Hl).
    rewrite trench_transit_to_port_run. intros _.
    unfold world_of. simpl. by rewrite Hl.
Qed.

Lemma trench_one_cable_empties fuel d kw l w :
  outcome_of (trench_one_cable fuel d kw l w) = Returned tt →
  default [] (heap (world_of (trench_one_cable fuel d kw l w)) !! l) = [].
Proof.
  unfold trench_one_cable.
  rewrite !outcome_of_bind, !world_of_bind. simpl.
  set (w1 := world_of (set_vessel (set_cable_storage reset) w)).
  pose proof (trench_sections_empties fuel d kw l w1) as He.
  destruct (outcome_of (trench_sections fuel d kw l w1)) as [[]| |];
    [|done|done].
  intros _. by apply He.
Qed.

(** After the trenching loop over [cable_data], every list of sections of
    [cable_data] is empty. *)
Lemma trench_all_empties fuel d kw (cable_data : list (Cable * loc)) w :
  let r := for_each cable_data (λ '(cable, sections),
             trench_one_cable fuel d kw sections) w in
  outcome_of r = Returned tt →
  Forall (λ cs, default [] (heap (world_of r) !! cs.2) = []) cable_data.
Proof.
  revert w. induction cable_data as [|[c l] cd IH]; intros w; simpl.
  { intros _. constructor. }
  rewrite outcome_of_bind, world_of_bind.
  pose proof (trench_one_cable_empties fuel d kw l w) as He.
  destruct (outcome_of (trench_one_cable fuel d kw l w)) as [[]| |];
    [|done|done].
  intros Hr. specialize (IH _ Hr). constructor; [|exact IH]. simpl.
  set (w1 := world_of (trench_one_cable fuel d kw l w)) in *.
  assert (sat shrink_rel
            (for_each cd (λ '(cable, sections),
               trench_one_cable fuel d kw sections))) as Hs.
  { apply sat_for_each with (P := λ _, True);
      [exact shrink_rel_refl|exact shrink_rel_trans| |
       by apply Forall_forall].
    intros [c' l'] _. apply shrink_trench_one_cable. }
  specialize (Hs w1 l). rewrite (He eq_refl) in Hs. simpl in Hs.
  apply nil_length_inv. lia.
Qed.

(** On an empty list of sections the installation vessel sails out and
    back and lays nothing. *)
Lemma lay_sections_idle fuel d kw c l w :
  default [] (heap w !! l) = [] →
  let r := lay_sections fuel d kw c l w in
  idle_rel w (trace_of r) (world_of r) ∧ heap (world_of r) = heap w.
Proof.
  revert w. induction fuel as [|fuel IH]; intros w Hl; [done|].
  destruct (at_port (vessel w)) eqn:Hp.
  { rewrite lay_sections_at_port by done. simpl.
    rewrite (bind_run_returned _ _ _ _ _ _
               (load_and_transit_to_site_run d kw c w)).
    rewrite trace_of_mk, world_of_mk.
    set (w1 := with_vessel (set_at_site true) _).
    destruct (IH w1 Hl) as [Hi Hh]. split; [|by rewrite Hh].
    apply (idle_rel_trans w _ w1); [done|exact Hi]. }
  destruct (at_site (vessel w)) eqn:Hs.
  - rewrite lay_sections_no_section by done. by rewrite transit_to_port_run.
  - rewrite lay_sections_adrift by done. by apply IH.
Qed.

Lemma install_one_cable_idle fuel d kw c l w :
  default [] (heap w !! l) = [] →
  let r := install_one_cable fuel d kw c l w in
  idle_rel w (trace_of r) (world_of r) ∧ heap (world_of r) = heap w.
Proof.
  intros Hl. unfold install_one_cable. simpl.
  set (w1 := with_vessel (set_cable_storage reset) w).
  rewrite (bind_run_returned (set_vessel (set_cable_storage reset)) _
             w [] w1 tt eq_refl).
  rewrite trace_of_mk, world_of_mk, app_nil_l.
  rewrite trace_of_bind, world_of_bind.
  destruct (lay_sections_idle fuel d kw c l w1 Hl) as [Hi Hh].
  assert (idle_rel w [] w1) as H0 by done.
  destruct (outcome_of (lay_sections fuel d kw c l w1)) as [[]| |].
  - rewrite transit_to_port_run, trace_of_mk, world_of_mk.
    split; [|simpl; by rewrite Hh].
    apply (idle_rel_trans w [] w1); [done|].
    eapply idle_rel_trans; [exact Hi|]. done.
  - split; [|by rewrite Hh]. by apply (idle_rel_trans w [] w1).
  - split; [|by rewrite Hh]. by apply (idle_rel_trans w [] w1).
Qed.

Lemma install_all_idle fuel d kw (cable_data : list (Cable * loc)) w :
  Forall (λ cs, default [] (heap w !! cs.2) = []) cable_data →
  let r := for_each cable_data (λ '(cable, sections),
             install_one_cable fuel d kw cable sections) w in
  idle_rel w (trace_of r) (world_of r).
Proof.
  revert w. induction cable_data as [|[c l] cd IH]; intros w Hcd; simpl.
  { done. }
  apply Forall_cons in Hcd as [Hl Hcd]. simpl in Hl.
  rewrite trace_of_bind, world_of_bind.
  destruct (install_one_cable_idle fuel d kw c l w Hl) as [Hi Hh].
  destruct (outcome_of (install_one_cable fuel d kw c l w)) as [[]| |];
    [|done|done].
  eapply idle_rel_trans; [exact Hi|]. apply IH. by rewrite Hh.
Qed.

(** With a trenching vessel the installation vessel lays nothing,
    whatever the cables, the fuel and the outcome. *)
Lemma install_array_cables_trenched fuel d kw cable_data w :
  is_Some (trench_vessel w) →
  let r := install_array_cables fuel d cable_data kw w in
  laid_and_buried (trace_of r) = [] ∧ laid (trace_of r) = [].
Proof.
  intros [tv Htv]. simpl. unfold install_array_cables.
  rewrite trace_of_bind.
  rewrite (outcome_of_bind get), (trace_of_bind get), (world_of_bind get).
  change (outcome_of (get w)) with (Returned w).
  change (trace_of (get w)) with (@nil event).
  change (world_of (get w)) with w.
  cbv iota beta. rewrite Htv. rewrite app_nil_l.
  set (r1 := for_each cable_data _ w).
  pose proof (idle_trench_all fuel d kw cable_data w) as (_ & Hlb1 & Hl1 & _).
  pose proof (trench_all_empties fuel d kw cable_data w) as Hempty.
  fold r1 in Hlb1, Hl1, Hempty. simpl in Hempty.
  destruct (outcome_of r1) as [[]| |]; [|done|done].
  specialize (Hempty eq_refl).
  rewrite trace_of_bind. simpl.
  rewrite trace_of_bind.
  set (w2 := world_of (set_to_bury (λ _, []) (world_of r1))).
  pose proof (install_all_idle fuel d kw cable_data w2 Hempty)
    as (_ & Hlb3 & Hl3 & _). simpl in Hlb3, Hl3.
  set (r3 := for_each cable_data _ w2) in *.
  unfold laid_and_buried, laid in *.
  destruct (outcome_of r3) as [[]| |].
  - rewrite trace_of_bind. simpl.
    change (world_of (get (world_of r3))) with (world_of r3).
    rewrite !omap_app, Hlb1, Hl1, Hlb3, Hl3.
    by destruct (burial_vessel (world_of r3)).
  - by rewrite !omap_app, Hlb1, Hl1, Hlb3, Hl3.
  - by rewrite !omap_app, Hlb1, Hl1, Hlb3, Hl3.
Qed.

Lemma setup_simulation_trenched fuel (cfg : config S) kw h :
  is_Some (array_cable_trench_vessel cfg) →
  let r := setup_simulation fuel cfg kw h in
  laid_and_buried (trace_of r) = [] ∧ laid (trace_of r) = [].
Proof.
  intros [tv Htv]. simpl.
  destruct (setup_simulation_run fuel cfg kw h) as (cd & hp & -> & _).
  apply install_array_cables_trenched. simpl. rewrite Htv. by eexists.
Qed.

(** The trenching process, as [install_array_cables] calls it, fails on
    its first line. *)
Lemma dig_array_cables_trench_number x kw w :
  dig_array_cables_trench (PyNumber x) kw w = ([], w, Raised TypeError).
Proof. reflexivity. Qed.


End Trenching.

(** * The theorems on the example data *)

Section Examples.


Lemma C3_witness :
  (load_cable_on_vessel example_cable,
   {| snap_install := (true, false); snap_burial := Some (true, false);
      snap_trench := None |})
    ∈ suspensions (trace_of
        (setup_simulation 10 (example_config true false) ∅ example_heap))
  ∧ flags_ok (true, false) = true.
Proof.
  assert ((load_cable_on_vessel example_cable,
           {| snap_install := (true, false); snap_burial := Some (true, false);
              snap_trench := None |})
            ∈ suspensions (trace_of
                (setup_simulation 10 (example_config true false) ∅
                   example_heap))) as Hin.
  { apply list_elem_of_lookup_2 with 0%nat. reflexivity. }
  split; [exact Hin|].
  exact (proj1 (proj1 (C3_exactly_one_location_flag (S:=ResourcePool)
                         10 (example_config true false) ∅ example_heap)
                  _ _ Hin eq_refl)).
Defined.

Lemma C2_witness :
  steps_of (trace_of
    (setup_simulation 3 (example_config false false) ∅ scenario_A_heap)) =
  [(install_vessel, load_cable_on_vessel example_cable); (install_vessel, transit 50);
   (install_vessel, position_onsite); (install_vessel, prep_cable);
   (install_vessel, pull_in_cable); (install_vessel, terminate_cable);
   (install_vessel, lower_cable); (install_vessel, lay_bury_cable 4);
   (install_vessel, prep_cable); (install_vessel, pull_in_cable);
   (install_vessel, terminate_cable);
   (install_vessel, transit 50); (install_vessel, transit 50)]
  ∧ outcome_of
      (setup_simulation 3 (example_config false false) ∅ scenario_A_heap)
    = Returned tt
  ∧ at_port (vessel (world_of
      (setup_simulation 3 (example_config false false) ∅ scenario_A_heap)))
    = true
  ∧ at_site (vessel (world_of
      (setup_simulation 3 (example_config false false) ∅ scenario_A_heap)))
    = false.
Proof.
  exact (proj1 (proj2 (C2_laying_procedure_and_scenario_A (S:=ResourcePool)))
           0%nat (example_config false false) ∅ scenario_A_heap
           "XLPE_630mm_33kV"
           {| cfg_linear_density := 42; cfg_cable_sections := 1%positive |}
           4 [] 4 {| capacity := 10; level := 6 |}
           eq_refl eq_refl eq_refl eq_refl eq_refl).
Defined.



Lemma C7_witness :
  find_key_match example_phase_dict "TurbineInstallation" = Some 2%nat
  ∧ get_phase_class example_phase_dict "TurbineInstallation_Test" = inr 2%nat
  ∧ get_phase_class example_phase_dict "TurbineInstallation Test_1"
    = inr 2%nat
  ∧ get_phase_class example_phase_dict "IncorrectPhaseName"
    = inl (PhaseNotFound "IncorrectPhaseName")
  ∧ get_phase_class example_phase_dict "Other TurbineInstallation"
    = inl (PhaseNotFound "Other TurbineInstallation").
Proof.
  pose proof (C7_phase_name_resolution example_phase_dict
                "TurbineInstallation" 2%nat eq_refl eq_refl)
    as (H1 & H2 & H3 & H4).
  split; [exact H1|].
  split; [exact (H2 "_"%char "Test" eq_refl)|].
  split; [exact (H2 " "%char "Test_1" eq_refl)|].
  split; [exact (H3 "IncorrectPhaseName" eq_refl)|].
  exact (H4 "Other" " "%char eq_refl eq_refl eq_refl).
Defined.


Lemma C9_witness :
  1%positive ∈ dom example_heap
  ∧ heap (world_of
            (setup_simulation 10 (example_config false false) ∅ example_heap))
      !! 1%positive = Some example_sections.
Proof.
  assert (1%positive ∈ dom example_heap) as H1.
  { apply elem_of_dom. by eexists. }
  split; [exact H1|].
  exact (C9_configuration_not_mutated (S:=ResourcePool) 10
           (example_config false false) ∅ example_heap 1%positive H1).
Defined.


End Examples.

(** * Further properties of the processes *)

(** ** A vessel with neither flag set *)

Section Adrift.
Context {S : Type} `{CableStorage S}.
Implicit Types w : world S.

(** X1: the [while True] loops have a branch for [at_port] and one for
    [at_site] and no other: with neither flag set, the loop of the
    installation vessel and the loop of the trenching vessel go round
    without suspending, changing nothing, whatever the fuel. *)
Theorem X1_loops_hang_with_no_flag_set fuel d kw c l w :
  (at_port (vessel w) = false → at_site (vessel w) = false →
   lay_sections fuel d kw c l w = ([], w, Spinning))
  ∧ (∀ tv, trench_vessel w = Some tv →
       at_port tv = false → at_site tv = false →
       trench_sections fuel d kw l w = ([], w, Spinning)).
Proof.
  split.
  - intros Hp Hs. induction fuel as [|fuel IH]; [done|].
    by rewrite lay_sections_adrift.
  - intros tv Ht Hp Hs. induction fuel as [|fuel IH]; [done|].
    by rewrite (trench_sections_adrift _ _ _ _ _ tv).
Qed.

End Adrift.

Lemma X1_witness :
  lay_sections 1000 50 ∅ example_cable 1%positive (adrift_world example_heap)
  = ([], adrift_world example_heap, Spinning)
  ∧ trench_sections 1000 50 ∅ 1%positive (adrift_world example_heap)
    = ([], adrift_world example_heap, Spinning).
Proof.
  pose proof (X1_loops_hang_with_no_flag_set (S:=ResourcePool)
                1000 50 ∅ example_cable 1%positive
                (adrift_world example_heap)) as [Ha Hb].
  split; [exact (Ha eq_refl eq_refl)|].
  exact (Hb _ eq_refl eq_refl eq_refl).
Defined.

(** ** The trenching process *)

Section Digging.
Context {S : Type} `{CableStorage S}.
Implicit Types w : world S.

(** X2: given a list of sections, [dig_array_cables_trench] positions the
    trenching vessel (with [site_position_time=2]) and digs, once per
    entry and in order, leaves the state as it is and returns; given a
    number, as [install_array_cables] calls it, it raises [TypeError]
    before any step. *)
Theorem X2_dig_array_cables_trench sections kw w :
  (let r := dig_array_cables_trench (PyList sections) kw w in
   steps_of (trace_of r) = trench_steps sections
   ∧ calls_of (trace_of r) =
       flat_map (λ x, [(position_onsite, {["site_position_time" := 2]});
                       (dig_trench x, kw)]) sections
   ∧ world_of r = w
   ∧ outcome_of r = Returned tt)
  ∧ (∀ x, dig_array_cables_trench (PyNumber x) kw w
          = ([], w, Raised TypeError)).
Proof.
  split; [|done]. simpl.
  set (body := λ length : Z,
    (yield trench_vessel_agent position_onsite {["site_position_time" := 2]} >>
     yield trench_vessel_agent (dig_trench length) kw)%proc).
  assert (∀ w, steps_of (trace_of (for_each sections body w))
               = trench_steps sections
             ∧ calls_of (trace_of (for_each sections body w)) =
                 flat_map (λ x, [(position_onsite,
                                  {["site_position_time" := 2]});
                                 (dig_trench x, kw)]) sections
             ∧ world_of (for_each sections body w) = w
             ∧ outcome_of (for_each sections body w) = Returned tt) as Hloop.
  { clear w. induction sections as [|x sections IH]; intros w; simpl; [done|].
    rewrite (bind_run_returned (body x) _ w
               [Yield trench_vessel_agent position_onsite
                  {["site_position_time" := 2]} (snap w);
                Yield trench_vessel_agent (dig_trench x) kw (snap w)]
               w tt eq_refl).
    rewrite trace_of_mk, world_of_mk, outcome_of_mk.
    destruct (IH w) as (IH1 & IH2 & IH3 & IH4).
    unfold steps_of, calls_of in *. rewrite !omap_app, IH1, IH2. done. }
  destruct (Hloop w) as (H1 & H2 & H3 & H4).
  rewrite trace_of_bind, world_of_bind, outcome_of_bind, H4, H3.
  unfold steps_of, calls_of in *. rewrite !omap_app, H1, H2. simpl.
  by rewrite !app_nil_r.
Qed.

End Digging.

(** ** The fuel does not matter once it is enough *)

Section Fuel.
Context {S : Type} `{CableStorage S}.
Implicit Types w : world S.

Lemma fuel_mono_refl {A} (m : proc S A) : fuel_mono m m.
Proof. by intros w _. Qed.

Lemma fuel_mono_bind {A B} (m1 m2 : proc S A) (k1 k2 : A → proc S B) :
  fuel_mono m1 m2 → (∀ a, fuel_mono (k1 a) (k2 a)) →
  fuel_mono (bind m1 k1) (bind m2 k2).
Proof.
  intros Hm Hk w Hns. rewrite outcome_of_bind in Hns.
  unfold bind. rewrite (Hm w) by (by destruct (outcome_of (m1 w))).
  destruct (m1 w) as [[t1 w1] [a|e|]]; simpl in *; try done.
  by rewrite (Hk a w1).
Qed.

Lemma fuel_mono_for_each {A} (l : list A) (b1 b2 : A → proc S unit) :
  (∀ x, fuel_mono (b1 x) (b2 x)) →
  fuel_mono (for_each l b1) (for_each l b2).
Proof.
  intros Hb. induction l as [|x l IH]; simpl; [apply fuel_mono_refl|].
  apply fuel_mono_bind; [apply Hb|]. intros _. exact IH.
Qed.

Lemma fuel_mono_lay_sections fuel d kw c l :
  fuel_mono (lay_sections fuel d kw c l)
            (lay_sections (Datatypes.S fuel) d kw c l).
Proof.
  induction fuel as [|fuel IH]; [by intros w Hns|].
  change (lay_sections (Datatypes.S (Datatypes.S fuel)) d kw c l) with
    (let* w := get in
     if at_port (vessel w) then
       load_and_transit_to_site d kw c >>
       lay_sections (Datatypes.S fuel) d kw c l
     else if at_site (vessel w) then
       let* r :=
         catch IndexError
           (let* s := pop0 l in
            ret (Some (cs_length s, cs_count s,
                       section_specs (burial_vessel w) kw (cs_extra s))))
           (transit_to_port d kw >> ret None) in
       match r with
       | None => ret tt
       | Some (length, num_sections, specs) =>
           for_range num_sections (lay_section d kw c length specs) >>
           lay_sections (Datatypes.S fuel) d kw c l
       end
     else lay_sections (Datatypes.S fuel) d kw c l)%proc.
  simpl. apply fuel_mono_bind; [apply fuel_mono_refl|]. intros w.
  destruct (at_port (vessel w)).
  { apply fuel_mono_bind; [apply fuel_mono_refl|]. intros _. exact IH. }
  destruct (at_site (vessel w)); [|exact IH].
  apply fuel_mono_bind; [apply fuel_mono_refl|].
  intros [[[len n] specs]|]; [|apply fuel_mono_refl].
  apply fuel_mono_bind; [apply fuel_mono_refl|]. intros _. exact IH.
Qed.

Lemma fuel_mono_trench_sections fuel d kw l :
  fuel_mono (S:=S) (trench_sections fuel d kw l)
            (trench_sections (Datatypes.S fuel) d kw l).
Proof.
  induction fuel as [|fuel IH]; [by intros w Hns|].
  change (trench_sections (Datatypes.S (Datatypes.S fuel)) d kw l) with
    (let* tv := get_trench_vessel (S:=S) in
     if at_port tv then
       trench_transit_to_site d kw >>
       trench_sections (Datatypes.S fuel) d kw l
     else if at_site tv then
       let* stop :=
         catch IndexError
           (let* s := pop0 l in
            for_range (cs_count s)
              (emit (Spawn (dig_array_cables_trench_call (cs_length s) kw))) >>
            ret false)
           (trench_transit_to_port d kw >> ret true) in
       if stop : bool then ret tt
       else trench_sections (Datatypes.S fuel) d kw l
     else trench_sections (Datatypes.S fuel) d kw l)%proc.
  simpl. apply fuel_mono_bind; [apply fuel_mono_refl|]. intros tv.
  destruct (at_port tv).
  { apply fuel_mono_bind; [apply fuel_mono_refl|]. intros _. exact IH. }
  destruct (at_site tv); [|exact IH].
  apply fuel_mono_bind; [apply fuel_mono_refl|].
  intros [|]; [apply fuel_mono_refl|exact IH].
Qed.

Lemma fuel_mono_install_array_cables fuel d kw cable_data :
  fuel_mono (install_array_cables fuel d cable_data kw)
            (install_array_cables (Datatypes.S fuel) d cable_data kw).
Proof.
  unfold install_array_cables.
  apply fuel_mono_bind.
  { apply fuel_mono_bind; [apply fuel_mono_refl|]. intros w.
    destruct (trench_vessel w); [|apply fuel_mono_refl].
    apply fuel_mono_for_each. intros [c l]. unfold trench_one_cable.
    apply fuel_mono_bind; [apply fuel_mono_refl|]. intros _.
    apply fuel_mono_bind; [apply fuel_mono_trench_sections|]. intros _.
    apply fuel_mono_refl. }
  intros _. apply fuel_mono_bind; [apply fuel_mono_refl|]. intros _.
  apply fuel_mono_bind; [|intros _; apply fuel_mono_refl].
  apply fuel_mono_for_each. intros [c l]. unfold install_one_cable.
  apply fuel_mono_bind; [apply fuel_mono_refl|]. intros _.
  apply fuel_mono_bind; [apply fuel_mono_lay_sections|]. intros _.
  apply fuel_mono_refl.
Qed.

Lemma setup_simulation_more_fuel fuel (cfg : config S) kw h n :
  outcome_of (setup_simulation fuel cfg kw h) ≠ Spinning →
  setup_simulation (n + fuel) cfg kw h = setup_simulation fuel cfg kw h.
Proof.
  intros Hns. induction n as [|n IH]; [done|].
  rewrite <- IH. simpl. unfold setup_simulation.
  apply (fuel_mono_bind (build_cable_data (array_system_cables cfg))
           (build_cable_data (array_system_cables cfg))).
  - apply fuel_mono_refl.
  - intros cd. apply fuel_mono_install_array_cables.
  - fold (setup_simulation (n + fuel) cfg kw h). by rewrite IH.
Qed.

(** X3: the phase comes to an end.  With vessels initialised at port and
    at least two more units of fuel than the longest list of sections,
    no [while True] loop runs out of fuel, and any larger fuel gives the
    same trace, the same final state and the same outcome. *)
Theorem X3_phase_terminates fuel (cfg : config S) kw h :
  (2 ≤ fuel)%nat →
  map_Forall (λ _ l, (length l + 2 ≤ fuel)%nat) h →
  outcome_of (setup_simulation fuel cfg kw h) ≠ Spinning
  ∧ ∀ fuel', (fuel ≤ fuel')%nat →
      setup_simulation fuel' cfg kw h = setup_simulation fuel cfg kw h.
Proof.
  intros Hfuel Hh.
  pose proof (setup_simulation_terminates fuel cfg kw h Hfuel Hh) as Hns.
  split; [done|]. intros fuel' Hle.
  replace fuel' with ((fuel' - fuel) + fuel)%nat by lia.
  by apply setup_simulation_more_fuel.
Qed.

End Fuel.

Lemma X3_witness :
  outcome_of (setup_simulation 4 (example_config true true) ∅ example_heap)
    ≠ Spinning
  ∧ setup_simulation 10 (example_config true true) ∅ example_heap
    = setup_simulation 4 (example_config true true) ∅ example_heap.
Proof.
  assert (2 ≤ 4)%nat as H1 by lia.
  assert (map_Forall (λ _ l, (length l + 2 ≤ 4)%nat) example_heap) as H2.
  { apply map_Forall_singleton. simpl. lia. }
  pose proof (X3_phase_terminates (S:=ResourcePool) 4
                (example_config true true) ∅ example_heap H1 H2) as [Ha Hb].
  split; [exact Ha|]. apply Hb. lia.
Defined.

(** ** Who acts *)

Section Acting.
Context {S : Type} `{CableStorage S}.
Implicit Types w : world S.

Lemma acting_rel_refl w : acting_rel w [] w.
Proof. constructor. Qed.

Lemma acting_rel_trans w1 t1 w2 t2 w3 :
  acting_rel w1 t1 w2 → acting_rel w2 t2 w3 → acting_rel w1 (t1 ++ t2) w3.
Proof. unfold acting_rel. intros H1 H2. by apply Forall_app. Qed.

Ltac acting_events :=
  unfold acting_rel, trace_of; simpl;
  repeat (constructor;
          [simpl; first [done | by left; split; [|intros; split] | by right]|]);
  try constructor.

Lemma acting_lay_section d kw c len specs :
  sat acting_rel (lay_section d kw c len specs).
Proof.
  intros [[p q st] bv tv hp tb]. proc_run.
  destruct (get_cable len st) as [[x st1]|]; proc_run;
    [|destruct (get_cable len (load_cable c st)) as [[x st2]|]; proc_run];
    destruct bv; acting_events.
Qed.

(** X4: in [install_array_cables] the installation vessel never buries a
    laid cable and never digs, the trenching vessel only sails, and the
    burial vessel does not act at all; burying and digging are left to
    the processes it starts. *)
Theorem X4_who_acts fuel (cfg : config S) kw h :
  Forall acting_ok (trace_of (setup_simulation fuel cfg kw h)).
Proof.
  destruct (setup_simulation_run fuel cfg kw h) as (cd & hp & -> & _).
  apply (sat_install_array_cables acting_rel) with (L := λ _, True);
    first
      [ exact acting_rel_refl | exact acting_rel_trans
      | exact acting_lay_section
      | by apply Forall_forall
      | intros; intros w; unfold pop0; proc_run;
        destruct (default [] (heap w !! _)); acting_events
      | intros; intros w; destruct w as [[p q st] bv [tv|] hp' tb];
        proc_run; acting_events ].
Qed.

End Acting.

(** ** Where the vessels are when the phase is over *)

Section Returned.
Context {S : Type}.
Implicit Types w : world S.

(** A sequence that returns: both parts returned. *)
Lemma bind_returned_inv {A B} (m : proc S A) (k : A → proc S B) w b :
  outcome_of (bind m k w) = Returned b →
  ∃ a, outcome_of (m w) = Returned a
       ∧ outcome_of (k a (world_of (m w))) = Returned b
       ∧ trace_of (bind m k w) = trace_of (m w) ++ trace_of (k a (world_of (m w)))
       ∧ world_of (bind m k w) = world_of (k a (world_of (m w))).
Proof.
  rewrite outcome_of_bind, trace_of_bind, world_of_bind.
  destruct (outcome_of (m w)) as [a| |]; [|done|done].
  intros Hk. by exists a.
Qed.

End Returned.

Section BackAtPort.
Context {S : Type} `{CableStorage S}.
Implicit Types w : world S.

Lemma bystander_rel_refl w : bystander_rel w [] w.
Proof. done. Qed.

Lemma bystander_rel_trans w1 t1 w2 t2 w3 :
  bystander_rel w1 t1 w2 → bystander_rel w2 t2 w3 →
  bystander_rel w1 (t1 ++ t2) w3.
Proof. unfold bystander_rel. intros [? ?] [? ?]. split; congruence. Qed.

Lemma bystander_install_array_cables fuel d kw cable_data :
  sat bystander_rel (install_array_cables fuel d cable_data kw).
Proof.
  apply sat_install_array_cables with (L := λ _, True);
    first
      [ exact bystander_rel_refl | exact bystander_rel_trans
      | by apply Forall_forall
      | intros; intros w; unfold pop0; proc_run;
        by destruct (default [] (heap w !! _))
      | intros d' kw' c len specs [[p q st] bv tv hp tb]; proc_run;
        destruct (get_cable len st) as [[x st1]|]; proc_run;
        [|destruct (get_cable len (load_cable c st)) as [[x st2]|]; proc_run];
        by destruct bv
      | intros; intros w; destruct w as [[p q st] bv [[p' q' st']|] hp tb];
        proc_run; done ].
Qed.

Lemma trench_kept_rel_refl w : trench_kept_rel w [] w.
Proof. done. Qed.

Lemma trench_kept_rel_trans w1 t1 w2 t2 w3 :
  trench_kept_rel w1 t1 w2 → trench_kept_rel w2 t2 w3 →
  trench_kept_rel w1 (t1 ++ t2) w3.
Proof. unfold trench_kept_rel. congruence. Qed.

Lemma trench_kept_lay_all fuel d kw (cable_data : list (Cable * loc)) :
  sat trench_kept_rel
    (for_each cable_data (λ '(cable, sections),
       install_one_cable fuel d kw cable sections)).
Proof.
  apply sat_lay_all with (L := λ _, True);
    first
      [ exact trench_kept_rel_refl | exact trench_kept_rel_trans
      | by apply Forall_forall
      | intros; intros w; unfold pop0; proc_run;
        by destruct (default [] (heap w !! _))
      | intros d' kw' c len specs [[p q st] bv tv hp tb]; proc_run;
        destruct (get_cable len st) as [[x st1]|]; proc_run;
        [|destruct (get_cable len (load_cable c st)) as [[x st2]|]; proc_run];
        by destruct bv
      | intros; intros w; destruct w as [[p q st] bv tv hp tb];
        proc_run; done ].
Qed.

Lemma trench_one_cable_ends_at_port fuel d kw l w :
  outcome_of (trench_one_cable fuel d kw l w) = Returned tt →
  trench_at_port (world_of (trench_one_cable fuel d kw l w)).
Proof.
  unfold trench_one_cable. intros Hr.
  apply bind_returned_inv in Hr as ([] & _ & Hr & _ & ->).
  apply bind_returned_inv in Hr as ([] & _ & Hr & _ & ->).
  rewrite trench_transit_to_port_run, world_of_mk.
  unfold trench_at_port. simpl.
  by destruct (trench_vessel _).
Qed.

Lemma trench_all_ends_at_port fuel d kw (cable_data : list (Cable * loc)) w :
  let r := for_each cable_data (λ '(cable, sections),
             trench_one_cable fuel d kw sections) w in
  trench_at_port w → outcome_of r = Returned tt → trench_at_port (world_of r).
Proof.
  revert w. induction cable_data as [|[c l] cd IH]; intros w; simpl.
  { done. }
  intros _ Hr.
  apply bind_returned_inv in Hr as ([] & H1 & Hr & _ & ->).
  apply IH; [|done]. by apply trench_one_cable_ends_at_port.
Qed.

Lemma install_array_cables_trench_at_port fuel d kw cable_data w :
  let r := install_array_cables fuel d cable_data kw w in
  trench_at_port w → outcome_of r = Returned tt → trench_at_port (world_of r).
Proof.
  simpl. intros Hw Hr. unfold install_array_cables in *.
  apply bind_returned_inv in Hr as ([] & Ht & Hr & _ & ->).
  apply bind_returned_inv in Hr as ([] & _ & Hr & _ & ->).
  apply bind_returned_inv in Hr as ([] & _ & Hr & _ & ->).
  set (w1 := world_of (bind get _ w)) in *.
  assert (trench_at_port w1) as H1.
  { subst w1. rewrite world_of_bind in *. rewrite outcome_of_bind in Ht.
    change (outcome_of (get w)) with (Returned w) in *.
    change (world_of (get w)) with w in *. cbv iota beta in *.
    destruct (trench_vessel w) eqn:Htv; [|done].
    by apply trench_all_ends_at_port. }
  set (w2 := world_of (set_to_bury (λ _, []) w1)) in *.
  pose proof (trench_kept_lay_all fuel d kw cable_data w2) as Hk.
  set (w3 := world_of (for_each cable_data _ w2)) in *.
  assert (trench_at_port w3) as H3.
  { unfold trench_at_port, trench_kept_rel in *. by rewrite Hk. }
  rewrite world_of_bind.
  change (outcome_of (get w3)) with (Returned w3).
  change (world_of (get w3)) with w3. cbv iota beta.
  by destruct (burial_vessel w3).
Qed.


End BackAtPort.


(** ** The copies of the lists of sections *)

Section Copies.
Context {S : Type} `{CableStorage S}.
Implicit Types w : world S.

Lemma Forall2_and_l {A B} (P : A → Prop) (R : A → B → Prop) l k :
  Forall P l → Forall2 R l k → Forall2 (λ x y, P x ∧ R x y) l k.
Proof.
  intros HP HR. induction HR as [|x y l k Hxy HR IH]; [constructor|].
  apply Forall_cons in HP as [Hx HP]. constructor; [done|by apply IH].
Qed.

Lemma build_cable_data_copies cables w :
  Forall (λ nd : string * cable_config,
            cfg_cable_sections nd.2 ∈ dom (heap w)) cables →
  ∃ cd hp,
    build_cable_data cables w = ([], with_heap hp w, Returned cd)
    ∧ NoDup cd.*2
    ∧ Forall (λ cs : Cable * loc, cs.2 ∉ dom (heap w)) cd
    ∧ Forall2 (λ (nd : string * cable_config) (cs : Cable * loc),
                 linear_density cs.1 = cfg_linear_density nd.2
                 ∧ hp !! cs.2 = heap w !! cfg_cable_sections nd.2)
        cables cd
    ∧ (∀ l, l ∈ dom (heap w) → hp !! l = heap w !! l)
    ∧ (∀ l, l ∈ dom hp → l ∈ dom (heap w) ∨ l ∈ cd.*2).
Proof.
  revert w. induction cables as [|[name data] cables IH]; intros w Hex; simpl.
  - exists [], (heap w). destruct w; repeat split; simpl; auto.
    apply NoDup_nil_2.
  - apply Forall_cons in Hex as [Hl Hex]. simpl in Hl.
    remember (fresh (dom (heap w))) as l' eqn:El'.
    remember (with_heap
                (<[l' := default [] (heap w !! cfg_cable_sections data)]>
                   (heap w)) w) as w1 eqn:Ew1.
    assert (l' ∉ dom (heap w)) as Hl' by (rewrite El'; apply is_fresh).
    assert (heap w1
            = <[l' := default [] (heap w !! cfg_cable_sections data)]>
                (heap w)) as Hw1 by (by rewrite Ew1).
    assert (∀ l, l ∈ dom (heap w1) ↔ l = l' ∨ l ∈ dom (heap w)) as Hdom.
    { intros l. rewrite Hw1, dom_insert, elem_of_union, elem_of_singleton.
      done. }
    destruct (IH w1) as (cd & hp & Hrun & Hnd & Hfresh & Hcopy & Hkeep & Hnew).
    { eapply Forall_impl; [exact Hex|]. intros nd Hnd. apply Hdom.
      by right. }
    assert (Forall (λ cs : Cable * loc, cs.2 ≠ l' ∧ cs.2 ∉ dom (heap w)) cd)
      as Hfresh'.
    { eapply Forall_impl; [exact Hfresh|].
      intros [c l] Hin; simpl in *.
      split; [intros ->|intros Hw]; apply Hin, Hdom; [by left|by right]. }
    exists (({| linear_density := cfg_linear_density data |}, l') :: cd), hp.
    split; [|split; [|split; [|split; [|split]]]].
    + unfold deepcopy. proc_run. rewrite <- El', <- Ew1, Hrun, Ew1.
      by destruct w.
    + simpl. constructor; [|done].
      intros Hin. apply list_elem_of_fmap in Hin as ([c l] & -> & Hin).
      rewrite Forall_forall in Hfresh'. by destruct (Hfresh' _ Hin).
    + constructor; [done|]. eapply Forall_impl; [exact Hfresh'|].
      by intros cs [_ ?].
    + constructor.
      * simpl. split; [done|]. rewrite Hkeep by (apply Hdom; by left).
        rewrite Hw1, lookup_insert_eq.
        apply elem_of_dom in Hl as [ls Hls]. by rewrite Hls.
      * eapply Forall2_impl; [exact (Forall2_and_l _ _ _ _ Hex Hcopy)|].
        intros [name' data'] [c l] [Hin [Hd Hc]]; simpl in *. split; [done|].
        rewrite Hc, Hw1. apply lookup_insert_ne. intros Heq.
        by rewrite <- Heq in Hin.
    + intros l Hin. rewrite Hkeep by (apply Hdom; by right).
      rewrite Hw1, lookup_insert_ne; [done|]. by intros ->.
    + intros l Hin. destruct (Hnew l Hin) as [Hold|Hc].
      * apply Hdom in Hold as [->|Hold]; [right; simpl; by left|by left].
      * right. simpl. by right.
Qed.

End Copies.

(** ** What is laid, and what is dug *)

Section Complete.
Context {S : Type} `{CableStorage S}.
Implicit Types w : world S.

Lemma lay_steps_app t1 t2 : lay_steps (t1 ++ t2) = lay_steps t1 ++ lay_steps t2.
Proof. apply omap_app. Qed.

Lemma dig_calls_app t1 t2 : dig_calls (t1 ++ t2) = dig_calls t1 ++ dig_calls t2.
Proof. apply omap_app. Qed.

Lemma flat_map_ext_Forall {A B} (f g : A → list B) l :
  Forall (λ x, f x = g x) l → flat_map f l = flat_map g l.
Proof.
  induction 1 as [|x l Hx _ IH]; simpl; [done|]. by rewrite Hx, IH.
Qed.

Lemma setup_simulation_copies fuel (cfg : config S) kw h :
  config_lists_exist cfg h →
  ∃ cd hp,
    setup_simulation fuel cfg kw h =
      install_array_cables fuel (site_distance cfg) cd kw
        (with_heap hp (initial_world cfg h))
    ∧ NoDup cd.*2
    ∧ Forall (λ cs : Cable * loc, cs.2 ∉ dom h) cd
    ∧ Forall2 (λ (nd : string * cable_config) (cs : Cable * loc),
                 linear_density cs.1 = cfg_linear_density nd.2
                 ∧ hp !! cs.2 = h !! cfg_cable_sections nd.2)
        (array_system_cables cfg) cd
    ∧ (∀ l, l ∈ dom h → hp !! l = h !! l)
    ∧ (∀ l, l ∈ dom hp → l ∈ dom h ∨ l ∈ cd.*2).
Proof.
  intros Hex.
  destruct (build_cable_data_copies (array_system_cables cfg)
              (initial_world cfg h) Hex) as (cd & hp & Hrun & Hrest).
  exists cd, hp. split; [|exact Hrest].
  unfold setup_simulation. fold (initial_world cfg h).
  unfold bind at 1. rewrite Hrun. simpl.
  by destruct (install_array_cables _ _ _ _ _) as [[t w'] r].
Qed.

Lemma units_of_copies {A} (u : list cable_section → list A)
    (cables : list (string * cable_config)) (cd : list (Cable * loc))
    (hp h : gmap loc (list cable_section)) :
  Forall2 (λ (nd : string * cable_config) (cs : Cable * loc),
             linear_density cs.1 = cfg_linear_density nd.2
             ∧ hp !! cs.2 = h !! cfg_cable_sections nd.2) cables cd →
  flat_map (λ cs : Cable * loc, u (default [] (hp !! cs.2))) cd
  = flat_map (λ nd : string * cable_config,
                u (default [] (h !! cfg_cable_sections nd.2))) cables.
Proof.
  induction 1 as [|nd cs cables cd [_ Hc] _ IH]; simpl; [done|].
  by rewrite Hc, IH.
Qed.

(** A loop over the cables whose body works on the list of its own
    cable: what the bodies produce is put end to end. *)
Lemma for_each_units {A} (μ : list event → list A)
    (u : list cable_section → list A) (body : Cable → loc → proc S unit) :
  (∀ t1 t2, μ (t1 ++ t2) = μ t1 ++ μ t2) → μ [] = [] →
  (∀ c l w, outcome_of (body c l w) = Returned tt →
     μ (trace_of (body c l w)) = u (default [] (heap w !! l))
     ∧ ∀ l', l' ≠ l → heap (world_of (body c l w)) !! l' = heap w !! l') →
  ∀ (cd : list (Cable * loc)) w, NoDup cd.*2 →
    outcome_of (for_each cd (λ '(c, l), body c l) w) = Returned tt →
    μ (trace_of (for_each cd (λ '(c, l), body c l) w))
    = flat_map (λ cs : Cable * loc, u (default [] (heap w !! cs.2))) cd.
Proof.
  intros Happ Hnil Hbody.
  induction cd as [|[c l] cd IH]; intros w Hnd Hr; simpl in *; [done|].
  apply NoDup_cons in Hnd as [Hl Hnd].
  apply bind_returned_inv in Hr as ([] & H1 & Hr & -> & _).
  destruct (Hbody c l w H1) as [Hu Hother].
  rewrite Happ, Hu, (IH _ Hnd Hr). f_equal.
  apply flat_map_ext_Forall, Forall_forall. intros [c' l'] Hin. simpl.
  rewrite Hother; [done|]. intros ->. apply Hl.
  apply list_elem_of_fmap. by exists (c', l).
Qed.

Lemma lay_section_lays d kw c len specs w :
  exact_cut S →
  outcome_of (lay_section d kw c len specs w) = Returned tt →
  lay_steps (trace_of (lay_section d kw c len specs w)) = [len].
Proof.
  intros Hcut. destruct w as [[p q st] bv tv hp tb]. proc_run.
  destruct (get_cable len st) as [[x st1]|] eqn:Hg; proc_run.
  - apply Hcut in Hg as ->. by destruct bv.
  - destruct (get_cable len (load_cable c st)) as [[x st2]|] eqn:Hg2;
      proc_run; [|done].
    apply Hcut in Hg2 as ->. by destruct bv.
Qed.

Lemma for_repeat_lays n d kw c len specs w :
  exact_cut S →
  outcome_of (for_repeat n (lay_section d kw c len specs) w) = Returned tt →
  lay_steps (trace_of (for_repeat n (lay_section d kw c len specs) w))
  = replicate n len.
Proof.
  intros Hcut. revert w. induction n as [|n IH]; intros w Hr; simpl in *.
  { done. }
  apply bind_returned_inv in Hr as ([] & H1 & Hr & -> & _).
  by rewrite lay_steps_app, (lay_section_lays _ _ _ _ _ _ Hcut H1), (IH _ Hr).
Qed.

Lemma lay_sections_lays fuel d kw c l w :
  exact_cut S →
  outcome_of (lay_sections fuel d kw c l w) = Returned tt →
  lay_steps (trace_of (lay_sections fuel d kw c l w))
  = section_units (default [] (heap w !! l))
  ∧ ∀ l', l' ≠ l →
      heap (world_of (lay_sections fuel d kw c l w)) !! l' = heap w !! l'.
Proof.
  intros Hcut. revert w. induction fuel as [|fuel IH]; intros w; [done|].
  destruct (at_port (vessel w)) eqn:Hp.
  { rewrite lay_sections_at_port by done. intros Hr.
    apply bind_returned_inv in Hr as ([] & _ & Hr & -> & ->).
    rewrite load_and_transit_to_site_run in *.
    rewrite trace_of_mk, world_of_mk in *.
    destruct (IH _ Hr) as [Hu Ho]. rewrite lay_steps_app, Hu. by split. }
  destruct (at_site (vessel w)) eqn:Hs.
  2:{ rewrite lay_sections_adrift by done. apply IH. }
  destruct (heap w !! l) as [[|s rest]|] eqn:Hl.
  - rewrite lay_sections_no_section by (by rewrite ?Hl).
    rewrite transit_to_port_run. by intros _.
  - rewrite (lay_sections_next_section _ _ _ _ _ _ s rest) by done.
    intros Hr.
    apply bind_returned_inv in Hr as ([] & H1 & Hr & -> & ->).
    set (w1 := with_heap (<[l := rest]> (heap w)) w) in *.
    unfold for_range in *.
    pose proof (for_repeat_lays _ _ _ _ _ _ _ Hcut H1) as Hn.
    pose proof (sat_for_repeat frame_rel frame_rel_refl frame_rel_trans
      (Z.to_nat (cs_count s)) _
      (frame_lay_section d kw c (cs_length s)
         (section_specs (burial_vessel w) kw (cs_extra s))) w1) as [Hh _].
    destruct (IH _ Hr) as [Hu Ho].
    rewrite lay_steps_app, Hn, Hu, Hh. simpl. rewrite lookup_insert_eq.
    split; [done|].
    intros l' Hne. rewrite Ho, Hh by done. simpl.
    by rewrite lookup_insert_ne.
  - rewrite lay_sections_no_section by (by rewrite ?Hl).
    rewrite transit_to_port_run. by intros _.
Qed.

Lemma install_one_cable_lays fuel d kw c l w :
  exact_cut S →
  outcome_of (install_one_cable fuel d kw c l w) = Returned tt →
  lay_steps (trace_of (install_one_cable fuel d kw c l w))
  = section_units (default [] (heap w !! l))
  ∧ ∀ l', l' ≠ l →
      heap (world_of (install_one_cable fuel d kw c l w)) !! l' = heap w !! l'.
Proof.
  intros Hcut Hr. unfold install_one_cable in *.
  apply bind_returned_inv in Hr as ([] & _ & Hr & -> & ->).
  apply bind_returned_inv in Hr as ([] & H1 & Hr & -> & ->).
  destruct (lay_sections_lays _ _ _ _ _ _ Hcut H1) as [Hu Ho].
  rewrite transit_to_port_run, trace_of_mk, world_of_mk.
  rewrite !lay_steps_app, Hu. simpl. rewrite app_nil_r. by split.
Qed.

Lemma dig_calls_replicate n x kw :
  dig_calls (replicate n (Spawn (dig_array_cables_trench_call x kw)))
  = replicate n (x, kw).
Proof. induction n as [|n IH]; [done|]. simpl. by rewrite <- IH. Qed.

Lemma trench_sections_digs fuel d kw l w :
  outcome_of (trench_sections fuel d kw l w) = Returned tt →
  dig_calls (trace_of (trench_sections fuel d kw l w))
  = (λ x, (x, kw)) <$> section_units (default [] (heap w !! l))
  ∧ ∀ l', l' ≠ l →
      heap (world_of (trench_sections fuel d kw l w)) !! l' = heap w !! l'.
Proof.
  revert w. induction fuel as [|fuel IH]; intros w; [done|].
  destruct (trench_vessel w) as [tv|] eqn:Ht.
  2:{ simpl. unfold bind, get_trench_vessel. by rewrite Ht. }
  destruct (at_port tv) eqn:Hp.
  { rewrite (trench_sections_at_port _ _ _ _ _ tv) by done. intros Hr.
    apply bind_returned_inv in Hr as ([] & _ & Hr & -> & ->).
    rewrite trench_transit_to_site_run in *.
    rewrite trace_of_mk, world_of_mk in *.
    destruct (IH _ Hr) as [Hu Ho]. rewrite dig_calls_app, Hu. by split. }
  destruct (at_site tv) eqn:Hs.
  2:{ rewrite (trench_sections_adrift _ _ _ _ _ tv) by done. apply IH. }
  destruct (heap w !! l) as [[|s rest]|] eqn:Hl.
  - rewrite (trench_sections_no_section _ _ _ _ _ tv) by (by rewrite ?Hl).
    rewrite trench_transit_to_port_run. by intros _.
  - rewrite (trench_sections_next_section _ _ _ _ _ tv s rest) by done.
    intros Hr.
    apply bind_returned_inv in Hr as ([] & _ & Hr & -> & ->).
    unfold for_range in *. rewrite for_repeat_emit in *.
    rewrite trace_of_mk, world_of_mk in *.
    destruct (IH _ Hr) as [Hu Ho].
    rewrite dig_calls_app, dig_calls_replicate, Hu. simpl.
    rewrite lookup_insert_eq. simpl. rewrite fmap_app, fmap_replicate.
    split; [done|].
    intros l' Hne. rewrite Ho by done. simpl. by rewrite lookup_insert_ne.
  - rewrite (trench_sections_no_section _ _ _ _ _ tv) by (by rewrite ?Hl).
    rewrite trench_transit_to_port_run. by intros _.
Qed.

Lemma trench_one_cable_digs fuel d kw l w :
  outcome_of (trench_one_cable fuel d kw l w) = Returned tt →
  dig_calls (trace_of (trench_one_cable fuel d kw l w))
  = (λ x, (x, kw)) <$> section_units (default [] (heap w !! l))
  ∧ ∀ l', l' ≠ l →
      heap (world_of (trench_one_cable fuel d kw l w)) !! l' = heap w !! l'.
Proof.
  intros Hr. unfold trench_one_cable in *.
  apply bind_returned_inv in Hr as ([] & _ & Hr & -> & ->).
  apply bind_returned_inv in Hr as ([] & H1 & Hr & -> & ->).
  destruct (trench_sections_digs _ _ _ _ _ H1) as [Hu Ho].
  rewrite trench_transit_to_port_run, trace_of_mk, world_of_mk.
  rewrite !dig_calls_app, Hu. simpl. rewrite app_nil_r. by split.
Qed.

(** The parts of a run of [install_array_cables] that returns. *)
Lemma install_array_cables_returned fuel d kw cable_data w :
  let r := install_array_cables fuel d cable_data kw w in
  let r1 := trenching fuel d kw cable_data w in
  let r2 := laying fuel d kw cable_data
              (with_to_bury (λ _, []) (world_of r1)) in
  outcome_of r = Returned tt →
  outcome_of r1 = Returned tt
  ∧ outcome_of r2 = Returned tt
  ∧ trace_of r = trace_of r1 ++ trace_of r2 ++ completion kw (world_of r2)
  ∧ world_of r = world_of r2.
Proof.
  simpl. intros Hr. unfold install_array_cables in Hr |- *.
  fold (trenching fuel d kw cable_data) in Hr |- *.
  fold (laying fuel d kw cable_data) in Hr |- *.
  apply bind_returned_inv in Hr as ([] & H1 & Hr & -> & ->).
  apply bind_returned_inv in Hr as ([] & _ & Hr & -> & ->).
  apply bind_returned_inv in Hr as ([] & H2 & Hr & -> & ->).
  change (world_of (set_to_bury (λ _, [])
                      (world_of (trenching fuel d kw cable_data w))))
    with (with_to_bury (λ _, []) (world_of (trenching fuel d kw cable_data w)))
    in *.
  set (w2 := world_of (laying fuel d kw cable_data _)) in *.
  split; [done|]. split; [done|].
  rewrite trace_of_bind, world_of_bind.
  change (outcome_of (get w2)) with (Returned w2).
  change (world_of (get w2)) with w2.
  change (trace_of (get w2)) with (@nil event). cbv iota beta.
  unfold completion. by destruct (burial_vessel w2).
Qed.

Lemma undug_laying fuel d kw (cable_data : list (Cable * loc)) :
  sat undug_rel (laying fuel d kw cable_data).
Proof.
  apply (sat_lay_all undug_rel) with (L := λ _, True);
    first
      [ done
      | by (intros w1 t1 w2 t2 w3 H1 H2; unfold undug_rel in *;
            rewrite dig_calls_app, H1, H2)
      | by apply Forall_forall
      | intros; intros w; unfold pop0; proc_run;
        by destruct (default [] (heap w !! _))
      | intros d' kw' c len specs [[p q st] bv tv hp tb]; proc_run;
        destruct (get_cable len st) as [[x st1]|]; proc_run;
        [|destruct (get_cable len (load_cable c st)) as [[x st2]|]; proc_run];
        by destruct bv
      | intros; intros w; destruct w as [[p q st] bv tv hp tb];
        proc_run; done ].
Qed.

Lemma lay_steps_idle t :
  laid_and_buried t = [] → laid t = [] → lay_steps t = [].
Proof.
  induction t as [|[a s kw sn|p|a msg] t IH]; simpl; try done.
  destruct s; simpl; try done.
Qed.

Lemma fmap_flat_map {A B C} (f : B → C) (g : A → list B) l :
  flat_map (λ x, f <$> g x) l = f <$> flat_map g l.
Proof.
  induction l as [|x l IH]; simpl; [done|]. by rewrite IH, fmap_app.
Qed.

Lemma trenching_untrenched fuel d kw cable_data w :
  trench_vessel w = None →
  trenching fuel d kw cable_data w = ([], w, Returned tt).
Proof. intros Htv. unfold trenching, bind, get. simpl. by rewrite Htv. Qed.

Lemma trenching_trenched fuel d kw cable_data w :
  is_Some (trench_vessel w) →
  trenching fuel d kw cable_data w
  = for_each cable_data (λ '(cable, sections),
      trench_one_cable fuel d kw sections) w.
Proof.
  intros [tv Htv]. unfold trenching, bind, get. simpl. rewrite Htv.
  by destruct (for_each _ _ _) as [[t w'] r].
Qed.

(** X6: [setup_simulation] gives every cable a list of its own.  The
    cables come in the order of the configuration with its linear
    densities; every list is a new object, different from the lists of
    the configuration and from the lists of the other cables, and holds
    the sections of the configuration; the lists of the configuration
    stay as they were. *)
Theorem X6_every_cable_gets_its_own_list
    (cables : list (string * cable_config)) w :
  Forall (λ nd : string * cable_config,
            cfg_cable_sections nd.2 ∈ dom (heap w)) cables →
  ∃ cd hp,
    build_cable_data cables w = ([], with_heap hp w, Returned cd)
    ∧ NoDup cd.*2
    ∧ Forall (λ cs : Cable * loc, cs.2 ∉ dom (heap w)) cd
    ∧ Forall2 (λ (nd : string * cable_config) (cs : Cable * loc),
                 linear_density cs.1 = cfg_linear_density nd.2
                 ∧ hp !! cs.2 = heap w !! cfg_cable_sections nd.2)
        cables cd
    ∧ (∀ l, l ∈ dom (heap w) → hp !! l = heap w !! l)
    ∧ (∀ l, l ∈ dom hp → l ∈ dom (heap w) ∨ l ∈ cd.*2).
Proof. apply build_cable_data_copies. Qed.

Lemma install_array_cables_lays fuel d kw (cable_data : list (Cable * loc)) w :
  exact_cut S → trench_vessel w = None → NoDup cable_data.*2 →
  outcome_of (install_array_cables fuel d cable_data kw w) = Returned tt →
  lay_steps (trace_of (install_array_cables fuel d cable_data kw w))
  = flat_map (λ cs : Cable * loc, section_units (default [] (heap w !! cs.2)))
      cable_data
  ∧ dig_calls (trace_of (install_array_cables fuel d cable_data kw w)) = [].
Proof.
  intros Hcut Htv Hnd Hr.
  destruct (install_array_cables_returned _ _ _ _ _ Hr) as (_ & H2 & -> & _).
  rewrite trenching_untrenched in * by done.
  rewrite trace_of_mk, world_of_mk in *.
  set (w1 := with_to_bury (λ _, []) w) in *.
  rewrite app_nil_l, lay_steps_app, dig_calls_app.
  pose proof (for_each_units lay_steps section_units
                (install_one_cable fuel d kw)
                lay_steps_app eq_refl
                (λ c l w, install_one_cable_lays fuel _ kw c l w Hcut)
                cable_data w1 Hnd H2) as Hl.
  change (heap w1) with (heap w) in Hl.
  pose proof (undug_laying fuel d kw cable_data w1) as Hd.
  unfold undug_rel in Hd. unfold laying in *. rewrite Hl, Hd.
  unfold completion. split.
  - destruct (burial_vessel _); simpl; by rewrite app_nil_r.
  - by destruct (burial_vessel _).
Qed.

(** X7: without a trenching vessel, a phase that returns has laid every
    section of the configuration: cable after cable and section after
    section, each as often as its count says, with the length of the
    configuration when the storage cuts to length; and it has started no
    trench digging. *)
Theorem X7_every_section_is_laid fuel (cfg : config S) kw h :
  exact_cut S → config_lists_exist cfg h →
  array_cable_trench_vessel cfg = None →
  outcome_of (setup_simulation fuel cfg kw h) = Returned tt →
  lay_steps (trace_of (setup_simulation fuel cfg kw h)) = config_units cfg h
  ∧ dig_calls (trace_of (setup_simulation fuel cfg kw h)) = [].
Proof.
  intros Hcut Hex Htv Hr.
  destruct (setup_simulation_copies fuel cfg kw h Hex)
    as (cd & hp & Heq & Hnd & _ & Hcopy & _).
  rewrite Heq in *. set (w0 := with_heap hp (initial_world cfg h)) in *.
  assert (trench_vessel w0 = None) as Htv0 by (simpl; by rewrite Htv).
  destruct (install_array_cables_lays fuel _ kw cd w0 Hcut Htv0 Hnd Hr)
    as [Hl Hd].
  split; [|exact Hd]. rewrite Hl.
  change (heap w0) with hp.
  exact (units_of_copies section_units _ _ _ _ Hcopy).
Qed.


End Complete.

Lemma pool_exact_cut : exact_cut ResourcePool.
Proof.
  intros len st x st' Hg. unfold get_cable, pool_storage, pool_get in Hg.
  destruct (decide (len > level st)); by simplify_eq.
Qed.

Lemma two_cable_lists_exist bury trench :
  config_lists_exist (two_cable_config bury trench) two_cable_heap.
Proof.
  unfold config_lists_exist. simpl.
  repeat constructor; simpl; apply elem_of_dom; by eexists.
Qed.

Lemma X6_witness :
  ∃ cd hp,
    build_cable_data (array_system_cables (two_cable_config false false))
      (initial_world (two_cable_config false false) two_cable_heap)
    = ([], with_heap hp
             (initial_world (two_cable_config false false) two_cable_heap),
       Returned cd)
    ∧ NoDup cd.*2
    ∧ Forall (λ cs : Cable * loc, cs.2 ∉ dom two_cable_heap) cd
    ∧ Forall2 (λ (nd : string * cable_config) (cs : Cable * loc),
                 linear_density cs.1 = cfg_linear_density nd.2
                 ∧ hp !! cs.2 = two_cable_heap !! cfg_cable_sections nd.2)
        (array_system_cables (two_cable_config false false)) cd
    ∧ (∀ l, l ∈ dom two_cable_heap → hp !! l = two_cable_heap !! l)
    ∧ (∀ l, l ∈ dom hp → l ∈ dom two_cable_heap ∨ l ∈ cd.*2).
Proof.
  apply (X6_every_cable_gets_its_own_list (S:=ResourcePool)
           (array_system_cables (two_cable_config false false))
           (initial_world (two_cable_config false false) two_cable_heap)).
  apply (two_cable_lists_exist false false).
Defined.

Lemma X7_witness :
  let r := setup_simulation 10 (two_cable_config false false) ∅
             two_cable_heap in
  lay_steps (trace_of r) = config_units (two_cable_config false false)
                             two_cable_heap
  ∧ dig_calls (trace_of r) = [].
Proof.
  apply (X7_every_section_is_laid (S:=ResourcePool) 10
           (two_cable_config false false) ∅ two_cable_heap).
  - exact pool_exact_cut.
  - apply two_cable_lists_exist.
  - reflexivity.
  - vm_compute. reflexivity.
Defined.


(** ** The lists of sections after the phase *)

Section Consumed.
Context {S : Type} `{CableStorage S}.
Implicit Types w : world S.

(** The laying loop is left through its [except IndexError] handler
    only: when it returns, the list of sections is empty. *)
Lemma lay_sections_empties fuel d kw c l w :
  outcome_of (lay_sections fuel d kw c l w) = Returned tt →
  default [] (heap (world_of (lay_sections fuel d kw c l w)) !! l) = [].
Proof.
  revert w. induction fuel as [|fuel IH]; intros w; [done|].
  destruct (at_port (vessel w)) eqn:Hp.
  { rewrite lay_sections_at_port by done. intros Hr.
    apply bind_returned_inv in Hr as ([] & _ & Hr & _ & ->). by apply IH. }
  destruct (at_site (vessel w)) eqn:Hs.
  2:{ rewrite lay_sections_adrift by done. apply IH. }
  destruct (heap w !! l) as [[|s rest]|] eqn:Hl.
  - rewrite lay_sections_no_section by (by rewrite ?Hl).
    rewrite transit_to_port_run. intros _. rewrite world_of_mk. simpl.
    by rewrite Hl.
  - rewrite (lay_sections_next_section _ _ _ _ _ _ s rest) by done.
    intros Hr.
    apply bind_returned_inv in Hr as ([] & _ & Hr & _ & ->). by apply IH.
  - rewrite lay_sections_no_section by (by rewrite ?Hl).
    rewrite transit_to_port_run. intros _. rewrite world_of_mk. simpl.
    by rewrite Hl.
Qed.

Lemma install_one_cable_empties fuel d kw c l w :
  outcome_of (install_one_cable fuel d kw c l w) = Returned tt →
  default [] (heap (world_of (install_one_cable fuel d kw c l w)) !! l) = [].
Proof.
  intros Hr. unfold install_one_cable in *.
  apply bind_returned_inv in Hr as ([] & _ & Hr & _ & ->).
  apply bind_returned_inv in Hr as ([] & H1 & Hr & _ & ->).
  rewrite transit_to_port_run, world_of_mk. simpl.
  by apply lay_sections_empties.
Qed.

Lemma laying_empties fuel d kw (cable_data : list (Cable * loc)) w :
  outcome_of (laying fuel d kw cable_data w) = Returned tt →
  Forall (λ cs : Cable * loc,
            default [] (heap (world_of (laying fuel d kw cable_data w))
                          !! cs.2) = []) cable_data.
Proof.
  unfold laying.
  revert w. induction cable_data as [|[c l] cd IH]; intros w Hr; simpl in *.
  { constructor. }
  apply bind_returned_inv in Hr as ([] & H1 & Hr & _ & ->).
  constructor; [|by apply IH]. simpl.
  pose proof (install_one_cable_empties _ _ _ _ _ _ H1) as He.
  set (w1 := world_of (install_one_cable fuel d kw c l w)) in *.
  assert (sat shrink_rel
            (for_each cd (λ '(cable, sections),
               install_one_cable fuel d kw cable sections))) as Hs.
  { apply sat_for_each with (P := λ _, True);
      [exact shrink_rel_refl|exact shrink_rel_trans| |
       by apply Forall_forall].
    intros [c' l'] _. apply shrink_install_one_cable. }
  specialize (Hs w1 l). rewrite He in Hs. simpl in Hs.
  apply nil_length_inv. lia.
Qed.

(** X9: when the phase returns, every list of sections that
    [setup_simulation] built is empty: the loops of
    [install_array_cables] use the lists of [cable_data] up. *)
Theorem X9_cable_data_is_used_up fuel (cfg : config S) kw h l :
  config_lists_exist cfg h →
  outcome_of (setup_simulation fuel cfg kw h) = Returned tt →
  l ∉ dom h →
  default [] (heap (world_of (setup_simulation fuel cfg kw h)) !! l) = [].
Proof.
  intros Hex Hr Hl.
  destruct (setup_simulation_copies fuel cfg kw h Hex)
    as (cd & hp & Heq & _ & _ & _ & _ & Hnew).
  rewrite Heq in *. set (w0 := with_heap hp (initial_world cfg h)) in *.
  destruct (decide (l ∈ cd.*2)) as [Hin|Hout].
  - destruct (install_array_cables_returned _ _ _ _ _ Hr)
      as (_ & H2 & _ & ->).
    apply laying_empties in H2. rewrite Forall_forall in H2.
    apply list_elem_of_fmap in Hin as ([c l'] & -> & Hin).
    by apply (H2 _ Hin).
  - pose proof (shrink_install_array_cables fuel (site_distance cfg) kw cd
                  w0 l) as Hs.
    assert (hp !! l = None) as Hnone.
    { apply not_elem_of_dom. intros Hd. by destruct (Hnew l Hd). }
    simpl in Hs. rewrite Hnone in Hs. simpl in Hs.
    apply nil_length_inv. lia.
Qed.

End Consumed.

Lemma X9_witness :
  default [] (heap (world_of (setup_simulation 10
                                (two_cable_config true false) ∅
                                two_cable_heap)) !! 3%positive) = [].
Proof.
  apply (X9_cable_data_is_used_up (S:=ResourcePool) 10
           (two_cable_config true false) ∅ two_cable_heap 3%positive).
  - apply two_cable_lists_exist.
  - vm_compute. reflexivity.
  - apply not_elem_of_dom. reflexivity.
Defined.

(** ** Laying without a burial vessel *)

Section Unburied.
Context {S : Type} `{CableStorage S}.
Implicit Types w : world S.

Lemma unburied_rel_refl w : unburied_rel w [] w.
Proof. done. Qed.

Lemma unburied_rel_trans w1 t1 w2 t2 w3 :
  unburied_rel w1 t1 w2 → unburied_rel w2 t2 w3 →
  unburied_rel w1 (t1 ++ t2) w3.
Proof.
  intros (Ha & Hb & Hc) (Ha' & Hb' & Hc').
  unfold unburied_rel, laid, bury_calls in *.
  rewrite !omap_app, Hb, Hb'. split; [congruence|]. split; [done|].
  intros Hn. destruct (Hc Hn) as [-> <-].
  destruct Hc' as [-> ->]; [congruence|done].
Qed.

Ltac unburied_block :=
  let w := fresh "w" in
  intros w; destruct w as [[? ? ?] ? [?|] ? ?]; proc_run; done.

Lemma unburied_lay_section d kw c len specs :
  sat unburied_rel (lay_section d kw c len specs).
Proof.
  intros [[p q st] bv tv hp tb]. proc_run.
  destruct (get_cable len st) as [[x st1]|]; proc_run;
    [|destruct (get_cable len (load_cable c st)) as [[x st2]|]; proc_run];
    destruct bv; done.
Qed.

Lemma unburied_trenching fuel d kw cable_data :
  sat unburied_rel (trenching fuel d kw cable_data).
Proof.
  apply sat_bind_get.
  intros w. destruct (trench_vessel w); [|done].
  apply (sat_trench_all unburied_rel) with (L := λ _, True);
    first
      [ exact unburied_rel_refl | exact unburied_rel_trans
      | by apply Forall_forall
      | intros; intros w'; unfold pop0; proc_run;
        by destruct (default [] (heap w' !! _))
      | intros; unburied_block ].
Qed.

Lemma unburied_laying fuel d kw cable_data :
  sat unburied_rel (laying fuel d kw cable_data).
Proof.
  apply (sat_lay_all unburied_rel) with (L := λ _, True);
    first
      [ exact unburied_rel_refl | exact unburied_rel_trans
      | exact unburied_lay_section
      | by apply Forall_forall
      | intros; intros w'; unfold pop0; proc_run;
        by destruct (default [] (heap w' !! _))
      | intros; unburied_block ].
Qed.

(** X10: without a burial vessel, a phase that returns has laid no
    section with [lay_cable], has collected nothing to bury, has not
    called [bury_array_cables], and its last event is the debug log
    "Array cable lay/burial process completed!". *)
Theorem X10_no_burial_vessel fuel (cfg : config S) kw h :
  array_cable_bury_vessel cfg = None →
  outcome_of (setup_simulation fuel cfg kw h) = Returned tt →
  ∃ t,
    trace_of (setup_simulation fuel cfg kw h)
    = t ++ [DebugLog install_vessel
              "Array cable lay/burial process completed!"]
    ∧ laid t = [] ∧ bury_calls t = []
    ∧ to_bury (world_of (setup_simulation fuel cfg kw h)) = [].
Proof.
  intros Hbv Hr.
  destruct (setup_simulation_run fuel cfg kw h) as (cd & hp & Heq & _).
  rewrite Heq in *. set (w0 := with_heap hp (initial_world cfg h)) in *.
  destruct (install_array_cables_returned _ _ _ _ _ Hr)
    as (_ & _ & -> & ->).
  destruct (unburied_trenching fuel (site_distance cfg) kw cd w0)
    as (Hb1 & Hc1 & Hl1).
  set (r1 := trenching fuel (site_distance cfg) kw cd w0) in *.
  destruct (unburied_laying fuel (site_distance cfg) kw cd
              (with_to_bury (λ _, []) (world_of r1))) as (Hb2 & Hc2 & Hl2).
  set (r2 := laying fuel (site_distance cfg) kw cd _) in *.
  assert (burial_vessel w0 = None) as H0 by (simpl; by rewrite Hbv).
  destruct (Hl1 H0) as [Hl1' _].
  destruct Hl2 as [Hl2' Ht2]; [simpl; congruence|].
  exists (trace_of r1 ++ trace_of r2).
  unfold completion. rewrite Hb2. simpl. rewrite Hb1, H0.
  unfold laid, bury_calls in *. rewrite !omap_app, Hl1', Hl2', Hc1, Hc2.
  by rewrite app_assoc.
Qed.

End Unburied.

Lemma X10_witness :
  ∃ t,
    trace_of (setup_simulation 10 (two_cable_config false false) ∅
                two_cable_heap)
    = t ++ [DebugLog install_vessel
              "Array cable lay/burial process completed!"]
    ∧ laid t = [] ∧ bury_calls t = []
    ∧ to_bury (world_of (setup_simulation 10 (two_cable_config false false)
                           ∅ two_cable_heap)) = [].
Proof.
  apply (X10_no_burial_vessel (S:=ResourcePool) 10
           (two_cable_config false false) ∅ two_cable_heap).
  - reflexivity.
  - vm_compute. reflexivity.
Defined.

(** ** What the phase can raise *)

Section Exceptions.
Context {S : Type} `{CableStorage S}.
Implicit Types w : world S.

Lemma lay_section_raises d kw c len specs w e :
  outcome_of (lay_section d kw c len specs w) = Raised e →
  e = InsufficientCable.
Proof.
  destruct w as [[p q st] bv tv hp tb]. proc_run.
  destruct (get_cable len st) as [[x st1]|]; proc_run;
    [|destruct (get_cable len (load_cable c st)) as [[x st2]|]; proc_run];
    destruct bv; simpl; intros Hr; by simplify_eq.
Qed.

Lemma for_repeat_raises (E : exn → Prop) n (body : proc S unit) w e :
  (∀ w e, outcome_of (body w) = Raised e → E e) →
  outcome_of (for_repeat n body w) = Raised e → E e.
Proof.
  intros Hb. revert w. induction n as [|n IH]; intros w; simpl; [done|].
  rewrite outcome_of_bind.
  destruct (outcome_of (body w)) as [[]|e'|] eqn:Ho; [apply IH| |done].
  intros [= <-]. by apply (Hb w).
Qed.

(** A loop with an invariant that no body breaks. *)
Lemma for_each_raises {A} (I : world S → Prop) (E : exn → Prop)
    (l : list A) (body : A → proc S unit) :
  (∀ x w, I w →
     I (world_of (body x w)) ∧ ∀ e, outcome_of (body x w) = Raised e → E e) →
  ∀ w, I w →
    I (world_of (for_each l body w))
    ∧ ∀ e, outcome_of (for_each l body w) = Raised e → E e.
Proof.
  intros Hb. induction l as [|x l IH]; intros w Hw; simpl; [done|].
  rewrite world_of_bind, outcome_of_bind.
  destruct (Hb x w Hw) as [Hw1 He].
  destruct (outcome_of (body x w)) as [[]|e'|]; [by apply IH| |done].
  split; [done|]. intros e [= <-]. by apply He.
Qed.

Lemma lay_sections_raises fuel d kw c l w e :
  outcome_of (lay_sections fuel d kw c l w) = Raised e →
  e = InsufficientCable.
Proof.
  revert w. induction fuel as [|fuel IH]; intros w; [done|].
  destruct (at_port (vessel w)) eqn:Hp.
  { rewrite lay_sections_at_port by done.
    rewrite outcome_of_bind, load_and_transit_to_site_run, outcome_of_mk.
    apply IH. }
  destruct (at_site (vessel w)) eqn:Hs.
  2:{ rewrite lay_sections_adrift by done. apply IH. }
  destruct (heap w !! l) as [[|s rest]|] eqn:Hl.
  - rewrite lay_sections_no_section by (by rewrite ?Hl).
    by rewrite transit_to_port_run.
  - rewrite (lay_sections_next_section _ _ _ _ _ _ s rest) by done.
    rewrite outcome_of_bind. unfold for_range.
    destruct (outcome_of (for_repeat _ _ _)) as [[]|e'|] eqn:Ho;
      [apply IH| |done].
    intros [= <-].
    apply (for_repeat_raises (λ e, e = InsufficientCable)) in Ho; [done|].
    intros w' e0. apply lay_section_raises.
  - rewrite lay_sections_no_section by (by rewrite ?Hl).
    by rewrite transit_to_port_run.
Qed.

Lemma install_one_cable_raises fuel d kw c l w e :
  outcome_of (install_one_cable fuel d kw c l w) = Raised e →
  e = InsufficientCable.
Proof.
  unfold install_one_cable.
  rewrite !outcome_of_bind, transit_to_port_run, outcome_of_mk.
  change (outcome_of (set_vessel (set_cable_storage reset) w))
    with (Returned (A:=unit) tt). cbv iota beta.
  destruct (outcome_of (lay_sections _ _ _ _ _ _)) as [[]|e'|] eqn:Ho.
  - done.
  - intros [= <-]. by apply lay_sections_raises in Ho.
  - done.
Qed.

Lemma laying_raises fuel d kw cable_data w e :
  outcome_of (laying fuel d kw cable_data w) = Raised e →
  e = InsufficientCable.
Proof.
  apply (for_each_raises (λ _, True) (λ e, e = InsufficientCable)); [|done].
  intros [c l] w' _. split; [done|]. intros e'.
  apply install_one_cable_raises.
Qed.

(** The trenching loop raises nothing. *)
Lemma trench_sections_never_raises fuel d kw l w e :
  is_Some (trench_vessel w) →
  outcome_of (trench_sections fuel d kw l w) ≠ Raised e.
Proof.
  revert w. induction fuel as [|fuel IH]; intros w Htv; [done|].
  destruct (trench_vessel w) as [tv|] eqn:Ht; [|by destruct Htv].
  destruct (at_port tv) eqn:Hp.
  { rewrite (trench_sections_at_port _ _ _ _ _ tv) by done.
    rewrite outcome_of_bind, trench_transit_to_site_run, outcome_of_mk,
      world_of_mk.
    apply IH. simpl. rewrite Ht. by eexists. }
  destruct (at_site tv) eqn:Hs.
  2:{ rewrite (trench_sections_adrift _ _ _ _ _ tv) by done.
      apply IH. by rewrite Ht. }
  destruct (heap w !! l) as [[|s rest]|] eqn:Hl.
  - rewrite (trench_sections_no_section _ _ _ _ _ tv) by (by rewrite ?Hl).
    by rewrite trench_transit_to_port_run.
  - rewrite (trench_sections_next_section _ _ _ _ _ tv s rest) by done.
    unfold for_range.
    rewrite outcome_of_bind, for_repeat_emit, outcome_of_mk, world_of_mk.
    apply IH. simpl. by rewrite Ht.
  - rewrite (trench_sections_no_section _ _ _ _ _ tv) by (by rewrite ?Hl).
    by rewrite trench_transit_to_port_run.
Qed.

Lemma bystander_trench_one_cable fuel d kw l :
  sat bystander_rel (trench_one_cable fuel d kw l).
Proof.
  apply (sat_trench_one_cable bystander_rel) with (L := λ _, True);
    first
      [ exact bystander_rel_refl | exact bystander_rel_trans
      | done
      | intros; intros w; unfold pop0; proc_run;
        by destruct (default [] (heap w !! _))
      | intros; intros w; destruct w as [[p q st] bv [[p' q' st']|] hp tb];
        proc_run; done ].
Qed.

Lemma trench_one_cable_never_raises fuel d kw l w :
  is_Some (trench_vessel w) →
  is_Some (trench_vessel (world_of (trench_one_cable fuel d kw l w)))
  ∧ ∀ e, outcome_of (trench_one_cable fuel d kw l w) = Raised e → False.
Proof.
  intros Htv. split.
  - destruct (bystander_trench_one_cable fuel d kw l w) as [_ Hs].
    destruct Htv as [tv Htv]. rewrite Htv in Hs. simpl in Hs.
    destruct (trench_vessel (world_of _)); [by eexists|done].
  - intros e. unfold trench_one_cable.
    rewrite !outcome_of_bind, trench_transit_to_port_run, outcome_of_mk.
    change (outcome_of (set_vessel (set_cable_storage reset) w))
      with (Returned (A:=unit) tt). cbv iota beta.
    pose proof (trench_sections_never_raises fuel d kw l
                  (world_of (set_vessel (set_cable_storage reset) w))
                  e Htv) as Hn.
    destruct (outcome_of (trench_sections _ _ _ _ _)) as [[]|e'|] eqn:Ho.
    + done.
    + intros [= <-]. done.
    + done.
Qed.

Lemma trenching_never_raises fuel d kw cable_data w e :
  outcome_of (trenching fuel d kw cable_data w) ≠ Raised e.
Proof.
  unfold trenching. rewrite outcome_of_bind.
  change (outcome_of (get w)) with (Returned w).
  change (world_of (get w)) with w. cbv iota beta.
  destruct (trench_vessel w) as [tv|] eqn:Htv; [|done].
  intros Hr.
  apply (for_each_raises (λ w, is_Some (trench_vessel w)) (λ _, False)
           cable_data
           (λ '(cable, sections), trench_one_cable fuel d kw sections))
    with (w := w) (e := e); [|by rewrite Htv|done].
  intros [c l] w' Hw'. by apply trench_one_cable_never_raises.
Qed.

Lemma install_array_cables_raises fuel d kw cable_data w e :
  outcome_of (install_array_cables fuel d cable_data kw w) = Raised e →
  e = InsufficientCable.
Proof.
  unfold install_array_cables.
  fold (trenching fuel d kw cable_data). fold (laying fuel d kw cable_data).
  rewrite outcome_of_bind.
  pose proof (trenching_never_raises fuel d kw cable_data w) as Hn.
  destruct (outcome_of (trenching fuel d kw cable_data w)) as [[]|e'|];
    [|by destruct (Hn e')|done].
  rewrite outcome_of_bind. simpl. rewrite outcome_of_bind.
  destruct (outcome_of (laying _ _ _ _ _)) as [[]|e'|] eqn:Ho.
  - rewrite outcome_of_bind. simpl. by destruct (burial_vessel _).
  - intros [= <-]. by apply laying_raises in Ho.
  - done.
Qed.


End Exceptions.


(** ** When the phase completes *)

Section Completes.
Context {S : Type} `{CableStorage S}.
Implicit Types w : world S.

Lemma lay_sections_empty_never_raises fuel d kw c l w e :
  default [] (heap w !! l) = [] →
  outcome_of (lay_sections fuel d kw c l w) ≠ Raised e.
Proof.
  revert w. induction fuel as [|fuel IH]; intros w Hl; [done|].
  destruct (at_port (vessel w)) eqn:Hp.
  { rewrite lay_sections_at_port by done.
    rewrite outcome_of_bind, load_and_transit_to_site_run, outcome_of_mk,
      world_of_mk.
    by apply IH. }
  destruct (at_site (vessel w)) eqn:Hs.
  - rewrite lay_sections_no_section by done. by rewrite transit_to_port_run.
  - rewrite lay_sections_adrift by done. by apply IH.
Qed.

Lemma laying_empty_never_raises fuel d kw (cable_data : list (Cable * loc))
    w e :
  Forall (λ cs : Cable * loc, default [] (heap w !! cs.2) = []) cable_data →
  outcome_of (laying fuel d kw cable_data w) ≠ Raised e.
Proof.
  unfold laying.
  revert w. induction cable_data as [|[c l] cd IH]; intros w Hcd; simpl.
  { done. }
  apply Forall_cons in Hcd as [Hl Hcd]. simpl in Hl.
  rewrite outcome_of_bind.
  destruct (install_one_cable_idle fuel d kw c l w Hl) as [_ Hh].
  destruct (outcome_of (install_one_cable fuel d kw c l w))
    as [[]|e'|] eqn:Ho.
  - apply IH. by rewrite Hh.
  - intros [= ->]. revert Ho. unfold install_one_cable.
    rewrite !outcome_of_bind, transit_to_port_run, outcome_of_mk.
    change (outcome_of (set_vessel (set_cable_storage reset) w))
      with (Returned (A:=unit) tt). cbv iota beta.
    pose proof (lay_sections_empty_never_raises fuel d kw c l
                  (world_of (set_vessel (set_cable_storage reset) w)) e Hl)
      as Hn.
    by destruct (outcome_of (lay_sections _ _ _ _ _ _)) as [[]|e'|].
  - done.
Qed.

Lemma install_array_cables_trenched_never_raises fuel d kw cable_data w e :
  is_Some (trench_vessel w) →
  outcome_of (install_array_cables fuel d cable_data kw w) ≠ Raised e.
Proof.
  intros Htv. unfold install_array_cables.
  fold (trenching fuel d kw cable_data). fold (laying fuel d kw cable_data).
  rewrite outcome_of_bind.
  pose proof (trenching_never_raises fuel d kw cable_data w) as Hn.
  pose proof (trench_all_empties fuel d kw cable_data w) as He.
  rewrite <- trenching_trenched in He by done. simpl in He.
  destruct (outcome_of (trenching fuel d kw cable_data w)) as [[]|e'|];
    [|by destruct (Hn e')|done].
  specialize (He eq_refl).
  rewrite outcome_of_bind. simpl. rewrite outcome_of_bind.
  pose proof (laying_empty_never_raises fuel d kw cable_data
                (with_to_bury (λ _, [])
                   (world_of (trenching fuel d kw cable_data w))) e He)
    as Hl.
  destruct (outcome_of (laying _ _ _ _ _)) as [[]|e'|] eqn:Ho.
  - rewrite outcome_of_bind. simpl. by destruct (burial_vessel _).
  - done.
  - done.
Qed.


End Completes.


(** ** A storage that a reload always fills enough *)

Section Supplied.
Context {S : Type} `{CableStorage S}.
Variable Inv : S → Prop.
Variable ok : Z → Prop.
Hypothesis Hsupply : reload_suffices Inv ok.
Implicit Types w : world S.

Lemma stocked_rel_refl w : stocked_rel Inv ok w [] w.
Proof. by intros ?. Qed.

Lemma stocked_rel_trans w1 t1 w2 t2 w3 :
  stocked_rel Inv ok w1 t1 w2 → stocked_rel Inv ok w2 t2 w3 →
  stocked_rel Inv ok w1 (t1 ++ t2) w3.
Proof. unfold stocked_rel. auto. Qed.

Lemma stocked_pop0 l : sat (stocked_rel Inv ok) (pop0 l).
Proof.
  intros w [Hi Hl]. unfold pop0. proc_run.
  destruct (default [] (heap w !! l)) as [|s rest] eqn:El; proc_run.
  { by split. }
  split; [done|]. intros l'. unfold world_of. simpl.
  destruct (decide (l = l')) as [<-|Hne].
  - rewrite lookup_insert_eq. simpl.
    specialize (Hl l). rewrite El in Hl. by apply Forall_cons in Hl as [_ ?].
  - rewrite lookup_insert_ne by done. apply Hl.
Qed.

Lemma stocked_lay_section d kw c len specs :
  sat (stocked_rel Inv ok) (lay_section d kw c len specs).
Proof.
  destruct Hsupply as (Hreset & Hload & Hget & Hre).
  intros [[p q st] bv tv hp tb] [Hi Hl]. simpl in Hi, Hl. proc_run.
  destruct (get_cable len st) as [[x st1]|] eqn:Hg; proc_run.
  - destruct bv; (split; [exact (Hget _ _ _ _ Hi Hg)|exact Hl]).
  - destruct (get_cable len (load_cable c st)) as [[x st2]|] eqn:Hg2;
      proc_run.
    + destruct bv;
        (split; [exact (Hget _ _ _ _ (Hload c st Hi) Hg2)|exact Hl]).
    + split; [exact (Hload c st Hi)|exact Hl].
Qed.

Ltac stocked_block :=
  let w := fresh "w" in
  let Hi := fresh "Hi" in
  let Hl := fresh "Hl" in
  destruct Hsupply as (? & ? & ? & ?);
  intros w; destruct w as [[? ? ?] ? [?|] ? ?]; intros [Hi Hl];
  simpl in Hi, Hl; proc_run; split; simpl; auto.

Lemma stocked_trenching fuel d kw cable_data :
  sat (stocked_rel Inv ok) (trenching fuel d kw cable_data).
Proof.
  apply sat_bind_get.
  intros w. destruct (trench_vessel w); [|by intros ?].
  apply (sat_trench_all (stocked_rel Inv ok)) with (L := λ _, True);
    first
      [ exact stocked_rel_refl | exact stocked_rel_trans
      | by apply Forall_forall
      | intros; apply stocked_pop0
      | intros; stocked_block ].
Qed.

Lemma stocked_install_one_cable fuel d kw c l :
  sat (stocked_rel Inv ok) (install_one_cable fuel d kw c l).
Proof.
  apply (sat_install_one_cable (stocked_rel Inv ok)) with (L := λ _, True);
    first
      [ exact stocked_rel_refl | exact stocked_rel_trans
      | exact stocked_lay_section
      | done
      | intros; apply stocked_pop0
      | intros; stocked_block ].
Qed.

(** With the storage in order, a section of a length that is [ok] is
    laid. *)
Lemma lay_section_supplied d kw c len specs w :
  stocked Inv ok w → ok len →
  outcome_of (lay_section d kw c len specs w) = Returned tt.
Proof.
  destruct Hsupply as (Hreset & Hload & Hget & Hre).
  destruct w as [[p q st] bv tv hp tb]. intros [Hi Hl] Hok. simpl in Hi.
  proc_run.
  destruct (get_cable len st) as [[x st1]|] eqn:Hg; proc_run.
  - by destruct bv.
  - destruct (Hre c st len Hi Hok) as [[x st2] Hg2]. rewrite Hg2. proc_run.
    by destruct bv.
Qed.

Lemma for_repeat_supplied n d kw c len specs w :
  stocked Inv ok w → ok len →
  outcome_of (for_repeat n (lay_section d kw c len specs) w) = Returned tt.
Proof.
  intros Hw Hok. revert w Hw. induction n as [|n IH]; intros w Hw; simpl.
  { done. }
  rewrite outcome_of_bind, (lay_section_supplied _ _ _ _ _ _ Hw Hok).
  apply IH. by apply stocked_lay_section.
Qed.

Lemma lay_sections_supplied fuel d kw c l w e :
  stocked Inv ok w →
  outcome_of (lay_sections fuel d kw c l w) ≠ Raised e.
Proof.
  revert w. induction fuel as [|fuel IH]; intros w Hw; [done|].
  destruct (at_port (vessel w)) eqn:Hp.
  { rewrite lay_sections_at_port by done.
    rewrite outcome_of_bind, load_and_transit_to_site_run, outcome_of_mk,
      world_of_mk.
    apply IH. destruct Hsupply as (_ & Hload & _), Hw as [Hi Hl].
    split; simpl; auto. }
  destruct (at_site (vessel w)) eqn:Hs.
  2:{ rewrite lay_sections_adrift by done. by apply IH. }
  destruct (heap w !! l) as [[|s rest]|] eqn:Hl.
  - rewrite lay_sections_no_section by (by rewrite ?Hl).
    by rewrite transit_to_port_run.
  - rewrite (lay_sections_next_section _ _ _ _ _ _ s rest) by done.
    set (w1 := with_heap (<[l := rest]> (heap w)) w).
    assert (ok (cs_length s) ∧ stocked Inv ok w1) as [Hok Hw1].
    { destruct Hw as [Hi Hall]. pose proof (Hall l) as Hs'.
      rewrite Hl in Hs'. simpl in Hs'. apply Forall_cons in Hs' as [Hs' Hr].
      split; [done|]. split; [done|]. intros l'. simpl.
      destruct (decide (l = l')) as [<-|Hne].
      - by rewrite lookup_insert_eq.
      - rewrite lookup_insert_ne by done. apply Hall. }
    rewrite outcome_of_bind. unfold for_range.
    rewrite (for_repeat_supplied _ _ _ _ _ _ _ Hw1 Hok).
    apply IH.
    apply (sat_for_repeat (stocked_rel Inv ok) stocked_rel_refl
             stocked_rel_trans _ _ (stocked_lay_section _ _ _ _ _) w1 Hw1).
  - rewrite lay_sections_no_section by (by rewrite ?Hl).
    by rewrite transit_to_port_run.
Qed.

Lemma laying_supplied fuel d kw cable_data w e :
  stocked Inv ok w →
  outcome_of (laying fuel d kw cable_data w) ≠ Raised e.
Proof.
  intros Hw Hr.
  apply (for_each_raises (stocked Inv ok) (λ _, False) cable_data
           (λ '(cable, sections),
              install_one_cable fuel d kw cable sections))
    with (w := w) (e := e); [|done|done].
  intros [c l] w' Hw'. split; [by apply stocked_install_one_cable|].
  intros e'. unfold install_one_cable.
  rewrite !outcome_of_bind, transit_to_port_run, outcome_of_mk.
  change (outcome_of (set_vessel (set_cable_storage reset) w'))
    with (Returned (A:=unit) tt). cbv iota beta.
  assert (stocked Inv ok (world_of (set_vessel (set_cable_storage reset) w')))
    as Hw1.
  { destruct Hsupply as (Hreset & _), Hw' as [Hi Hl]. split; simpl; auto. }
  pose proof (lay_sections_supplied fuel d kw c l _ e' Hw1) as Hn.
  by destruct (outcome_of (lay_sections _ _ _ _ _ _)) as [[]|e''|].
Qed.

Lemma install_array_cables_supplied fuel d kw cable_data w e :
  stocked Inv ok w →
  outcome_of (install_array_cables fuel d cable_data kw w) ≠ Raised e.
Proof.
  intros Hw. unfold install_array_cables.
  fold (trenching fuel d kw cable_data). fold (laying fuel d kw cable_data).
  rewrite outcome_of_bind.
  pose proof (trenching_never_raises fuel d kw cable_data w) as Hn.
  pose proof (stocked_trenching fuel d kw cable_data w Hw) as Hw1.
  destruct (outcome_of (trenching fuel d kw cable_data w)) as [[]|e'|];
    [|by destruct (Hn e')|done].
  rewrite outcome_of_bind. simpl. rewrite outcome_of_bind.
  pose proof (laying_supplied fuel d kw cable_data
                (with_to_bury (λ _, [])
                   (world_of (trenching fuel d kw cable_data w))) e)
    as Hl.
  destruct (outcome_of (laying _ _ _ _ _)) as [[]|e'|] eqn:Ho.
  - rewrite outcome_of_bind. simpl. by destruct (burial_vessel _).
  - intros [= ->]. apply Hl; [|done]. by destruct Hw1.
  - done.
Qed.

Lemma build_cable_data_lists (P : list cable_section → Prop) cables w :
  (∀ l, P (default [] (heap w !! l))) →
  ∃ cd hp,
    build_cable_data cables w = ([], with_heap hp w, Returned cd)
    ∧ length cd = length cables
    ∧ ∀ l, P (default [] (hp !! l)).
Proof.
  revert w. induction cables as [|[name data] cables IH]; intros w HP; simpl.
  - exists [], (heap w). by destruct w.
  - set (l' := fresh (dom (heap w))).
    set (w1 := with_heap
                 (<[l' := default [] (heap w !! cfg_cable_sections data)]>
                    (heap w)) w).
    destruct (IH w1) as (cd & hp & Hrun & Hlen & HP').
    { intros l. simpl. destruct (decide (l' = l)) as [->|Hne].
      - rewrite lookup_insert_eq. simpl. apply HP.
      - rewrite lookup_insert_ne by done. apply HP. }
    exists (({| linear_density := cfg_linear_density data |}, l') :: cd), hp.
    split; [|split; [simpl; by rewrite Hlen|done]].
    unfold deepcopy. proc_run. fold l' w1. rewrite Hrun. by destruct w.
Qed.

Lemma setup_simulation_lists (P : list cable_section → Prop) fuel
    (cfg : config S) kw h :
  (∀ l, P (default [] (h !! l))) →
  ∃ cd hp,
    setup_simulation fuel cfg kw h =
      install_array_cables fuel (site_distance cfg) cd kw
        (with_heap hp (initial_world cfg h))
    ∧ length cd = length (array_system_cables cfg)
    ∧ ∀ l, P (default [] (hp !! l)).
Proof.
  intros HP.
  destruct (build_cable_data_lists P (array_system_cables cfg)
              (initial_world cfg h) HP) as (cd & hp & Hrun & Hrest).
  exists cd, hp. split; [|exact Hrest].
  unfold setup_simulation. fold (initial_world cfg h).
  unfold bind at 1. rewrite Hrun. simpl.
  by destruct (install_array_cables _ _ _ _ _) as [[t w'] r].
Qed.


End Supplied.

Lemma pool_reload_suffices : reload_suffices pool_inv pool_ok.
Proof.
  unfold reload_suffices, pool_inv, pool_ok. simpl.
  split; [done|]. split; [done|]. split.
  - intros len st x st' Hi Hg. unfold pool_get in Hg.
    destruct (decide (len > level st)); by simplify_eq.
  - intros c st len Hi Hok. unfold pool_get, pool_reset. simpl.
    destruct (decide (len > capacity st)); [lia|by eexists].
Qed.


(** ** The passages of the vessels *)

Section Voyages.
Context {S : Type} `{CableStorage S}.
Implicit Types w : world S.

Lemma transits_app a t1 t2 :
  transits a (t1 ++ t2) = (transits a t1 + transits a t2)%nat.
Proof. unfold transits. by rewrite omap_app, length_app. Qed.

Lemma loads_app t1 t2 : loads (t1 ++ t2) = (loads t1 + loads t2)%nat.
Proof. unfold loads. by rewrite omap_app, length_app. Qed.

Lemma round_trip_rel_refl w : round_trip_rel w [] w.
Proof. done. Qed.

Lemma round_trip_rel_trans w1 t1 w2 t2 w3 :
  round_trip_rel w1 t1 w2 → round_trip_rel w2 t2 w3 →
  round_trip_rel w1 (t1 ++ t2) w3.
Proof.
  unfold round_trip_rel. intros H1 H2. rewrite transits_app, loads_app. lia.
Qed.

Lemma trench_moored_rel_refl w : trench_moored_rel w [] w.
Proof. done. Qed.

Lemma trench_moored_rel_trans w1 t1 w2 t2 w3 :
  trench_moored_rel w1 t1 w2 → trench_moored_rel w2 t2 w3 →
  trench_moored_rel w1 (t1 ++ t2) w3.
Proof.
  unfold trench_moored_rel. intros H1 H2. rewrite transits_app. lia.
Qed.

Lemma round_trip_lay_section d kw c len specs :
  sat round_trip_rel (lay_section d kw c len specs).
Proof.
  intros [[p q st] bv tv hp tb]. proc_run.
  destruct (get_cable len st) as [[x st1]|]; proc_run;
    [|destruct (get_cable len (load_cable c st)) as [[x st2]|]; proc_run];
    by destruct bv.
Qed.

Lemma round_trip_trenching fuel d kw cable_data :
  sat round_trip_rel (trenching fuel d kw cable_data).
Proof.
  apply sat_bind_get.
  intros w. destruct (trench_vessel w); [|done].
  apply (sat_trench_all round_trip_rel) with (L := λ _, True);
    first
      [ exact round_trip_rel_refl | exact round_trip_rel_trans
      | by apply Forall_forall
      | intros; intros w'; unfold pop0; proc_run;
        by destruct (default [] (heap w' !! _))
      | intros; intros w'; destruct w' as [[? ? ?] ? [?|] ? ?];
        proc_run; done ].
Qed.

Lemma trench_moored_laying fuel d kw cable_data :
  sat trench_moored_rel (laying fuel d kw cable_data).
Proof.
  apply (sat_lay_all trench_moored_rel) with (L := λ _, True);
    first
      [ exact trench_moored_rel_refl | exact trench_moored_rel_trans
      | by apply Forall_forall
      | intros; intros w'; unfold pop0; proc_run;
        by destruct (default [] (heap w' !! _))
      | intros d' kw' c len specs [[p q st] bv tv hp tb]; proc_run;
        destruct (get_cable len st) as [[x st1]|]; proc_run;
        [|destruct (get_cable len (load_cable c st)) as [[x st2]|]; proc_run];
        by destruct bv
      | intros; intros w'; destruct w' as [[? ? ?] ? ? ? ?];
        proc_run; done ].
Qed.

(** The laying loop of a cable: a passage out if it starts at port, two
    passages per reload, and a passage back. *)
Lemma lay_sections_voyage fuel d kw c l w :
  outcome_of (lay_sections fuel d kw c l w) = Returned tt →
  transits install_vessel (trace_of (lay_sections fuel d kw c l w))
  = (2 * loads (trace_of (lay_sections fuel d kw c l w))
     + (if at_port (vessel w) then 0 else 1))%nat.
Proof.
  revert w. induction fuel as [|fuel IH]; intros w; [done|].
  destruct (at_port (vessel w)) eqn:Hp.
  { rewrite lay_sections_at_port by done. intros Hr.
    apply bind_returned_inv in Hr as ([] & _ & Hr & -> & _).
    rewrite load_and_transit_to_site_run in *.
    rewrite trace_of_mk, world_of_mk in *.
    specialize (IH _ Hr). simpl in IH.
    rewrite transits_app, loads_app, IH.
    change (transits install_vessel _) with 1%nat at 1.
    change (loads [_; _]) with 1%nat. lia. }
  destruct (at_site (vessel w)) eqn:Hs.
  2:{ rewrite lay_sections_adrift by done. intros Hr.
      specialize (IH _ Hr). by rewrite Hp in IH. }
  destruct (heap w !! l) as [[|s rest]|] eqn:Hl.
  - rewrite lay_sections_no_section by (by rewrite ?Hl).
    by rewrite transit_to_port_run.
  - rewrite (lay_sections_next_section _ _ _ _ _ _ s rest) by done.
    intros Hr.
    apply bind_returned_inv in Hr as ([] & _ & Hr & -> & _).
    set (w1 := with_heap (<[l := rest]> (heap w)) w) in *.
    unfold for_range in *.
    pose proof (sat_for_repeat round_trip_rel round_trip_rel_refl
      round_trip_rel_trans (Z.to_nat (cs_count s)) _
      (round_trip_lay_section d kw c (cs_length s)
         (section_specs (burial_vessel w) kw (cs_extra s))) w1) as Hrt.
    pose proof (sat_for_repeat frame_rel frame_rel_refl frame_rel_trans
      (Z.to_nat (cs_count s)) _
      (frame_lay_section d kw c (cs_length s)
         (section_specs (burial_vessel w) kw (cs_extra s))) w1) as [_ Hsn].
    apply (f_equal snap_install) in Hsn. simpl in Hsn.
    injection Hsn as Hsp _.
    specialize (IH _ Hr). rewrite Hsp, Hp in IH.
    unfold round_trip_rel in Hrt.
    rewrite transits_app, loads_app, IH, Hrt. lia.
  - rewrite lay_sections_no_section by (by rewrite ?Hl).
    by rewrite transit_to_port_run.
Qed.

Lemma install_one_cable_voyage fuel d kw c l w :
  at_port (vessel w) = true →
  outcome_of (install_one_cable fuel d kw c l w) = Returned tt →
  transits install_vessel (trace_of (install_one_cable fuel d kw c l w))
  = (2 * loads (trace_of (install_one_cable fuel d kw c l w)) + 1)%nat.
Proof.
  intros Hp Hr. unfold install_one_cable in *.
  apply bind_returned_inv in Hr as ([] & _ & Hr & -> & _).
  apply bind_returned_inv in Hr as ([] & H1 & Hr & -> & _).
  apply lay_sections_voyage in H1. simpl in H1. rewrite Hp in H1.
  rewrite transit_to_port_run, trace_of_mk.
  rewrite !transits_app, !loads_app, H1.
  change (transits install_vessel [_]) with 1%nat.
  change (loads [_]) with 0%nat.
  change (transits install_vessel (trace_of (set_vessel _ w))) with 0%nat.
  change (loads (trace_of (set_vessel _ w))) with 0%nat. lia.
Qed.

Lemma laying_voyage fuel d kw (cable_data : list (Cable * loc)) w :
  at_port (vessel w) = true →
  outcome_of (laying fuel d kw cable_data w) = Returned tt →
  transits install_vessel (trace_of (laying fuel d kw cable_data w))
  = (2 * loads (trace_of (laying fuel d kw cable_data w))
     + length cable_data)%nat.
Proof.
  unfold laying.
  revert w. induction cable_data as [|[c l] cd IH]; intros w Hp Hr;
    simpl in *; [done|].
  apply bind_returned_inv in Hr as ([] & H1 & Hr & -> & _).
  pose proof (install_one_cable_ends_at_port _ _ _ _ _ _ H1) as Hf.
  injection Hf as Hp1 _.
  rewrite transits_app, loads_app, (IH _ Hp1 Hr),
    (install_one_cable_voyage _ _ _ _ _ _ Hp H1). lia.
Qed.

(** The trenching loop of a cable: a passage out if it starts at port,
    and a passage back. *)
Lemma trench_sections_voyage fuel d kw l w tv :
  trench_vessel w = Some tv →
  outcome_of (trench_sections fuel d kw l w) = Returned tt →
  transits trench_vessel_agent (trace_of (trench_sections fuel d kw l w))
  = (if at_port tv then 2 else 1)%nat.
Proof.
  revert w tv. induction fuel as [|fuel IH]; intros w tv Ht; [done|].
  destruct (at_port tv) eqn:Hp.
  { rewrite (trench_sections_at_port _ _ _ _ _ tv) by done. intros Hr.
    apply bind_returned_inv in Hr as ([] & _ & Hr & -> & _).
    rewrite trench_transit_to_site_run in *.
    rewrite trace_of_mk, world_of_mk in *.
    assert (trench_vessel (with_trench_vessel (set_at_site true)
                             (with_trench_vessel (set_at_port false) w))
            = Some (set_at_site true (set_at_port false tv))) as Ht1.
    { simpl. by rewrite Ht. }
    rewrite transits_app, (IH _ _ Ht1 Hr). done. }
  destruct (at_site tv) eqn:Hs.
  2:{ rewrite (trench_sections_adrift _ _ _ _ _ tv) by done. intros Hr.
      rewrite (IH _ _ Ht Hr). by rewrite Hp. }
  destruct (heap w !! l) as [[|s rest]|] eqn:Hl.
  - rewrite (trench_sections_no_section _ _ _ _ _ tv) by (by rewrite ?Hl).
    by rewrite trench_transit_to_port_run.
  - rewrite (trench_sections_next_section _ _ _ _ _ tv s rest) by done.
    intros Hr.
    apply bind_returned_inv in Hr as ([] & _ & Hr & -> & _).
    unfold for_range in *. rewrite for_repeat_emit in *.
    rewrite trace_of_mk, world_of_mk in *.
    rewrite transits_app,
      (IH (with_heap (<[l := rest]> (heap w)) w) tv Ht Hr), Hp.
    assert (∀ n e, transits trench_vessel_agent (replicate n (Spawn e))
                   = 0%nat) as Hz.
    { intros n e. induction n as [|n IHn]; [done|exact IHn]. }
    by rewrite Hz.
  - rewrite (trench_sections_no_section _ _ _ _ _ tv) by (by rewrite ?Hl).
    by rewrite trench_transit_to_port_run.
Qed.

Lemma trench_one_cable_voyage fuel d kw l w :
  trench_at_port w →
  outcome_of (trench_one_cable fuel d kw l w) = Returned tt →
  transits trench_vessel_agent (trace_of (trench_one_cable fuel d kw l w))
  = 3%nat.
Proof.
  intros Hp Hr. unfold trench_one_cable in *.
  apply bind_returned_inv in Hr as ([] & _ & Hr & -> & _).
  apply bind_returned_inv in Hr as ([] & H1 & Hr & -> & _).
  unfold trench_at_port in Hp.
  destruct (trench_vessel w) as [tv|] eqn:Ht.
  2:{ revert H1. clear -Ht. destruct fuel; [done|]. simpl.
      unfold bind, get_trench_vessel. simpl. by rewrite Ht. }
  simpl in Hp. injection Hp as Hp _.
  rewrite trench_transit_to_port_run, trace_of_mk.
  rewrite !transits_app,
    (trench_sections_voyage fuel d kw l
       (world_of (set_vessel (set_cable_storage reset) w)) tv Ht H1).
  by rewrite Hp.
Qed.

Lemma trench_all_voyage fuel d kw (cable_data : list (Cable * loc)) w :
  let r := for_each cable_data (λ '(cable, sections),
             trench_one_cable fuel d kw sections) w in
  trench_at_port w →
  outcome_of r = Returned tt →
  transits trench_vessel_agent (trace_of r) = (3 * length cable_data)%nat.
Proof.
  revert w. induction cable_data as [|[c l] cd IH]; simpl; intros w Hp Hr;
    simpl in *; [done|].
  apply bind_returned_inv in Hr as ([] & H1 & Hr & -> & _).
  pose proof (trench_one_cable_ends_at_port _ _ _ _ _ H1) as Hp1.
  rewrite transits_app, (IH _ Hp1 Hr),
    (trench_one_cable_voyage _ _ _ _ _ Hp H1). lia.
Qed.

Lemma transits_completion a kw w : transits a (completion kw w) = 0%nat.
Proof. unfold completion. by destruct (burial_vessel w). Qed.

Lemma loads_completion kw w : loads (completion kw w) = 0%nat.
Proof. unfold completion. by destruct (burial_vessel w). Qed.


End Voyages.


(** ** What the burial vessel is given *)

Section HandedOver.
Context {S : Type} `{CableStorage S}.
Implicit Types w : world S.

Lemma lay_steps_laid t : laid_and_buried t = [] → lay_steps t = laid t.
Proof.
  induction t as [|[a s kw sn|p|a msg] t IH]; simpl; try done.
  destruct s; simpl; try done.
  intros Hlb. f_equal. by apply IH.
Qed.

(** X15: with a burial vessel, a phase that returns calls
    [bury_array_cables] once, at its end, with the keyword arguments of
    the phase and with the sections of the configuration in the order
    they were laid; with a trenching vessel as well, it calls it with
    the empty list. *)
Theorem X15_what_the_burial_vessel_is_given fuel (cfg : config S) kw h :
  is_Some (array_cable_bury_vessel cfg) →
  exact_cut S → config_lists_exist cfg h →
  outcome_of (setup_simulation fuel cfg kw h) = Returned tt →
  bury_calls (trace_of (setup_simulation fuel cfg kw h))
  = [(match array_cable_trench_vessel cfg with
      | None => config_units cfg h
      | Some _ => []
      end, kw)].
Proof.
  intros Hbv Hcut Hex Hr.
  destruct (setup_simulation_copies fuel cfg kw h Hex)
    as (cd & hp & Heq & Hnd & _ & Hcopy & _).
  rewrite Heq in *. set (w0 := with_heap hp (initial_world cfg h)) in *.
  assert (is_Some (burial_vessel w0)) as Hbv0.
  { destruct Hbv as [b Hb]. simpl. rewrite Hb. by eexists. }
  destruct (install_array_cables_burial fuel (site_distance cfg) kw cd w0
              Hbv0) as [Hlb Hout].
  rewrite Hr in Hout. destruct Hout as (t & Ht & Hc).
  assert (laid_and_buried t = []) as Hlbt.
  { rewrite Ht in Hlb. unfold laid_and_buried in *.
    rewrite omap_app in Hlb. by apply app_eq_nil in Hlb as [? _]. }
  assert (bury_calls (trace_of (install_array_cables fuel (site_distance cfg)
                                  cd kw w0)) = [(laid t, kw)]) as Hcalls.
  { rewrite Ht. unfold bury_calls in *. by rewrite omap_app, Hc. }
  rewrite Hcalls. do 2 f_equal.
  destruct (array_cable_trench_vessel cfg) as [st|] eqn:Htv.
  - assert (is_Some (trench_vessel w0)) as Htv0.
    { simpl. rewrite Htv. by eexists. }
    destruct (install_array_cables_trenched fuel (site_distance cfg) kw cd
                w0 Htv0) as [_ Hl].
    rewrite Ht in Hl. unfold laid in *. rewrite omap_app in Hl.
    by apply app_eq_nil in Hl as [? _].
  - assert (trench_vessel w0 = None) as Htv0 by (simpl; by rewrite Htv).
    destruct (install_array_cables_lays fuel _ kw cd w0 Hcut Htv0 Hnd Hr)
      as [Hl _].
    rewrite Ht, lay_steps_app in Hl. simpl in Hl. rewrite app_nil_r in Hl.
    rewrite <- (lay_steps_laid t Hlbt), Hl.
    change (heap w0) with hp.
    exact (units_of_copies section_units _ _ _ _ Hcopy).
Qed.

End HandedOver.

Lemma X15_witness :
  bury_calls (trace_of (setup_simulation 10 (two_cable_config true false) ∅
                          two_cable_heap))
  = [(config_units (two_cable_config true false) two_cable_heap, ∅)].
Proof.
  apply (X15_what_the_burial_vessel_is_given (S:=ResourcePool) 10
           (two_cable_config true false) ∅ two_cable_heap).
  - by eexists.
  - exact pool_exact_cut.
  - apply two_cable_lists_exist.
  - vm_compute. reflexivity.
Defined.

(** ** What the steps are called with *)

Section CalledWith.
Context {S : Type} `{CableStorage S}.
Variable bv : option (Vessel S).
Variable d : Z.
Variable kw : kwargs.
Implicit Types w : world S.

Lemma called_rel_refl w : called_rel bv d kw w [] w.
Proof. intros Hb. by split. Qed.

Lemma called_rel_trans w1 t1 w2 t2 w3 :
  called_rel bv d kw w1 t1 w2 → called_rel bv d kw w2 t2 w3 →
  called_rel bv d kw w1 (t1 ++ t2) w3.
Proof.
  intros H1 H2 Hb. destruct (H1 Hb) as [Hb2 Ht1].
  destruct (H2 Hb2) as [Hb3 Ht2]. split; [done|]. by apply Forall_app.
Qed.

Ltac called_block :=
  let w := fresh "w" in
  let Hb := fresh "Hb" in
  intros w; destruct w as [[? ? ?] ? [?|] ? ?]; intros Hb; simpl in Hb;
  proc_run; (split; [exact Hb|]);
  unfold trace_of; simpl; repeat constructor.

Lemma called_pop0 l : sat (called_rel bv d kw) (pop0 l).
Proof.
  intros w Hb. unfold pop0. proc_run.
  destruct (default [] (heap w !! l)); proc_run; (split; [exact Hb|]);
    constructor.
Qed.

Lemma called_lay_section c len extra :
  sat (called_rel bv d kw)
    (lay_section d kw c len (section_specs bv kw extra)).
Proof.
  intros [[p q st] bv0 tv hp tb] Hb. simpl in Hb. subst bv0. proc_run.
  destruct (get_cable len st) as [[x st1]|]; proc_run;
    [|destruct (get_cable len (load_cable c st)) as [[x st2]|]; proc_run];
    destruct bv as [b|] eqn:Ebv; (split; [done|]);
    unfold trace_of; simpl;
    repeat (constructor; [simpl; try done|]);
    first [ apply Forall_nil_2
          | destruct extra as [|v extra']; simpl; eauto ].
Qed.

Lemma called_trench_sections fuel l :
  sat (S:=S) (called_rel bv d kw) (trench_sections fuel d kw l).
Proof.
  induction fuel as [|fuel IH]; simpl;
    [apply sat_spin, called_rel_refl|].
  apply sat_bind; [exact called_rel_trans|called_block|]. intros tv.
  destruct (at_port tv).
  { apply sat_bind; [exact called_rel_trans|called_block|].
    intros _. exact IH. }
  destruct (at_site tv); [|exact IH].
  apply sat_bind; [exact called_rel_trans| |].
  - apply sat_catch; [exact called_rel_trans| |].
    + apply sat_bind; [exact called_rel_trans|apply called_pop0|]. intros s.
      apply sat_bind; [exact called_rel_trans|
                       |intros _; apply sat_ret, called_rel_refl].
      apply sat_for_range;
        [exact called_rel_refl|exact called_rel_trans|called_block].
    + apply sat_bind; [exact called_rel_trans|called_block|].
      intros _. apply sat_ret, called_rel_refl.
  - intros [|]; [apply sat_ret, called_rel_refl|exact IH].
Qed.

Lemma called_lay_sections fuel c l :
  sat (called_rel bv d kw) (lay_sections fuel d kw c l).
Proof.
  induction fuel as [|fuel IH]; [apply sat_spin, called_rel_refl|].
  intros w Hb.
  destruct (at_port (vessel w)) eqn:Hp.
  { rewrite lay_sections_at_port by done.
    refine (sat_bind (called_rel bv d kw) called_rel_trans _ _ _
              (λ _, IH) w Hb).
    called_block. }
  destruct (at_site (vessel w)) eqn:Hs.
  2:{ rewrite lay_sections_adrift by done. by apply IH. }
  destruct (heap w !! l) as [[|s rest]|] eqn:Hl.
  - rewrite lay_sections_no_section by (by rewrite ?Hl).
    clear Hp Hs Hl. revert w Hb. called_block.
  - rewrite (lay_sections_next_section _ _ _ _ _ _ s rest) by done.
    rewrite Hb.
    refine (sat_bind (called_rel bv d kw) called_rel_trans _ _ _
              (λ _, IH) (with_heap (<[l := rest]> (heap w)) w) Hb).
    apply sat_for_range; [exact called_rel_refl|exact called_rel_trans|].
    apply called_lay_section.
  - rewrite lay_sections_no_section by (by rewrite ?Hl).
    clear Hp Hs Hl. revert w Hb. called_block.
Qed.

Lemma called_install_array_cables fuel cable_data :
  sat (called_rel bv d kw) (install_array_cables fuel d cable_data kw).
Proof.
  unfold install_array_cables.
  apply sat_bind; [exact called_rel_trans| |].
  { apply sat_bind_get. intros w.
    destruct (trench_vessel w); [|apply called_rel_refl].
    apply (sat_for_each (called_rel bv d kw) called_rel_refl
             called_rel_trans (λ _, True)); [|by apply Forall_forall].
    intros [c l] _. unfold trench_one_cable.
    apply sat_bind; [exact called_rel_trans|called_block|]. intros _.
    apply sat_bind; [exact called_rel_trans|apply called_trench_sections|].
    intros _. called_block. }
  intros _. apply sat_bind; [exact called_rel_trans|called_block|]. intros _.
  apply sat_bind; [exact called_rel_trans| |].
  { apply (sat_for_each (called_rel bv d kw) called_rel_refl
             called_rel_trans (λ _, True)); [|by apply Forall_forall].
    intros [c l] _. unfold install_one_cable.
    apply sat_bind; [exact called_rel_trans|called_block|]. intros _.
    apply sat_bind; [exact called_rel_trans|apply called_lay_sections|].
    intros _. called_block. }
  intros _. apply sat_bind_get. intros w.
  destruct (burial_vessel w); [|revert w; called_block].
  generalize (to_bury w). intros sections. revert w. called_block.
Qed.

End CalledWith.

Section CalledWithPhase.
Context {S : Type} `{CableStorage S}.


End CalledWithPhase.

(** ** Trenching comes first *)

Section TrenchingFirst.
Context {S : Type} `{CableStorage S}.
Implicit Types w : world S.

Lemma trench_only_rel_refl w : trench_only_rel w [] w.
Proof. constructor. Qed.

Lemma trench_only_rel_trans w1 t1 w2 t2 w3 :
  trench_only_rel w1 t1 w2 → trench_only_rel w2 t2 w3 →
  trench_only_rel w1 (t1 ++ t2) w3.
Proof. unfold trench_only_rel. intros H1 H2. by apply Forall_app. Qed.

Lemma install_only_rel_refl w : install_only_rel w [] w.
Proof. constructor. Qed.

Lemma install_only_rel_trans w1 t1 w2 t2 w3 :
  install_only_rel w1 t1 w2 → install_only_rel w2 t2 w3 →
  install_only_rel w1 (t1 ++ t2) w3.
Proof. unfold install_only_rel. intros H1 H2. by apply Forall_app. Qed.

Ltac only_events :=
  unfold trench_only_rel, install_only_rel, trace_of; simpl;
  repeat (constructor; [by simpl|]); apply Forall_nil_2.

Lemma trench_only_trenching fuel d kw cable_data :
  sat trench_only_rel (trenching fuel d kw cable_data).
Proof.
  apply sat_bind_get.
  intros w. destruct (trench_vessel w); [|apply trench_only_rel_refl].
  apply (sat_trench_all trench_only_rel) with (L := λ _, True);
    first
      [ exact trench_only_rel_refl | exact trench_only_rel_trans
      | by apply Forall_forall
      | intros; intros w'; unfold pop0; proc_run;
        destruct (default [] (heap w' !! _)); only_events
      | intros; intros w'; destruct w' as [[? ? ?] ? [?|] ? ?];
        proc_run; only_events ].
Qed.

Lemma install_only_lay_section d kw c len specs :
  sat install_only_rel (lay_section d kw c len specs).
Proof.
  intros [[p q st] bv tv hp tb]. proc_run.
  destruct (get_cable len st) as [[x st1]|]; proc_run;
    [|destruct (get_cable len (load_cable c st)) as [[x st2]|]; proc_run];
    destruct bv; only_events.
Qed.

Lemma install_only_laying fuel d kw cable_data :
  sat install_only_rel (laying fuel d kw cable_data).
Proof.
  apply (sat_lay_all install_only_rel) with (L := λ _, True);
    first
      [ exact install_only_rel_refl | exact install_only_rel_trans
      | exact install_only_lay_section
      | by apply Forall_forall
      | intros; intros w'; unfold pop0; proc_run;
        destruct (default [] (heap w' !! _)); only_events
      | intros; intros w'; destruct w' as [[? ? ?] ? ? ? ?];
        proc_run; only_events ].
Qed.

(** X17: trenching comes first.  The trace of the phase is the trace of
    the trenching loop, in which only the trenching vessel acts and only
    [dig_array_cables_trench] is called, followed by a trace in which
    only the installation vessel acts: no cable is loaded before the
    trenching vessel is back at port for the last time. *)
Theorem X17_trenching_comes_first fuel (cfg : config S) kw h :
  ∃ t1 t2,
    trace_of (setup_simulation fuel cfg kw h) = t1 ++ t2
    ∧ Forall trench_event t1
    ∧ Forall install_event t2
    ∧ (array_cable_trench_vessel cfg = None → t1 = []).
Proof.
  destruct (setup_simulation_run fuel cfg kw h) as (cd & hp & -> & _).
  set (w0 := with_heap hp (initial_world cfg h)).
  unfold install_array_cables.
  fold (trenching fuel (site_distance cfg) kw cd).
  fold (laying fuel (site_distance cfg) kw cd).
  rewrite trace_of_bind.
  pose proof (trench_only_trenching fuel (site_distance cfg) kw cd w0) as H1.
  assert (array_cable_trench_vessel cfg = None →
          trace_of (trenching fuel (site_distance cfg) kw cd w0) = [])
    as Hnone.
  { intros Htv. rewrite trenching_untrenched; [done|].
    simpl. by rewrite Htv. }
  destruct (outcome_of (trenching fuel (site_distance cfg) kw cd w0))
    as [[]|e|].
  - eexists _, _. split; [reflexivity|]. split; [exact H1|].
    split; [|exact Hnone].
    apply (sat_bind install_only_rel install_only_rel_trans).
    { intros w. only_events. }
    intros _. apply (sat_bind install_only_rel install_only_rel_trans).
    { apply install_only_laying. }
    intros _. apply sat_bind_get. intros w.
    destruct (burial_vessel w); only_events.
  - exists (trace_of (trenching fuel (site_distance cfg) kw cd w0)), [].
    rewrite app_nil_r. split; [done|]. split; [exact H1|].
    split; [constructor|exact Hnone].
  - exists (trace_of (trenching fuel (site_distance cfg) kw cd w0)), [].
    rewrite app_nil_r. split; [done|]. split; [exact H1|].
    split; [constructor|exact Hnone].
Qed.

End TrenchingFirst.
